(** * ImageCompressorApp: the compression queue of the image compressor

    A shallow embedding of [src/components/ImageCompressorApp.tsx]: the job
    records, the React state of the component, its event handlers
    ([handleFiles], [togglePause], [cancelQueued], [recompressSelectedImage],
    [removeImage], [clearAll]), the admission routine [processQueue] with the
    effects that drive it, and the properties of the queue.

    Modelling conventions.
    - A [useState] cell is a field of [State]; [setX(prev => f prev)] applies
      [f] to the field, in program order.
    - A [useRef] mirror ([queueRef], [activeRef], [pausedRef]) is a field of
      its own, written only by the effect that copies the state into it.
    - What the browser decides is an input of the model: the draws of
      [Math.random] and [URL.createObjectURL], and the outcome of each
      [imageCompression] call.
    - A suspended [await] and a [setTimeout] callback are entries of
      [pending]; they resume as events.
    - Callbacks run one at a time and in any order the browser chooses: an
      event is dispatched in any state in which its control is enabled
      ([dispatch]), and a render pass with its effects is a step of its own
      ([render]). A timer or a settled promise may therefore run between an
      effect that changed the state and the render that copies the change
      into the mirrors; the guards of [processQueue] read the mirrors.
      [quiescentb] tells the states in which React has nothing left to do,
      and [run] is the schedule in which every callback waits for them. *)

From Stdlib Require Import String Ascii List Bool Arith ZArith Lia.
From Stdlib Require Import Floats Uint63 Reals Lra.
Import ListNotations.

Local Open Scope string_scope.
Local Open Scope list_scope.

(** ** JavaScript primitives used by the component *)

Module JS.

(** [Number(n)] for a byte count [n] (exact below 2^53). *)
Definition number_of_Z (z : Z) : float := PrimFloat.of_uint63 (Uint63.of_Z z).

Definition float_of_sign_Z (neg : bool) (n : Z) : float :=
  let a := number_of_Z (Z.abs n) in
  if neg then PrimFloat.opp a else a.

(** [Math.round]: the closest integer, ties towards +infinity; NaN,
    infinities and zeros are returned as they are, and a result of zero
    keeps the sign of the argument. *)
Definition Math_round (x : float) : float :=
  match Prim2SF x with
  | S754_finite neg m e =>
      if (0 <=? e)%Z then x
      else
        let d := Z.pow 2 (- e) in
        let sm := if neg then (- Z.pos m)%Z else Z.pos m in
        let n := ((2 * sm + d) / (2 * d))%Z in
        if (n =? 0)%Z then (if neg then PrimFloat.opp PrimFloat.zero else PrimFloat.zero)
        else float_of_sign_Z (n <? 0)%Z n
  | _ => x
  end.

(** [Math.max(0, y)]: NaN is contagious, and +0 wins over -0. *)
Definition Math_max0 (y : float) : float :=
  if PrimFloat.is_nan y then y
  else if PrimFloat.ltb PrimFloat.zero y then y
  else PrimFloat.zero.

(** [s.lastIndexOf(c)], -1 when [c] does not occur. *)
Fixpoint lastIndexOf_from (c : ascii) (s : string) (i found : Z) : Z :=
  match s with
  | EmptyString => found
  | String a s' => lastIndexOf_from c s' (i + 1) (if Ascii.eqb a c then i else found)
  end.

Definition lastIndexOf (c : ascii) (s : string) : Z := lastIndexOf_from c s 0 (-1).

(** [z >>> 0]: the value as an unsigned 32-bit integer. *)
Definition ushr0 (z : Z) : Z := (z mod 2 ^ 32)%Z.

(** [s.slice(start)] for a non-negative [start]. *)
Definition slice_from (start : Z) (s : string) : string :=
  let len := String.length s in
  let k := Z.to_nat (Z.min start (Z.of_nat len)) in
  String.substring k (len - k) s.

(** [s.startsWith(p)]. *)
Definition startsWith (p s : string) : bool := String.prefix p s.

(** [s.endsWith(p)]. *)
Definition endsWith (p s : string) : bool :=
  let lp := String.length p in
  let ls := String.length s in
  (lp <=? ls)%nat && String.eqb (String.substring (ls - lp) lp s) p.

(** The characters that have a meaning of their own in the pattern of a
    regular expression (the backslash has code 92); every other character
    stands for itself. *)
Definition syntax_chars : list ascii :=
  ascii_of_nat 92 :: list_ascii_of_string "^$.*+?()[]{}|".

Definition is_syntax_char (c : ascii) : bool := existsb (Ascii.eqb c) syntax_chars.

Fixpoint has_syntax_char (s : string) : bool :=
  match s with
  | EmptyString => false
  | String c r => is_syntax_char c || has_syntax_char r
  end.

(** What [s.replace(new RegExp(p), repl)] comes to: the constructor throws
    a SyntaxError, or the pattern matches nowhere in [s], or its first match
    is the [length] characters of [s] from [index] on. *)
Inductive RegExpResult : Type :=
  | SyntaxError
  | NoMatch
  | Match (index length : nat).

(** The pattern [\.ext$] on [s]. When [ext] holds no syntax character the
    pattern is the text [.ext] anchored at the end of [s]. Otherwise what the
    pattern means, and whether it is a pattern at all, is up to the engine:
    its verdict is an input. *)
Definition exec_ext_pattern (engine : RegExpResult) (ext s : string) : RegExpResult :=
  if has_syntax_char ext then engine
  else if endsWith (String "."%char ext) s
       then Match (String.length s - (String.length ext + 1)) (String.length ext + 1)
       else NoMatch.

(** [s.replace(re, repl)] for a replacement text without [$]; [None] when
    building [re] threw. *)
Definition replace (r : RegExpResult) (s repl : string) : option string :=
  match r with
  | SyntaxError => None
  | NoMatch => Some s
  | Match i n =>
      Some (String.substring 0 i s ++ repl
            ++ String.substring (i + n) (String.length s - (i + n)) s)%string
  end.

End JS.

(** ** Data model *)

(** A browser [File]: name, MIME type and size in bytes (a natural number
    below 2^53). *)
Record File : Type := mkFile {
  file_name : string;
  file_type : string;
  file_size : Z
}.

Inductive Status : Type :=
  | Idle | Queued | Compressing | Compressed | Error | Cancelled.

Definition Status_eqb (a b : Status) : bool :=
  match a, b with
  | Idle, Idle | Queued, Queued | Compressing, Compressing
  | Compressed, Compressed | Error, Error | Cancelled, Cancelled => true
  | _, _ => false
  end.

(** [interface CompressedImage]. *)
Record CompressedImage : Type := mkImage {
  id : string;
  name : string;
  originalSize : Z;
  compressedSize : Z;
  originalFile : File;
  compressedFile : option File;
  compressionRatio : float;
  preview : string;
  compressedPreview : string;
  status : Status
}.

(** [{ ...img, status: st }] *)
Definition with_status (st : Status) (img : CompressedImage) : CompressedImage :=
  {| id := id img; name := name img; originalSize := originalSize img;
     compressedSize := compressedSize img; originalFile := originalFile img;
     compressedFile := compressedFile img; compressionRatio := compressionRatio img;
     preview := preview img; compressedPreview := compressedPreview img;
     status := st |}.

Inductive OutputFormat : Type := auto | jpeg | png | webp.

Definition format_string (f : OutputFormat) : string :=
  match f with auto => "auto" | jpeg => "jpeg" | png => "png" | webp => "webp" end.

Record Settings : Type := mkSettings {
  quality : float;
  maxWidth : Z;
  maxHeight : Z;
  outputFormat : OutputFormat
}.

Definition MAX_UPLOAD_SIZE_MB : Z := 5.

Definition MAX_CONCURRENT : nat := 3.

(** What [await compressImage(...)] destructures. *)
Record CompressResult : Type := mkResult {
  r_compressedFile : File;
  r_compressedPreview : string;
  r_compressionRatio : float;
  r_name : string;
  r_compressedSize : Z
}.

(** What the browser does during one call of [compressImage]:
    [imageCompression(file, options)] rejects, or it resolves with a
    compressed file; in the second case [engine] is the verdict of the
    regular-expression engine on the pattern built from the extension (read
    only when the extension holds syntax characters) and [objectURL] is what
    [URL.createObjectURL] hands out for the compressed file. *)
Inductive Outcome : Type :=
  | Resolved (compressedFile : File) (objectURL : string) (engine : JS.RegExpResult)
  | Rejected.

Definition getFileExtension (filename : string) : string :=
  JS.slice_from (JS.ushr0 (JS.lastIndexOf "."%char filename - 1) + 2)%Z filename.

(** [Math.max(0, Math.round((1 - compressedFile.size / file.size) * 100))] *)
Definition compression_ratio (compressed_size file_size : Z) : float :=
  JS.Math_max0
    (JS.Math_round
       (PrimFloat.mul
          (PrimFloat.sub PrimFloat.one
             (PrimFloat.div (JS.number_of_Z compressed_size) (JS.number_of_Z file_size)))
          (JS.number_of_Z 100))).

(** [newName]: [None] when [new RegExp] throws. *)
Definition output_name (file : File) (settings : Settings) (engine : JS.RegExpResult)
  : option string :=
  match outputFormat settings with
  | auto => Some (file_name file)
  | fmt =>
      let originalExt := getFileExtension (file_name file) in
      if (String.length originalExt =? 0)%nat
      then Some (file_name file ++ "." ++ format_string fmt)%string
      else JS.replace (JS.exec_ext_pattern engine originalExt (file_name file))
             (file_name file) ("." ++ format_string fmt)%string
  end.

(** [compressImage]: [None] when the promise it returns rejects, because
    the awaited [imageCompression] rejects or because [new RegExp] throws on
    the extension of the file. The options it passes ([maxSizeMB],
    [maxWidthOrHeight], [initialQuality], [fileType]) bear on the outcome
    only, which is an input here. *)
Definition compressImage (file : File) (settings : Settings) (o : Outcome)
  : option CompressResult :=
  match o with
  | Rejected => None
  | Resolved cf url engine =>
      match output_name file settings engine with
      | None => None
      | Some newName =>
          Some {| r_compressedFile := cf;
                  r_compressedPreview := url;
                  r_compressionRatio := compression_ratio (file_size cf) (file_size file);
                  r_name := newName;
                  r_compressedSize := file_size cf |}
      end
  end.

(** ** Component state *)

(** The closure of one render: [processQueue] is rebuilt by [useCallback]
    with the [images] and the settings of the render that created it. *)
Record Closure : Type := mkClosure {
  cl_images : list CompressedImage;
  cl_settings : Settings
}.

(** A suspended continuation of the component. *)
Inductive Task : Type :=
  | AwaitCompress (nextId : string) (img : CompressedImage) (cl : Closure)
      (* [processQueue], suspended at [await compressImage(img.originalFile, settings)] *)
  | AwaitRecompress (sel : CompressedImage) (settings : Settings)
      (* [recompressSelectedImage], suspended at its [await] *)
  | TimerProcessQueue (cl : Closure)
      (* [setTimeout(processQueue, 0)] *)
  | TimerUploadDone.
      (* [setTimeout(() => setIsCompressing(false), 500)] *)

Inductive Toast : Type :=
  | toast_error (msg : string)
  | toast_success (msg : string).

Record State : Type := mkState {
  images : list CompressedImage;
  selectedImage : option CompressedImage;
  isCompressing : bool;
  isRecompressing : bool;
  queue : list string;
  active : list string;
  completed : nat;
  paused : bool;
  settings : Settings;
  queueRef : list string;
  activeRef : list string;
  pausedRef : bool;
  pending : list Task;
  toasts : list Toast
}.

Definition default_settings : Settings :=
  {| quality := 0x1.999999999999ap-1%float; (* 0.8 *)
     maxWidth := 1920; maxHeight := 1080; outputFormat := webp |}.

Definition init : State :=
  {| images := []; selectedImage := None; isCompressing := false;
     isRecompressing := false; queue := []; active := []; completed := 0;
     paused := false; settings := default_settings;
     queueRef := []; activeRef := []; pausedRef := false;
     pending := []; toasts := [] |}.

(** [setX(prev => f prev)], one definition per state cell. *)
Definition setImages (f : list CompressedImage -> list CompressedImage) (s : State) : State :=
  mkState (f (images s)) (selectedImage s) (isCompressing s) (isRecompressing s)
    (queue s) (active s) (completed s) (paused s) (settings s)
    (queueRef s) (activeRef s) (pausedRef s) (pending s) (toasts s).

Definition setSelectedImage (f : option CompressedImage -> option CompressedImage) (s : State) : State :=
  mkState (images s) (f (selectedImage s)) (isCompressing s) (isRecompressing s)
    (queue s) (active s) (completed s) (paused s) (settings s)
    (queueRef s) (activeRef s) (pausedRef s) (pending s) (toasts s).

Definition setIsCompressing (b : bool) (s : State) : State :=
  mkState (images s) (selectedImage s) b (isRecompressing s)
    (queue s) (active s) (completed s) (paused s) (settings s)
    (queueRef s) (activeRef s) (pausedRef s) (pending s) (toasts s).

Definition setIsRecompressing (b : bool) (s : State) : State :=
  mkState (images s) (selectedImage s) (isCompressing s) b
    (queue s) (active s) (completed s) (paused s) (settings s)
    (queueRef s) (activeRef s) (pausedRef s) (pending s) (toasts s).

Definition setQueue (f : list string -> list string) (s : State) : State :=
  mkState (images s) (selectedImage s) (isCompressing s) (isRecompressing s)
    (f (queue s)) (active s) (completed s) (paused s) (settings s)
    (queueRef s) (activeRef s) (pausedRef s) (pending s) (toasts s).

Definition setActive (f : list string -> list string) (s : State) : State :=
  mkState (images s) (selectedImage s) (isCompressing s) (isRecompressing s)
    (queue s) (f (active s)) (completed s) (paused s) (settings s)
    (queueRef s) (activeRef s) (pausedRef s) (pending s) (toasts s).

Definition setCompleted (f : nat -> nat) (s : State) : State :=
  mkState (images s) (selectedImage s) (isCompressing s) (isRecompressing s)
    (queue s) (active s) (f (completed s)) (paused s) (settings s)
    (queueRef s) (activeRef s) (pausedRef s) (pending s) (toasts s).

Definition setPaused (f : bool -> bool) (s : State) : State :=
  mkState (images s) (selectedImage s) (isCompressing s) (isRecompressing s)
    (queue s) (active s) (completed s) (f (paused s)) (settings s)
    (queueRef s) (activeRef s) (pausedRef s) (pending s) (toasts s).

Definition setSettings (f : Settings -> Settings) (s : State) : State :=
  mkState (images s) (selectedImage s) (isCompressing s) (isRecompressing s)
    (queue s) (active s) (completed s) (paused s) (f (settings s))
    (queueRef s) (activeRef s) (pausedRef s) (pending s) (toasts s).

(** The three mirror effects: [queueRef.current = queue] and so on. *)
Definition sync_refs (s : State) : State :=
  mkState (images s) (selectedImage s) (isCompressing s) (isRecompressing s)
    (queue s) (active s) (completed s) (paused s) (settings s)
    (queue s) (active s) (paused s) (pending s) (toasts s).

Definition setPending (f : list Task -> list Task) (s : State) : State :=
  mkState (images s) (selectedImage s) (isCompressing s) (isRecompressing s)
    (queue s) (active s) (completed s) (paused s) (settings s)
    (queueRef s) (activeRef s) (pausedRef s) (f (pending s)) (toasts s).

Definition toast (t : Toast) (s : State) : State :=
  mkState (images s) (selectedImage s) (isCompressing s) (isRecompressing s)
    (queue s) (active s) (completed s) (paused s) (settings s)
    (queueRef s) (activeRef s) (pausedRef s) (pending s) (toasts s ++ [t]).

Definition closure_of (s : State) : Closure :=
  {| cl_images := images s; cl_settings := settings s |}.

(** [prev.map(img => img.id === i ? f img : img)] *)
Definition update_id (i : string) (f : CompressedImage -> CompressedImage)
  (l : list CompressedImage) : list CompressedImage :=
  map (fun img => if String.eqb (id img) i then f img else img) l.

(** [prev.filter(x => x !== i)] on identifiers *)
Definition remove_id (i : string) (l : list string) : list string :=
  filter (fun x => negb (String.eqb x i)) l.

(** [images.find(im => im.id === i)] *)
Definition find_id (i : string) (l : list CompressedImage) : option CompressedImage :=
  find (fun img => String.eqb (id img) i) l.

(** Batch progress: [totalToProcess] and [batchProgress]. *)
Definition counts_to_process (img : CompressedImage) : bool :=
  negb (Status_eqb (status img) Idle) && negb (Status_eqb (status img) Cancelled).

Definition totalToProcess (s : State) : nat :=
  length (filter counts_to_process (images s)).

Definition batchProgress (s : State) : float :=
  if (0 <? totalToProcess s)%nat
  then JS.Math_round
         (PrimFloat.mul
            (PrimFloat.div (JS.number_of_Z (Z.of_nat (completed s)))
                           (JS.number_of_Z (Z.of_nat (totalToProcess s))))
            (JS.number_of_Z 100))
  else PrimFloat.zero.

(** ** Event handlers *)

Definition is_image_file (file : File) : bool := JS.startsWith "image/" (file_type file).

Definition is_oversized (file : File) : bool :=
  (MAX_UPLOAD_SIZE_MB * 1024 * 1024 <? file_size file)%Z.

(** The record [handleFiles] builds for one file; [draw] is what
    [Math.random().toString(36).substring(7)] and [URL.createObjectURL(file)]
    returned for it. *)
Definition new_image (draw : string * string) (file : File) : CompressedImage :=
  {| id := fst draw; name := file_name file; originalSize := file_size file;
     compressedSize := 0; originalFile := file; compressedFile := None;
     compressionRatio := PrimFloat.zero; preview := snd draw;
     compressedPreview := ""; status := Queued |}.

Fixpoint new_images (rnd : nat -> string * string) (i : nat) (files : list File)
  : list CompressedImage :=
  match files with
  | [] => []
  | file :: rest => new_image (rnd i) file :: new_images rnd (S i) rest
  end.

Definition handleFiles (rnd : nat -> string * string) (files : option (list File))
  (s : State) : State :=
  match files with
  | None => s
  | Some fl =>
      let imageFiles := filter is_image_file fl in
      if (length imageFiles =? 0)%nat
      then toast (toast_error "Please select valid image files") s
      else
        let oversizedFiles := filter is_oversized imageFiles in
        if (0 <? length oversizedFiles)%nat
        then toast (toast_error "Some files exceed the 5MB size limit.") s
        else
          let newImages := new_images rnd 0 imageFiles in
          setPending (fun p => p ++ [TimerUploadDone])
            (setQueue (fun prev => prev ++ map id newImages)
               (setImages (fun prev => prev ++ newImages)
                  (setIsCompressing true s)))
  end.

Definition togglePause (s : State) : State := setPaused negb s.

Definition cancelQueued (i : string) (s : State) : State :=
  setImages (update_id i (with_status Cancelled))
    (setQueue (remove_id i) s).

(** The fields a settled compression writes over [image]. *)
Definition apply_result (r : CompressResult) (image : CompressedImage) : CompressedImage :=
  {| id := id image; name := r_name r; originalSize := originalSize image;
     compressedSize := r_compressedSize r; originalFile := originalFile image;
     compressedFile := Some (r_compressedFile r);
     compressionRatio := r_compressionRatio r;
     preview := preview image; compressedPreview := r_compressedPreview r;
     status := Compressed |}.

(** [processQueue], up to its [await] (or to its early [return], whose
    [finally] block then runs at once). *)
Definition processQueue (cl : Closure) (s : State) : State :=
  if pausedRef s then s
  else if (MAX_CONCURRENT <=? length (activeRef s))%nat then s
  else
    match queueRef s with
    | [] => s
    | nextId :: _ =>
        let s1 :=
          setImages (update_id nextId (with_status Compressing))
            (setQueue (skipn 1)
               (setActive (fun prev => prev ++ [nextId]) s)) in
        match find_id nextId (cl_images cl) with
        | None =>
            setPending (fun p => p ++ [TimerProcessQueue cl])
              (setActive (remove_id nextId) s1)
        | Some img => setPending (fun p => p ++ [AwaitCompress nextId img cl]) s1
        end
    end.

(** [processQueue] from its [await] on: the [try] body or the [catch], then
    the [finally] block. *)
Definition processQueue_settle (nextId : string) (img : CompressedImage) (cl : Closure)
  (o : Outcome) (s : State) : State :=
  let s1 :=
    match compressImage (originalFile img) (cl_settings cl) o with
    | Some r => setCompleted S (setImages (update_id nextId (apply_result r)) s)
    | None => setImages (update_id nextId (with_status Error)) s
    end in
  setPending (fun p => p ++ [TimerProcessQueue cl])
    (setActive (remove_id nextId) s1).

(** [recompressSelectedImage], up to its [await]. *)
Definition recompressSelectedImage (s : State) : State :=
  match selectedImage s with
  | None => s
  | Some sel =>
      setPending (fun p => p ++ [AwaitRecompress sel (settings s)])
        (setImages (update_id (id sel) (with_status Compressing))
           (setIsRecompressing true s))
  end.

(** [recompressSelectedImage] from its [await] on. *)
Definition recompress_settle (sel : CompressedImage) (st : Settings) (o : Outcome)
  (s : State) : State :=
  let s1 :=
    match compressImage (originalFile sel) st o with
    | Some r =>
        let updatedImage := apply_result r sel in
        toast (toast_success "Image re-compressed!")
          (setSelectedImage (fun _ => Some updatedImage)
             (setImages (update_id (id sel) (fun _ => updatedImage)) s))
    | None =>
        toast (toast_error "Failed to re-compress image")
          (setSelectedImage (option_map (with_status Error))
             (setImages (update_id (id sel) (with_status Error)) s))
    end in
  setIsRecompressing false s1.

Definition removeImage (i : string) (s : State) : State :=
  let keep := filter (fun img : CompressedImage => negb (String.eqb (id img) i)) in
  let remainingImages := keep (images s) in
  let s1 := setImages keep s in
  let s2 :=
    match selectedImage s with
    | Some sel =>
        if String.eqb (id sel) i
        then setSelectedImage (fun _ => hd_error remainingImages) s1
        else s1
    | None => s1
    end in
  setQueue (remove_id i) s2.

Definition clearAll (s : State) : State :=
  setSelectedImage (fun _ => None)
    (setCompleted (fun _ => 0)
       (setActive (fun _ => [])
          (setQueue (fun _ => [])
             (setImages (fun _ => []) s)))).

Definition setWebOptimized (s : State) : State :=
  toast (toast_success "Web Optimized preset applied!")
    (setSettings (fun _ => default_settings) s).

(** ** Effects and renders *)

(** The selection effect: select the first image when none is selected,
    drop the selection when the list is empty. *)
Definition selection_effect (s : State) : State :=
  let s1 :=
    match images s, selectedImage s with
    | first :: _, None => setSelectedImage (fun _ => Some first) s
    | _, _ => s
    end in
  match images s with
  | [] => setSelectedImage (fun _ => None) s1
  | _ :: _ => s1
  end.

(** The condition of the admission effect, on the state of the render. *)
Definition admission_cond (s : State) : bool :=
  negb (paused s) && (0 <? length (queue s))%nat && (length (active s) <? MAX_CONCURRENT)%nat.

Definition admission_effect (s : State) : State -> State :=
  if admission_cond s then processQueue (closure_of s) else fun s' => s'.

(** One render pass and its effects, in the order the component declares
    them: the three mirrors, the selection, the admission. *)
Definition render (s : State) : State :=
  admission_effect s (selection_effect (sync_refs s)).

Fixpoint renders (n : nat) (s : State) : State :=
  match n with
  | O => s
  | S n' => renders n' (render s)
  end.

(** Renders until nothing is left to admit: every admitting pass shortens
    the queue, so [length (queue s) + 1] passes are enough. *)
Definition commit (s : State) : State := renders (S (length (queue s))) s.

Definition list_string_eqb (a b : list string) : bool :=
  if list_eq_dec string_dec a b then true else false.

Definition refs_synced (s : State) : Prop :=
  queueRef s = queue s /\ activeRef s = active s /\ pausedRef s = paused s.

Definition refs_syncedb (s : State) : bool :=
  list_string_eqb (queueRef s) (queue s)
  && list_string_eqb (activeRef s) (active s)
  && Bool.eqb (pausedRef s) (paused s).

Definition selection_stableb (s : State) : bool :=
  match images s, selectedImage s with
  | [], None => true
  | _ :: _, Some _ => true
  | _, _ => false
  end.

(** Nothing is left for a render to do. *)
Definition quiescentb (s : State) : bool :=
  refs_syncedb s && selection_stableb s && negb (admission_cond s).

(** ** Events *)

Inductive Event : Type :=
  | EvFiles (files : option (list File)) (rnd : nat -> string * string)
  | EvTogglePause
  | EvCancel (i : string)
  | EvSelect (k : nat)
  | EvRecompress
  | EvRemove (i : string)
  | EvClearAll
  | EvSetQuality (q : float)
  | EvSetMaxWidth (w : Z)
  | EvSetMaxHeight (h : Z)
  | EvSetOutputFormat (f : OutputFormat)
  | EvWebOptimized
  | EvSettle (k : nat) (o : Outcome).

Definition has_images (s : State) : bool := (0 <? length (images s))%nat.

Definition removable (st : Status) : bool :=
  match st with Compressed | Error | Cancelled => true | _ => false end.

Definition settings_enabled (s : State) : bool :=
  has_images s
  && match selectedImage s with Some _ => true | None => false end
  && negb (isCompressing s || isRecompressing s).

(** What the rendered page lets the user do: a control that is not rendered,
    or is disabled, dispatches nothing. *)
Definition enabledb (ev : Event) (s : State) : bool :=
  match ev with
  | EvFiles _ _ => negb (isCompressing s) || negb (has_images s)
  | EvTogglePause => has_images s
  | EvCancel i =>
      existsb (fun img => String.eqb (id img) i && Status_eqb (status img) Queued) (images s)
  | EvSelect k => match nth_error (images s) k with Some _ => true | None => false end
  | EvRecompress =>
      has_images s
      && match selectedImage s with Some _ => true | None => false end
      && negb (isRecompressing s || isCompressing s)
  | EvRemove i =>
      existsb (fun img => String.eqb (id img) i && removable (status img)) (images s)
  | EvClearAll => has_images s
  | EvSetQuality _ | EvSetMaxWidth _ | EvSetMaxHeight _ | EvSetOutputFormat _ =>
      settings_enabled s
  | EvWebOptimized => true
  | EvSettle k _ => (k <? length (pending s))%nat
  end.

Fixpoint remove_nth {A : Type} (k : nat) (l : list A) : list A :=
  match k, l with
  | _, [] => []
  | O, _ :: l' => l'
  | S k', x :: l' => x :: remove_nth k' l'
  end.

(** A suspended continuation resumes. *)
Definition resume (t : Task) (o : Outcome) (s : State) : State :=
  match t with
  | AwaitCompress nextId img cl => processQueue_settle nextId img cl o s
  | AwaitRecompress sel st => recompress_settle sel st o s
  | TimerProcessQueue cl => processQueue cl s
  | TimerUploadDone => setIsCompressing false s
  end.

Definition handle (ev : Event) (s : State) : State :=
  match ev with
  | EvFiles files rnd => handleFiles rnd files s
  | EvTogglePause => togglePause s
  | EvCancel i => cancelQueued i s
  | EvSelect k => setSelectedImage (fun _ => nth_error (images s) k) s
  | EvRecompress => recompressSelectedImage s
  | EvRemove i => removeImage i s
  | EvClearAll => clearAll s
  | EvSetQuality q =>
      setSettings (fun st => mkSettings q (maxWidth st) (maxHeight st) (outputFormat st)) s
  | EvSetMaxWidth w =>
      setSettings (fun st => mkSettings (quality st) w (maxHeight st) (outputFormat st)) s
  | EvSetMaxHeight h =>
      setSettings (fun st => mkSettings (quality st) (maxWidth st) h (outputFormat st)) s
  | EvSetOutputFormat f =>
      setSettings (fun st => mkSettings (quality st) (maxWidth st) (maxHeight st) f) s
  | EvWebOptimized => setWebOptimized s
  | EvSettle k o =>
      match nth_error (pending s) k with
      | Some t => resume t o (setPending (remove_nth k) s)
      | None => s
      end
  end.

(** One event, taken by an enabled control or by a continuation that is
    due. *)
Definition dispatch (ev : Event) (s : State) : option State :=
  if enabledb ev s then Some (handle ev s) else None.

(** The states the component can be in: after any number of events and
    render passes, in any order. *)
Inductive Reachable : State -> Prop :=
  | R_init : Reachable init
  | R_render (s : State) : Reachable s -> Reachable (render s)
  | R_event (s s' : State) (ev : Event) :
      Reachable s -> dispatch ev s = Some s' -> Reachable s'.

(** The states of the runs in which every callback waits until React has
    nothing left to do, so that it finds the mirrors fresh. *)
Inductive Committed : State -> Prop :=
  | C_init : Committed init
  | C_render (s : State) : Committed s -> Committed (render s)
  | C_event (s : State) (ev : Event) :
      Committed s -> quiescentb s = true -> enabledb ev s = true ->
      Committed (handle ev s).

(** A run in which React commits between any two callbacks: each event is
    followed by the renders that settle it. *)
Fixpoint run (evs : list Event) (s : State) : option State :=
  match evs with
  | [] => Some s
  | ev :: rest =>
      match dispatch ev s with
      | Some s' => run rest (commit s')
      | None => None
      end
  end.

(** A schedule: callbacks and render passes in the order the browser runs
    them. *)
Inductive Step : Type :=
  | Fire (ev : Event)
  | Pass.

Fixpoint exec (steps : list Step) (s : State) : option State :=
  match steps with
  | [] => Some s
  | Fire ev :: rest =>
      match dispatch ev s with
      | Some s' => exec rest s'
      | None => None
      end
  | Pass :: rest => exec rest (render s)
  end.

(** ** Notions used in the statements *)

(** What a single render pass does to the scheduler's cells. *)
Record Admits (s s' : State) (a : string) : Prop := {
  adm_cond : admission_cond s = true;
  adm_capacity : length (active s) < MAX_CONCURRENT;
  adm_running : paused s = false;
  adm_head : queue s = a :: queue s';
  adm_images : images s' = update_id a (with_status Compressing) (images s);
  adm_completed : completed s' = completed s;
  adm_paused : paused s' = paused s;
  adm_active :
    match find_id a (images s) with
    | Some img =>
        active s' = active s ++ [a] /\
        pending s' = pending s ++ [AwaitCompress a img (closure_of s)]
    | None =>
        active s' = remove_id a (active s ++ [a]) /\
        pending s' = pending s ++ [TimerProcessQueue (closure_of s)]
    end
}.

(** What a call of [processQueue] that passes its three guards does. The
    job it starts is the head of the mirror [queueRef]; what it takes off is
    the head of the pending list. *)
Record Starts (cl : Closure) (s s' : State) (a : string) : Prop := {
  st_head : hd_error (queueRef s) = Some a;
  st_running : pausedRef s = false;
  st_capacity : length (activeRef s) < MAX_CONCURRENT;
  st_queue : queue s' = skipn 1 (queue s);
  st_images : images s' = update_id a (with_status Compressing) (images s);
  st_completed : completed s' = completed s;
  st_paused : paused s' = paused s;
  st_selected : selectedImage s' = selectedImage s;
  st_flags : isCompressing s' = isCompressing s /\ isRecompressing s' = isRecompressing s;
  st_refs : queueRef s' = queueRef s /\ activeRef s' = activeRef s /\
            pausedRef s' = pausedRef s;
  st_active :
    match find_id a (cl_images cl) with
    | Some img =>
        active s' = active s ++ [a] /\
        pending s' = pending s ++ [AwaitCompress a img cl]
    | None =>
        active s' = remove_id a (active s ++ [a]) /\
        pending s' = pending s ++ [TimerProcessQueue cl]
    end
}.

(** The identifiers in the pending list are identifiers of job records. *)
Definition queue_known (s : State) : Prop := incl (queue s) (map id (images s)).

(** Whether [handleFiles] takes the batch: some file is an image, and no
    image file is larger than 5 MiB. *)
Definition batch_accepted (fl : list File) : bool :=
  match filter is_image_file fl with
  | [] => false
  | imageFiles => forallb (fun f => negb (is_oversized f)) imageFiles
  end.

(** The jobs shown as Compressing, and the compressions in flight. *)
Definition compressing_count (s : State) : nat :=
  length (filter (fun img => Status_eqb (status img) Compressing) (images s)).

Definition is_compression (t : Task) : bool :=
  match t with
  | AwaitCompress _ _ _ | AwaitRecompress _ _ => true
  | _ => false
  end.

Definition in_flight (s : State) : nat := length (filter is_compression (pending s)).

(** A Compressed record carries its result: the compressed file and its
    size. *)
Definition result_if_compressed (img : CompressedImage) : Prop :=
  status img = Compressed ->
  exists cf, compressedFile img = Some cf /\ compressedSize img = file_size cf.

Definition settled (img : CompressedImage) : bool :=
  Status_eqb (status img) Compressed || Status_eqb (status img) Error.

Definition is_clearAll (ev : Event) : bool :=
  match ev with EvClearAll => true | _ => false end.

(** Whether [await compressImage(...)] yields a result. *)
Definition succeeds (file : File) (st : Settings) (o : Outcome) : bool :=
  match compressImage file st o with Some _ => true | None => false end.

(** The event settles a compression that [processQueue] started, with a
    result. *)
Definition is_queue_success (ev : Event) (s : State) : bool :=
  match ev with
  | EvSettle k o =>
      match nth_error (pending s) k with
      | Some (AwaitCompress _ img cl) => succeeds (originalFile img) (cl_settings cl) o
      | _ => false
      end
  | _ => false
  end.

(** What an event does to [completed]: only a compression started by
    [processQueue] that settles with a result adds one, and [clearAll]
    resets it. *)
Definition completed_after (ev : Event) (s : State) : nat :=
  if is_clearAll ev then 0
  else if is_queue_success ev s then S (completed s)
  else completed s.

Definition is_clearAll_step (st : Step) : bool :=
  match st with Fire ev => is_clearAll ev | Pass => false end.

(** The number of compressions started by [processQueue] that settle with
    a result along a schedule. *)
Fixpoint queue_successes (steps : list Step) (s : State) : nat :=
  match steps with
  | [] => 0
  | Fire ev :: rest =>
      match dispatch ev s with
      | Some s' => (if is_queue_success ev s then 1 else 0) + queue_successes rest s'
      | None => 0
      end
  | Pass :: rest => queue_successes rest (render s)
  end.

(** The status shown for identifier [i]: that of the first record with it. *)
Definition status_of (i : string) (s : State) : option Status :=
  option_map status (find_id i (images s)).

(** How one event can change the status shown for [j]. *)
Inductive StatusChange (ev : Event) (j : string) : option Status -> option Status -> Prop :=
  | SC_gone o : StatusChange ev j o None
  | SC_same o : StatusChange ev j o o
  | SC_new : (exists f r, ev = EvFiles f r) -> StatusChange ev j None (Some Queued)
  | SC_cancel st : ev = EvCancel j -> StatusChange ev j (Some st) (Some Cancelled)
  | SC_rerun st : ev = EvRecompress -> StatusChange ev j (Some st) (Some Compressing)
  | SC_settle st st' :
      (exists k o, ev = EvSettle k o) -> st' = Compressed \/ st' = Error ->
      StatusChange ev j (Some st) (Some st')
  | SC_start st :
      (exists k o, ev = EvSettle k o) ->
      StatusChange ev j (Some st) (Some Compressing).

(** The status a compression settles in. *)
Definition settled_status (file : File) (st : Settings) (o : Outcome) : Status :=
  if succeeds file st o then Compressed else Error.



(** The compression ratio as the specification writes it, on exact numbers:
    max(0, round((1 - outputSize/inputSize) * 100)), where round gives the
    closest integer and the upper one at a tie, that is
    floor((1 - outputSize/inputSize) * 100 + 1/2)
    = floor((200 * (inputSize - outputSize) + inputSize) / (2 * inputSize)). *)
Definition spec_ratio (outputSize inputSize : Z) : Z :=
  Z.max 0 ((200 * (inputSize - outputSize) + inputSize) / (2 * inputSize)).

(** (1 - outputSize/inputSize) * 100 lies half-way between two integers. *)
Definition is_tie (outputSize inputSize : Z) : bool :=
  ((200 * (inputSize - outputSize) + inputSize) mod (2 * inputSize) =? 0)%Z.

(** The double [x] is the integer [spec_ratio] gives or, at a tie, the one
    below it. *)
Definition ratio_as_specified (x : float) (outputSize inputSize : Z) : Prop :=
  exists n : Z,
    x = JS.number_of_Z n /\
    (n = spec_ratio outputSize inputSize \/
     (is_tie outputSize inputSize = true /\ n = (spec_ratio outputSize inputSize - 1)%Z)).

(** Notions for the arithmetic of doubles. [bpow e] is 2^e. *)
Definition bpow (e : Z) : R := powerRZ 2 e.

(** A positive double with a mantissa of 53 bits whose exponent is far from
    the least and the greatest one. *)
Definition normal (m : positive) (e : Z) : Prop :=
  (2 ^ 52 <= Zpos m < 2 ^ 53 /\ -400 <= e <= 400)%Z.

(** The round and sticky bits of [mrs] tell where [num / den] lies in
    [0, 1): at 0, below 1/2, at 1/2 or above. *)
Definition classifies (mrs : shr_record) (num den : Z) : Prop :=
  (0 <= num < den)%Z /\
  match shr_r mrs, shr_s mrs with
  | false, false => num = 0%Z
  | false, true => (0 < 2 * num < den)%Z
  | true, false => (2 * num = den)%Z
  | true, true => (den < 2 * num)%Z
  end.

Fixpoint iter_nat {A} (f : A -> A) (n : nat) (x : A) : A :=
  match n with O => x | S k => f (iter_nat f k x) end.
(** ** A sample session *)

Module Sample.

Definition png (n : string) (size : Z) : File :=
  {| file_name := n ++ ".png"; file_type := "image/png"; file_size := size |}.

Definition pdf (n : string) (size : Z) : File :=
  {| file_name := n ++ ".pdf"; file_type := "application/pdf"; file_size := size |}.

(** What [Math.random] and [URL.createObjectURL] return, file by file. *)
Definition draws (i : nat) : string * string :=
  match i with
  | 0 => ("a", "blob:a") | 1 => ("b", "blob:b") | 2 => ("c", "blob:c")
  | 3 => ("d", "blob:d") | _ => ("e", "blob:e")
  end.

Definition draws_from (k i : nat) : string * string := draws (k + i).

Definition four : list File := [png "1" 1000; png "2" 2000; png "3" 3000; png "4" 4000].

Definition five : list File := four ++ [png "5" 5000].

(** An image whose extension is no pattern of a regular expression: for
    [\.c++$] the constructor throws (nothing to repeat). *)
Definition cpp : File :=
  {| file_name := "a.c++"; file_type := "image/png"; file_size := 2000 |}.

(** The result of a compression: 250,000 bytes. *)
Definition done : Outcome :=
  Resolved {| file_name := "1.webp"; file_type := "image/webp"; file_size := 250000 |}
           "blob:z" JS.NoMatch.

(** The same compressed file for [cpp]: building the pattern throws. *)
Definition thrown : Outcome :=
  Resolved {| file_name := "a.c++"; file_type := "image/webp"; file_size := 250000 |}
           "blob:y" JS.SyntaxError.

Definition state_after (evs : list Event) : State :=
  match run evs init with Some s => s | None => init end.

(** One job is running, the queue is paused, two more files are submitted
    and the second job is selected. *)
Definition paused_trace : list Event :=
  [EvFiles (Some [png "1" 1000]) draws; EvSettle 0 Rejected; EvTogglePause;
   EvFiles (Some [png "2" 2000; png "3" 3000]) (draws_from 1); EvSettle 1 Rejected;
   EvSelect 1].

Definition paused_state : State := state_after paused_trace.

(** One file was submitted and its compression has resolved. *)
Definition compressed_state : State :=
  state_after [EvFiles (Some [png "1" 1000]) draws; EvSettle 1 done].

Definition first_job (s : State) : CompressedImage :=
  hd (new_image ("", "") (png "" 0)) (images s).

(** Five files were submitted: three jobs run, two are pending. *)
Definition busy_state : State := state_after [EvFiles (Some five) draws].

(** Five files were dropped and no render has run yet. *)
Definition uploaded : State := handle (EvFiles (Some five) draws) init.

Definition state_at (steps : list Step) : State :=
  match exec steps init with Some s => s | None => init end.

(** Five files are submitted and three jobs are admitted; the compression
    of the first resolves, and the render that follows admits the fourth job.
    The state of [stale] is the one before React renders again: the fourth
    job is in the active set and not yet in the mirror. In [race] the
    zero-delay timer of the settled call runs at that point. *)
Definition stale : list Step :=
  [Fire (EvFiles (Some five) draws); Pass; Pass; Pass; Pass;
   Fire (EvSettle 1 done); Pass].

Definition race : list Step := stale ++ [Fire (EvSettle 3 Rejected)].

Definition draw_f (i : nat) : string * string := ("f", "blob:f").

(** After [race] a sixth file is submitted, and two of the running
    compressions resolve. *)
Definition overtaken : list Step :=
  race ++ [Pass; Fire (EvSettle 0 Rejected);
           Fire (EvFiles (Some [png "6" 6000]) draw_f); Pass;
           Fire (EvSettle 0 done); Pass; Fire (EvSettle 1 done); Pass].

End Sample.

(** ** Further functions of the component *)

(** [downloadImage]: nothing when the record has no compressed file;
    otherwise the file is saved under the name of the record. A download is
    the pair of the file and the name given to the anchor. *)
Definition downloadImage (image : CompressedImage) : list (File * string) :=
  match compressedFile image with
  | None => []
  | Some f => [(f, name image)]
  end.

Definition is_compressed (img : CompressedImage) : bool :=
  Status_eqb (status img) Compressed.

(** [downloadAll]: [images.filter(img => img.status === 'compressed')],
    then [downloadImage] on each. *)
Definition downloadAll (s : State) : list (File * string) :=
  flat_map downloadImage (filter is_compressed (images s)).

Module Text.

(** [c.toUpperCase()] for a character of the ASCII range. *)
Definition upper_char (c : ascii) : ascii :=
  let n := nat_of_ascii c in
  if (97 <=? n)%nat && (n <=? 122)%nat then ascii_of_nat (n - 32) else c.

Fixpoint toUpperCase (s : string) : string :=
  match s with
  | EmptyString => EmptyString
  | String c r => String (upper_char c) (toUpperCase r)
  end.

(** [s.split(sep)] for a one-character separator: the empty string splits
    into one empty piece. *)
Fixpoint split (sep : ascii) (s : string) : list string :=
  match s with
  | EmptyString => [EmptyString]
  | String c r =>
      if Ascii.eqb c sep then EmptyString :: split sep r
      else match split sep r with
           | h :: t => String c h :: t
           | [] => [String c EmptyString]
           end
  end.

(** [n[0]], as [join] prints it: [undefined] (for an empty piece) is joined
    as the empty string. *)
Definition first_unit (n : string) : string :=
  match n with
  | EmptyString => EmptyString
  | String c _ => String c EmptyString
  end.

(** [s.includes(c)] *)
Fixpoint includes (c : ascii) (s : string) : bool :=
  match s with
  | EmptyString => false
  | String a r => Ascii.eqb a c || includes c r
  end.

(** Letters and digits: characters that stand for themselves in a regular
    expression. *)
Definition is_alnum (c : ascii) : bool :=
  let n := nat_of_ascii c in
  ((48 <=? n) && (n <=? 57) || (65 <=? n) && (n <=? 90) || (97 <=? n) && (n <=? 122))%nat.

Fixpoint all_alnum (s : string) : bool :=
  match s with
  | EmptyString => true
  | String c r => is_alnum c && all_alnum r
  end.

(** Characters below 128. *)
Fixpoint all_ascii7 (s : string) : bool :=
  match s with
  | EmptyString => true
  | String c r => (nat_of_ascii c <? 128)%nat && all_ascii7 r
  end.

Fixpoint no_lowercase (s : string) : bool :=
  match s with
  | EmptyString => true
  | String c r =>
      negb ((97 <=? nat_of_ascii c)%nat && (nat_of_ascii c <=? 122)%nat) && no_lowercase r
  end.

Fixpoint all_spaces (s : string) : bool :=
  match s with
  | EmptyString => true
  | String c r => Ascii.eqb c " "%char && all_spaces r
  end.

End Text.

(** [getUserInitials]: a display name that is absent or empty is falsy. *)
Definition getUserInitials (email : string) (displayName : option string) : string :=
  let from_email := Text.toUpperCase (String.substring 0 1 email) in
  match displayName with
  | None => from_email
  | Some d =>
      if (String.length d =? 0)%nat then from_email
      else
        String.substring 0 2
          (Text.toUpperCase
             (String.concat "" (map Text.first_unit (Text.split " "%char d))))
  end.

(** ** The wrapper that mounts the component *)

Module AppWrapper.

Record User : Type := mkUser {
  user_id : string;
  email : string;
  displayName : option string;
  avatarUrl : option string
}.

Record AuthState : Type := mkAuth {
  user : option User;
  isLoading : bool;
  isAuthenticated : bool;
  isInitialized : bool
}.

(** What the SDK hands to the listener of [onAuthStateChanged]. *)
Record SdkState : Type := mkSdk {
  sdk_user : option User;
  sdk_isLoading : bool;
  sdk_isAuthenticated : bool
}.

(** The wrapper: its state cell and the two locals of the effect, [mounted]
    and the 8-second timer (pending until it fires or is cleared). *)
Record Wrapper : Type := mkWrapper {
  authState : AuthState;
  mounted : bool;
  timerPending : bool
}.

Definition initial_auth : AuthState :=
  {| user := None; isLoading := true; isAuthenticated := false; isInitialized := false |}.

Definition unauthenticated : AuthState :=
  {| user := None; isLoading := false; isAuthenticated := false; isInitialized := true |}.

(** The first render: the state cell holds its initial value, and the
    effect has not run yet, so there is neither a listener nor a timer. *)
Definition created : Wrapper :=
  {| authState := initial_auth; mounted := false; timerPending := false |}.

(** The effect runs [initializeAuth] after the first render: the timer is
    set and the listener is registered; when [onAuthStateChanged] throws, the
    [catch] block sets the unauthenticated state. *)
Definition effect (threw : bool) (w : Wrapper) : Wrapper :=
  {| authState := if threw then unauthenticated else authState w;
     mounted := true; timerPending := true |}.

(** The wrapper once its effect has run. *)
Definition mount (threw : bool) : Wrapper := effect threw created.

Inductive Ev : Type :=
  | AuthChanged (st : SdkState)
  | Timeout
  | Unmount.

Definition step (ev : Ev) (w : Wrapper) : Wrapper :=
  match ev with
  | AuthChanged st =>
      if negb (mounted w) then w
      else {| authState := {| user := sdk_user st; isLoading := sdk_isLoading st;
                              isAuthenticated := sdk_isAuthenticated st;
                              isInitialized := true |};
              mounted := mounted w; timerPending := false |}
  | Timeout =>
      if timerPending w
      then {| authState :=
                (* [authState] is that of the render the effect closed over *)
                if mounted w && negb (isInitialized initial_auth)
                then unauthenticated else authState w;
              mounted := mounted w; timerPending := false |}
      else w
  | Unmount =>
      {| authState := authState w; mounted := false; timerPending := false |}
  end.

Fixpoint steps (evs : list Ev) (w : Wrapper) : Wrapper :=
  match evs with
  | [] => w
  | ev :: rest => steps rest (step ev w)
  end.

Inductive View : Type :=
  | Loading
  | Landing
  | App (u : option User).

Definition view (a : AuthState) : View :=
  if isLoading a && negb (isInitialized a) then Loading
  else if negb (isAuthenticated a) then Landing
  else App (user a).

(** What holds of the wrapper after any events: it is initialised unless
    nothing has happened yet, and while the timer is pending nobody is
    signed in. *)
Definition wrapper_inv (w : Wrapper) : Prop :=
  (authState w = initial_auth \/ isInitialized (authState w) = true)
  /\ (timerPending w = true ->
      isAuthenticated (authState w) = false /\ user (authState w) = None).

End AppWrapper.

(** ** Notions used in the further statements *)

Definition is_rerun (t : Task) : bool :=
  match t with AwaitRecompress _ _ => true | _ => false end.

Definition is_upload_timer (t : Task) : bool :=
  match t with TimerUploadDone => true | _ => false end.

(** A compression started by [processQueue] for [i] is in flight. *)
Definition compressing_for (i : string) (t : Task) : bool :=
  match t with AwaitCompress nextId _ _ => String.eqb nextId i | _ => false end.

(** Every active job has a compression in flight. *)
Definition active_in_flight (s : State) : Prop :=
  forall i, In i (active s) -> existsb (compressing_for i) (pending s) = true.

(** The busy flags and the active set are backed by continuations: every
    active job has a compression in flight, [isRecompressing] counts the
    re-runs in flight, and [isCompressing] has a timer that will clear it. *)
Definition flight_inv (s : State) : Prop :=
  active_in_flight s
  /\ length (filter is_rerun (pending s)) = (if isRecompressing s then 1 else 0)
  /\ (isCompressing s = true -> existsb is_upload_timer (pending s) = true).

(** ** Basic facts about the list helpers *)

Lemma Status_eqb_eq (a b : Status) : Status_eqb a b = true <-> a = b.
Proof. destruct a, b; simpl; split; intro H; try reflexivity; discriminate H. Qed.

Example ratio_75 : compression_ratio 250000 1000000 = 75%float.
Proof. vm_compute. reflexivity. Qed.

Lemma remove_id_length (i : string) (l : list string) :
  length (remove_id i l) <= length l.
Proof.
  induction l as [|x l IH]; simpl; [lia|].
  destruct (negb (String.eqb x i)); simpl; lia.
Qed.

Lemma remove_id_not_In (i : string) (l : list string) : ~ In i (remove_id i l).
Proof.
  unfold remove_id. intro H. apply filter_In in H. destruct H as [_ H].
  rewrite String.eqb_refl in H. discriminate H.
Qed.

Lemma remove_id_In (i j : string) (l : list string) :
  In j (remove_id i l) -> In j l.
Proof. unfold remove_id. intro H. apply filter_In in H. tauto. Qed.

Lemma update_id_length (i : string) f (l : list CompressedImage) :
  length (update_id i f l) = length l.
Proof. unfold update_id. apply length_map. Qed.

(** An update that keeps identifiers keeps the list of identifiers. *)
Lemma update_id_ids (i : string) f (l : list CompressedImage) :
  (forall img, id img = i -> id (f img) = id img) ->
  map id (update_id i f l) = map id l.
Proof.
  intro Hf. unfold update_id. rewrite map_map. apply map_ext.
  intro img. destruct (String.eqb (id img) i) eqn:E; [|reflexivity].
  apply Hf. apply String.eqb_eq. exact E.
Qed.

Lemma find_id_Some (i : string) (l : list CompressedImage) (img : CompressedImage) :
  find_id i l = Some img -> In img l /\ id img = i.
Proof.
  unfold find_id. intro H. apply find_some in H. destruct H as [H1 H2].
  split; [exact H1 | apply String.eqb_eq; exact H2].
Qed.

Lemma find_id_In (i : string) (l : list CompressedImage) :
  In i (map id l) -> exists img, find_id i l = Some img.
Proof.
  unfold find_id. induction l as [|x l IH]; simpl; [tauto|].
  intros [H | H].
  - rewrite H, String.eqb_refl. eauto.
  - destruct (String.eqb (id x) i); eauto.
Qed.

(** [find_id] after an update: the first match, updated. *)
Lemma find_id_update_same (i : string) f (l : list CompressedImage) :
  (forall img, id img = i -> id (f img) = id img) ->
  find_id i (update_id i f l) = option_map f (find_id i l).
Proof.
  intro Hf. unfold find_id, update_id.
  induction l as [|x l IH]; simpl; [reflexivity|].
  destruct (String.eqb (id x) i) eqn:E; simpl.
  - rewrite Hf by (apply String.eqb_eq; exact E). rewrite E. reflexivity.
  - rewrite E. exact IH.
Qed.

Lemma find_id_update_other (i j : string) f (l : list CompressedImage) :
  (forall img, id img = i -> id (f img) = id img) -> i <> j ->
  find_id j (update_id i f l) = find_id j l.
Proof.
  intros Hf Hij. unfold find_id, update_id.
  induction l as [|x l IH]; simpl; [reflexivity|].
  destruct (String.eqb (id x) i) eqn:E; simpl.
  - apply String.eqb_eq in E. rewrite Hf by exact E.
    assert (En : String.eqb (id x) j = false)
      by (apply String.eqb_neq; congruence).
    rewrite En. exact IH.
  - destruct (String.eqb (id x) j); [reflexivity | exact IH].
Qed.

(** ** One render pass *)

Ltac sel_fields :=
  match goal with
  | s : State |- _ =>
      destruct s as [imgs sel ? ? ? ? ? ? ? ? ? ? ? ?];
      unfold selection_effect; simpl; destruct imgs, sel; reflexivity
  end.

Lemma selection_effect_images s : images (selection_effect s) = images s.
Proof. sel_fields. Qed.

Lemma selection_effect_queue s : queue (selection_effect s) = queue s.
Proof. sel_fields. Qed.

Lemma selection_effect_active s : active (selection_effect s) = active s.
Proof. sel_fields. Qed.

Lemma selection_effect_completed s : completed (selection_effect s) = completed s.
Proof. sel_fields. Qed.

Lemma selection_effect_paused s : paused (selection_effect s) = paused s.
Proof. sel_fields. Qed.

Lemma selection_effect_pending s : pending (selection_effect s) = pending s.
Proof. sel_fields. Qed.

Lemma selection_effect_queueRef s : queueRef (selection_effect s) = queueRef s.
Proof. sel_fields. Qed.

Lemma selection_effect_activeRef s : activeRef (selection_effect s) = activeRef s.
Proof. sel_fields. Qed.

Lemma selection_effect_pausedRef s : pausedRef (selection_effect s) = pausedRef s.
Proof. sel_fields. Qed.

Lemma admission_cond_true s :
  admission_cond s = true ->
  paused s = false /\ length (active s) < MAX_CONCURRENT /\
  exists a q, queue s = a :: q.
Proof.
  unfold admission_cond. intro H.
  apply andb_prop in H. destruct H as [H H3].
  apply andb_prop in H. destruct H as [H1 H2].
  apply negb_true_iff in H1. apply Nat.ltb_lt in H2, H3.
  repeat split; try assumption.
  destruct (queue s) as [|a q]; [simpl in H2; lia | eauto].
Qed.

(** [processQueue] past its three guards. *)
Lemma processQueue_admit cl s a q :
  pausedRef s = false ->
  length (activeRef s) < MAX_CONCURRENT ->
  queueRef s = a :: q ->
  processQueue cl s =
    let s1 :=
      setImages (update_id a (with_status Compressing))
        (setQueue (skipn 1) (setActive (fun prev => prev ++ [a]) s)) in
    match find_id a (cl_images cl) with
    | None =>
        setPending (fun p => p ++ [TimerProcessQueue cl])
          (setActive (remove_id a) s1)
    | Some img => setPending (fun p => p ++ [AwaitCompress a img cl]) s1
    end.
Proof.
  intros Hp Hc Hq. unfold processQueue.
  apply Nat.leb_gt in Hc. rewrite Hp, Hc, Hq. reflexivity.
Qed.

(** [processQueue] stopped by one of its guards. *)
Lemma processQueue_blocked cl s :
  pausedRef s = true \/ MAX_CONCURRENT <= length (activeRef s) \/ queueRef s = [] ->
  processQueue cl s = s.
Proof.
  intros [H | [H | H]]; unfold processQueue.
  - rewrite H. reflexivity.
  - apply Nat.leb_le in H. rewrite H. destruct (pausedRef s); reflexivity.
  - rewrite H. destruct (pausedRef s); [reflexivity|].
    destruct (MAX_CONCURRENT <=? length (activeRef s))%nat; reflexivity.
Qed.

Lemma render_cases s :
  (admission_cond s = false /\ render s = selection_effect (sync_refs s))
  \/ (exists a, Admits s (render s) a).
Proof.
  unfold render, admission_effect.
  destruct (admission_cond s) eqn:C; [right | left; auto].
  destruct (admission_cond_true s C) as (Hp & Hc & a & q & Hq).
  exists a.
  rewrite (processQueue_admit (closure_of s) (selection_effect (sync_refs s)) a q);
    [ | rewrite selection_effect_pausedRef; exact Hp
      | rewrite selection_effect_activeRef; exact Hc
      | rewrite selection_effect_queueRef; exact Hq ].
  cbv zeta.
  change (cl_images (closure_of s)) with (images s).
  constructor; try assumption;
    destruct (find_id a (images s)); cbn -[selection_effect sync_refs update_id remove_id];
    rewrite ?selection_effect_queue, ?selection_effect_images,
      ?selection_effect_completed, ?selection_effect_paused,
      ?selection_effect_active, ?selection_effect_pending;
    cbn -[update_id remove_id]; rewrite ?Hq; auto.
Qed.

Lemma render_no_admission s :
  admission_cond s = false ->
  images (render s) = images s /\ queue (render s) = queue s /\
  active (render s) = active s /\ completed (render s) = completed s /\
  paused (render s) = paused s /\ pending (render s) = pending s.
Proof.
  intro C. destruct (render_cases s) as [[_ E] | [a H]].
  - rewrite E, selection_effect_images, selection_effect_queue,
      selection_effect_active, selection_effect_completed,
      selection_effect_paused, selection_effect_pending.
    repeat split.
  - rewrite (adm_cond _ _ _ H) in C. discriminate C.
Qed.

Lemma admission_cond_ext s s' :
  paused s' = paused s -> queue s' = queue s -> active s' = active s ->
  admission_cond s' = admission_cond s.
Proof. intros Hp Hq Ha. unfold admission_cond. rewrite Hp, Hq, Ha. reflexivity. Qed.

(** Once a pass admits nothing, no later pass does. *)
Lemma renders_stable n s :
  admission_cond s = false -> admission_cond (renders n s) = false.
Proof.
  revert s. induction n as [|n IH]; intros s C; simpl; [exact C|].
  apply IH. destruct (render_no_admission s C) as (_ & Hq & Ha & _ & Hp & _).
  rewrite (admission_cond_ext s (render s)); assumption.
Qed.

Lemma renders_S n s : renders (S n) s = render (renders n s).
Proof.
  revert s. induction n as [|n IH]; intro s; [reflexivity|].
  change (renders (S (S n)) s) with (renders (S n) (render s)).
  rewrite IH. reflexivity.
Qed.

Lemma renders_no_admission n s :
  admission_cond s = false ->
  images (renders n s) = images s /\ queue (renders n s) = queue s /\
  active (renders n s) = active s /\ completed (renders n s) = completed s /\
  paused (renders n s) = paused s /\ pending (renders n s) = pending s.
Proof.
  revert s. induction n as [|n IH]; intros s C; simpl; [repeat split|].
  destruct (render_no_admission s C) as (Hi & Hq & Ha & Hc & Hp & Hpe).
  destruct (IH (render s)) as (Hi' & Hq' & Ha' & Hc' & Hp' & Hpe').
  { rewrite (admission_cond_ext s (render s)); assumption. }
  rewrite Hi', Hq', Ha', Hc', Hp', Hpe'. repeat split; assumption.
Qed.

Lemma paused_no_admission s : paused s = true -> admission_cond s = false.
Proof. intro H. unfold admission_cond. rewrite H. reflexivity. Qed.

(** ** Quiescent states *)

Lemma list_string_eqb_eq (a b : list string) : list_string_eqb a b = true -> a = b.
Proof.
  unfold list_string_eqb. destruct (list_eq_dec string_dec a b); [auto | discriminate].
Qed.

Lemma refs_syncedb_sound s : refs_syncedb s = true -> refs_synced s.
Proof.
  unfold refs_syncedb, refs_synced. intro H.
  apply andb_prop in H. destruct H as [H H3].
  apply andb_prop in H. destruct H as [H1 H2].
  apply list_string_eqb_eq in H1, H2. apply Bool.eqb_prop in H3. auto.
Qed.

Lemma quiescentb_sound s :
  quiescentb s = true -> refs_synced s /\ admission_cond s = false.
Proof.
  unfold quiescentb. intro H.
  apply andb_prop in H. destruct H as [H H3].
  apply andb_prop in H. destruct H as [H1 _].
  split; [apply refs_syncedb_sound; exact H1 | apply negb_true_iff; exact H3].
Qed.

Lemma list_string_eqb_refl (a : list string) : list_string_eqb a a = true.
Proof.
  unfold list_string_eqb. destruct (list_eq_dec string_dec a a); [reflexivity | contradiction].
Qed.

Lemma selection_effect_stable s : selection_stableb (selection_effect s) = true.
Proof.
  destruct s as [imgs sel ? ? ? ? ? ? ? ? ? ? ? ?].
  unfold selection_effect, selection_stableb; simpl. destruct imgs, sel; reflexivity.
Qed.

Lemma selection_effect_id s : selection_stableb s = true -> selection_effect s = s.
Proof.
  destruct s as [imgs sel ? ? ? ? ? ? ? ? ? ? ? ?].
  unfold selection_effect, selection_stableb; simpl.
  destruct imgs, sel; intro H; (reflexivity || discriminate H).
Qed.

Lemma sync_refs_id s : refs_synced s -> sync_refs s = s.
Proof.
  destruct s as [? ? ? ? ? ? ? ? ? qr ar pr ? ?]. unfold refs_synced, sync_refs; simpl.
  intros (-> & -> & ->). reflexivity.
Qed.

(** A pass that admits nothing leaves a quiescent state. *)
Lemma render_settles s : admission_cond s = false -> quiescentb (render s) = true.
Proof.
  intro C. destruct (render_cases s) as [[_ E] | [a H]].
  - rewrite E. unfold quiescentb, refs_syncedb.
    rewrite selection_effect_stable, selection_effect_queueRef, selection_effect_queue,
      selection_effect_activeRef, selection_effect_active,
      selection_effect_pausedRef, selection_effect_paused.
    cbn [sync_refs queueRef queue activeRef active pausedRef paused].
    rewrite !list_string_eqb_refl, Bool.eqb_reflx.
    rewrite (admission_cond_ext s (selection_effect (sync_refs s)));
      [rewrite C; reflexivity | | | ].
    + rewrite selection_effect_paused. reflexivity.
    + rewrite selection_effect_queue. reflexivity.
    + rewrite selection_effect_active. reflexivity.
  - rewrite (adm_cond _ _ _ H) in C. discriminate C.
Qed.

(** In a quiescent state a render changes nothing. *)
Lemma render_quiescent s : quiescentb s = true -> render s = s.
Proof.
  intro Hq. destruct (quiescentb_sound s Hq) as [Hs C].
  destruct (render_cases s) as [[_ E] | [a H]].
  - rewrite E, sync_refs_id by exact Hs. apply selection_effect_id.
    unfold quiescentb in Hq. apply andb_prop in Hq. destruct Hq as [Hq _].
    apply andb_prop in Hq. tauto.
  - rewrite (adm_cond _ _ _ H) in C. discriminate C.
Qed.

Lemma renders_quiescent n s : quiescentb s = true -> renders n s = s.
Proof.
  induction n as [|n IH]; intro Hq; simpl; [reflexivity|].
  rewrite render_quiescent by exact Hq. apply IH. exact Hq.
Qed.

Lemma renders_settle n s : length (queue s) < n -> quiescentb (renders n s) = true.
Proof.
  revert s. induction n as [|n IH]; intros s Hn; [lia|]. simpl.
  destruct (render_cases s) as [[C _] | [a H]].
  - rewrite renders_quiescent; apply render_settles; exact C.
  - destruct n as [|n'].
    + pose proof (adm_head _ _ _ H) as Hh. rewrite Hh in Hn. simpl in Hn. lia.
    + apply IH. pose proof (adm_head _ _ _ H) as Hh. rewrite Hh in Hn.
      simpl in Hn. lia.
Qed.

(** The renders that follow an event end in a quiescent state: the next
    event can be dispatched. *)
Lemma commit_quiescent s : quiescentb (commit s) = true.
Proof. unfold commit. apply renders_settle. lia. Qed.

(** ** Reachable states *)

Lemma dispatch_Some ev s s' :
  dispatch ev s = Some s' -> enabledb ev s = true /\ s' = handle ev s.
Proof.
  unfold dispatch. destruct (enabledb ev s); simpl; [|discriminate].
  intro H. inversion H. auto.
Qed.

(** Induction over the reachable states, one case per kind of step. *)
Lemma Reachable_invariant (P : State -> Prop) :
  P init ->
  (forall s, Reachable s -> P s -> P (render s)) ->
  (forall s ev, Reachable s -> P s -> enabledb ev s = true -> P (handle ev s)) ->
  forall s, Reachable s -> P s.
Proof.
  intros Hinit Hrender Hevent s HR.
  induction HR as [| s HR IH | s s' ev HR IH Hd].
  - exact Hinit.
  - apply Hrender; assumption.
  - apply dispatch_Some in Hd. destruct Hd as (He & ->).
    apply Hevent; assumption.
Qed.

Lemma renders_Reachable n s : Reachable s -> Reachable (renders n s).
Proof.
  revert s. induction n as [|n IH]; intros s H; simpl; [exact H|].
  apply IH. apply R_render. exact H.
Qed.

Lemma run_Reachable evs s s' :
  Reachable s -> run evs s = Some s' -> Reachable s'.
Proof.
  revert s. induction evs as [|ev rest IH]; intros s HR Hrun; simpl in Hrun.
  - inversion Hrun. subst. exact HR.
  - destruct (dispatch ev s) as [s1|] eqn:Hd; [|discriminate].
    apply (IH (commit s1)); [|exact Hrun].
    apply renders_Reachable. apply R_event with (s := s) (ev := ev); assumption.
Qed.

Lemma exec_Reachable steps s s' :
  Reachable s -> exec steps s = Some s' -> Reachable s'.
Proof.
  revert s. induction steps as [|[ev|] rest IH]; intros s HR Hex; simpl in Hex.
  - inversion Hex. subst. exact HR.
  - destruct (dispatch ev s) as [s1|] eqn:Hd; [|discriminate].
    apply (IH s1); [|exact Hex].
    apply R_event with (s := s) (ev := ev); assumption.
  - apply (IH (render s)); [|exact Hex]. apply R_render. exact HR.
Qed.

Lemma Committed_Reachable s : Committed s -> Reachable s.
Proof.
  intro H. induction H as [| s H IH | s ev H IH Hq He].
  - apply R_init.
  - apply R_render. exact IH.
  - apply R_event with (s := s) (ev := ev); [exact IH|].
    unfold dispatch. rewrite He. reflexivity.
Qed.

Lemma admission_cond_false_blocked s :
  refs_synced s -> admission_cond s = false ->
  pausedRef s = true \/ MAX_CONCURRENT <= length (activeRef s) \/ queueRef s = [].
Proof.
  intros (Hq & Ha & Hp) C. rewrite Hq, Ha, Hp.
  unfold admission_cond in C.
  destruct (paused s); [left; reflexivity | right].
  destruct (queue s) as [|a q]; [right; reflexivity | left].
  simpl in C. apply Nat.ltb_ge in C. exact C.
Qed.

(** In a quiescent state a [processQueue] timer finds nothing to admit,
    whatever render its closure comes from. *)
Lemma processQueue_quiescent cl s f :
  quiescentb s = true -> processQueue cl (setPending f s) = setPending f s.
Proof.
  intro Hq. apply quiescentb_sound in Hq. destruct Hq as [Hs C].
  apply processQueue_blocked. exact (admission_cond_false_blocked s Hs C).
Qed.

(** A call of [processQueue] returns at one of its guards, or it starts the
    head of the mirror [queueRef]. *)
Lemma processQueue_cases cl s :
  processQueue cl s = s \/ exists a, Starts cl s (processQueue cl s) a.
Proof.
  destruct (pausedRef s) eqn:Hp.
  { left. apply processQueue_blocked. auto. }
  destruct (Nat.le_gt_cases MAX_CONCURRENT (length (activeRef s))) as [Hc | Hc].
  { left. apply processQueue_blocked. auto. }
  destruct (queueRef s) as [|a q] eqn:Hq.
  { left. apply processQueue_blocked. auto. }
  right. exists a. rewrite (processQueue_admit cl s a q Hp Hc Hq). cbv zeta.
  constructor; try (rewrite Hq; reflexivity); try assumption;
    destruct (find_id a (cl_images cl)); cbn -[update_id remove_id]; auto.
Qed.

Lemma new_images_ids rnd i files :
  length (new_images rnd i files) = length files.
Proof.
  revert i. induction files as [|f fl IH]; intro i; simpl; [reflexivity|].
  rewrite IH. reflexivity.
Qed.

Lemma with_status_id st img : id (with_status st img) = id img.
Proof. reflexivity. Qed.

Lemma apply_result_id r img : id (apply_result r img) = id img.
Proof. reflexivity. Qed.

Lemma incl_remove_id_filter i q (l : list CompressedImage) :
  incl q (map id l) ->
  incl (remove_id i q)
       (map id (filter (fun img : CompressedImage => negb (String.eqb (id img) i)) l)).
Proof.
  intros H j Hj. unfold remove_id in Hj. apply filter_In in Hj.
  destruct Hj as [Hj Hne]. apply H in Hj. apply in_map_iff in Hj.
  destruct Hj as (img & <- & Hin). apply in_map. apply filter_In. auto.
Qed.

Lemma skipn_1_incl {A : Type} (l : list A) : incl (skipn 1 l) l.
Proof. destruct l; simpl; [apply incl_refl | apply incl_tl, incl_refl]. Qed.

(** ** The pending list names job records *)

Lemma queue_known_processQueue cl s : queue_known s -> queue_known (processQueue cl s).
Proof.
  intro Hk. destruct (processQueue_cases cl s) as [-> | [a H]]; [exact Hk|].
  unfold queue_known. rewrite (st_queue _ _ _ _ H), (st_images _ _ _ _ H).
  rewrite update_id_ids by (intros; apply with_status_id).
  eapply incl_tran; [apply skipn_1_incl | exact Hk].
Qed.

Lemma queue_known_render s : queue_known s -> queue_known (render s).
Proof.
  intro Hk. unfold queue_known.
  destruct (render_cases s) as [[C _] | [a H]].
  - destruct (render_no_admission s C) as (-> & -> & _). exact Hk.
  - rewrite (adm_images _ _ _ H), update_id_ids by (intros; apply with_status_id).
    intros j Hj. apply Hk. rewrite (adm_head _ _ _ H). right. exact Hj.
Qed.

Lemma queue_known_handle s ev : queue_known s -> queue_known (handle ev s).
Proof.
  intro Hk. unfold queue_known in *.
  destruct ev; simpl; auto.
  - (* handleFiles *)
    unfold handleFiles. destruct files as [fl|]; [|auto].
    destruct (length (filter is_image_file fl) =? 0)%nat; [simpl; auto|].
    destruct (0 <? length (filter is_oversized (filter is_image_file fl)))%nat;
      simpl; [auto|].
    rewrite map_app. apply incl_app_app; [exact Hk | apply incl_refl].
  - (* cancelQueued *)
    rewrite update_id_ids by (intros; apply with_status_id).
    intros j Hj. apply Hk. eapply remove_id_In. exact Hj.
  - (* recompressSelectedImage *)
    unfold recompressSelectedImage. destruct (selectedImage s); simpl; [|auto].
    rewrite update_id_ids by (intros; apply with_status_id). exact Hk.
  - (* removeImage *)
    unfold removeImage.
    destruct (selectedImage s) as [sel|]; [destruct (String.eqb (id sel) i)|]; simpl;
      apply incl_remove_id_filter; exact Hk.
  - (* clearAll *)
    apply incl_nil_l.
  - (* a continuation resumes *)
    destruct (nth_error (pending s) k) as [t|]; [|auto].
    destruct t as [nextId img cl | sel st | cl |]; cbn [resume].
    + unfold processQueue_settle.
      destruct (compressImage (originalFile img) (cl_settings cl) o); simpl;
        rewrite update_id_ids; auto.
    + unfold recompress_settle.
      destruct (compressImage (originalFile sel) st o); simpl;
        rewrite update_id_ids; auto.
    + apply (queue_known_processQueue cl (setPending (remove_nth k) s)). exact Hk.
    + auto.
Qed.

Lemma Reachable_queue_known s : Reachable s -> queue_known s.
Proof.
  apply Reachable_invariant.
  - apply incl_nil_l.
  - intros s0 _ H. apply queue_known_render. exact H.
  - intros s0 ev _ H _. apply queue_known_handle. exact H.
Qed.

(** ** The concurrency cap *)

(** The routine on a fresh mirror of the active set: it keeps the bound, and
    it adds to the active set only when that set has room. *)
Lemma processQueue_active cl s :
  activeRef s = active s -> length (active s) <= MAX_CONCURRENT ->
  length (active (processQueue cl s)) <= MAX_CONCURRENT /\
  (active (processQueue cl s) = active s \/ length (active s) < MAX_CONCURRENT).
Proof.
  intros Hr Hle. unfold processQueue.
  destruct (pausedRef s); [auto|].
  destruct (MAX_CONCURRENT <=? length (activeRef s))%nat eqn:E; [auto|].
  apply Nat.leb_gt in E. rewrite Hr in E.
  destruct (queueRef s) as [|a q]; [auto|].
  split; [|right; exact E].
  destruct (find_id a (cl_images cl)); simpl.
  - rewrite length_app. simpl. lia.
  - eapply Nat.le_trans; [apply remove_id_length|]. rewrite length_app. simpl. lia.
Qed.

Lemma active_bound_render s :
  length (active s) <= MAX_CONCURRENT -> length (active (render s)) <= MAX_CONCURRENT.
Proof.
  intro Ha. destruct (render_cases s) as [[C _] | [a H]].
  - destruct (render_no_admission s C) as (_ & _ & -> & _). exact Ha.
  - destruct H as [_ Hcap _ _ _ _ _ Hact].
    destruct (find_id a (images s)); destruct Hact as [-> _].
    + rewrite length_app. simpl. unfold MAX_CONCURRENT in *. lia.
    + eapply Nat.le_trans; [apply remove_id_length|].
      rewrite length_app. simpl. unfold MAX_CONCURRENT in *. lia.
Qed.

Lemma active_bound_handle s ev :
  length (active s) <= MAX_CONCURRENT -> quiescentb s = true ->
  length (active (handle ev s)) <= MAX_CONCURRENT.
Proof.
  intros Ha Hq. destruct ev; simpl; auto.
  - unfold handleFiles. destruct files as [fl|]; [|auto].
    destruct (length (filter is_image_file fl) =? 0)%nat; [simpl; auto|].
    destruct (0 <? length (filter is_oversized (filter is_image_file fl)))%nat;
      simpl; auto.
  - unfold recompressSelectedImage. destruct (selectedImage s); simpl; auto.
  - unfold removeImage.
    destruct (selectedImage s) as [sel|]; [destruct (String.eqb (id sel) i)|]; simpl;
      exact Ha.
  - unfold MAX_CONCURRENT; lia.
  - destruct (nth_error (pending s) k) as [t|]; [|auto].
    destruct t as [nextId img cl | sel st | cl |]; cbn [resume].
    + unfold processQueue_settle.
      destruct (compressImage (originalFile img) (cl_settings cl) o); simpl;
        (eapply Nat.le_trans; [apply remove_id_length | exact Ha]).
    + unfold recompress_settle.
      destruct (compressImage (originalFile sel) st o); simpl; exact Ha.
    + rewrite processQueue_quiescent by exact Hq. simpl. exact Ha.
    + exact Ha.
Qed.

(** When every callback finds the mirrors fresh, the active set stays
    within [MAX_CONCURRENT]. *)
Lemma Committed_active_bound s : Committed s -> length (active s) <= MAX_CONCURRENT.
Proof.
  intro H. induction H as [| s H IH | s ev H IH Hq He].
  - unfold MAX_CONCURRENT. simpl. lia.
  - apply active_bound_render. exact IH.
  - apply active_bound_handle; assumption.
Qed.

Lemma run_Committed evs s s' :
  Committed s -> quiescentb s = true -> run evs s = Some s' ->
  Committed s' /\ quiescentb s' = true.
Proof.
  revert s. induction evs as [|ev rest IH]; intros s HC Hq Hrun; simpl in Hrun.
  - inversion Hrun. subst. auto.
  - destruct (dispatch ev s) as [s1|] eqn:Hd; [|discriminate].
    apply dispatch_Some in Hd. destruct Hd as (He & ->).
    apply (IH (commit (handle ev s))); [| |exact Hrun].
    + unfold commit. generalize (S (length (queue (handle ev s)))).
      intro n. generalize (C_event s ev HC Hq He).
      generalize (handle ev s). clear. intros s0 H0. revert s0 H0.
      induction n as [|n IHn]; intros s0 H0; simpl; [exact H0|].
      apply IHn. apply C_render. exact H0.
    + apply commit_quiescent.
Qed.

(** ** The concurrency cap under a stale mirror *)

(** C3. The bound on the active set does not hold in every reachable state.
    Five files are submitted, three jobs are admitted, and the compression
    of the first resolves. The render that follows admits the fourth job, so
    the active set holds three jobs again while [activeRef] still holds two.
    The zero-delay timer that the settled call left behind runs before the
    next render: [processQueue] reads the mirror, passes its guard and adds
    the fourth job a second time. The active set has four entries and four
    compressions are in flight, with [MAX_CONCURRENT] = 3. *)
Theorem stale_mirror_exceeds_cap :
  let s0 := Sample.state_at Sample.stale in
  let s := Sample.state_at Sample.race in
  exec Sample.stale init = Some s0
  /\ exec Sample.race init = Some s
  /\ Reachable s
  /\ MAX_CONCURRENT = 3
  /\ active s0 = ["b"; "c"; "d"] /\ activeRef s0 = ["b"; "c"]
  /\ nth_error (pending s0) 3 = Some (TimerProcessQueue (closure_of Sample.uploaded))
  /\ dispatch (EvSettle 3 Rejected) s0 = Some s
  /\ active s = ["b"; "c"; "d"; "d"]
  /\ length (active s) = 4
  /\ in_flight s = 4.
Proof.
  cbv zeta.
  assert (H : exec Sample.race init = Some (Sample.state_at Sample.race))
    by (vm_compute; reflexivity).
  split; [vm_compute; reflexivity|]. split; [exact H|].
  split; [exact (exec_Reachable Sample.race init _ R_init H)|].
  vm_compute. repeat split.
Qed.

(** The same submission when every callback waits for React to commit:
    three jobs are admitted and two stay in the pending list. *)
Example five_files_three_admitted :
  let s := Sample.state_after [EvFiles (Some Sample.five) Sample.draws] in
  map status (images s) = [Compressing; Compressing; Compressing; Queued; Queued]
  /\ active s = ["a"; "b"; "c"] /\ queue s = ["d"; "e"].
Proof. vm_compute. repeat split. Qed.

(** The guards of [processQueue] read the mirrors, not the state: called
    twice on the same mirrors it admits the same head twice. *)
Example processQueue_reads_mirrors :
  let s := sync_refs (Sample.uploaded) in
  let cl := closure_of s in
  active (processQueue cl s) = ["a"]
  /\ active (processQueue cl (processQueue cl s)) = ["a"; "a"]
  /\ queue (processQueue cl (processQueue cl s)) = ["c"; "d"; "e"].
Proof. vm_compute. repeat split. Qed.

(** ** Order of admission under a stale mirror *)

(** C4. Admission is not first in, first out in every run. In the state
    before the timer call of [Sample.race] the pending list is [e] and its
    mirror is still [d; e]. [processQueue] starts the head of the mirror,
    the fourth job, which is running already, and takes the head of the
    pending list off: the fifth job leaves the pending list without being
    admitted. It stays Queued with no compression in flight, and a sixth
    job, submitted later, is admitted and set to Compressing before it. *)
Theorem stale_mirror_breaks_fifo :
  let s0 := Sample.state_at Sample.stale in
  let s := Sample.state_at Sample.race in
  let s' := Sample.state_at Sample.overtaken in
  exec Sample.race init = Some s
  /\ exec Sample.overtaken init = Some s'
  /\ Reachable s'
  /\ queue s0 = ["e"] /\ queueRef s0 = ["d"; "e"]
  /\ dispatch (EvSettle 3 Rejected) s0 = Some s
  /\ queue s = []
  /\ status_of "e" s = Some Queued
  /\ existsb (compressing_for "e") (pending s) = false
  /\ length (filter (compressing_for "d") (pending s)) = 2
  /\ map (fun img => (id img, status img)) (images s')
     = [("a", Compressed); ("b", Compressed); ("c", Compressing);
        ("d", Compressed); ("e", Queued); ("f", Compressing)]
  /\ queue s' = [] /\ active s' = ["c"; "f"]
  /\ existsb (compressing_for "e") (pending s') = false.
Proof.
  cbv zeta.
  assert (H : exec Sample.overtaken init = Some (Sample.state_at Sample.overtaken))
    by (vm_compute; reflexivity).
  split; [vm_compute; reflexivity|]. split; [exact H|].
  split; [exact (exec_Reachable Sample.overtaken init _ R_init H)|].
  vm_compute. repeat split.
Qed.

(** ** Submitting files *)

Lemma new_images_files rnd i files :
  map originalFile (new_images rnd i files) = files.
Proof.
  revert i. induction files as [|f fl IH]; intro i; simpl; [reflexivity|].
  rewrite IH. reflexivity.
Qed.

Lemma new_images_Queued rnd i files :
  Forall (fun img => status img = Queued) (new_images rnd i files).
Proof.
  revert i. induction files as [|f fl IH]; intro i; simpl; constructor;
    [reflexivity | apply IH].
Qed.

Lemma no_oversized_filter (l : list File) :
  (0 <? length (filter is_oversized l))%nat
  = negb (forallb (fun f => negb (is_oversized f)) l).
Proof.
  induction l as [|f l IH]; simpl; [reflexivity|].
  destruct (is_oversized f); simpl; [reflexivity | exact IH].
Qed.

(** C1, as the code has it. [handleFiles] drops the files that are not
    images without a message. If no image file is left it reports an error
    and creates nothing; if some image file exceeds 5 MiB it reports an error
    and creates nothing, whatever else the batch holds; otherwise every image
    file becomes a Queued job, appended to the jobs and to the pending list in
    input order, and nothing is reported. *)
Theorem handleFiles_batch (rnd : nat -> string * string) (fl : list File) (s : State) :
  let imageFiles := filter is_image_file fl in
  let s' := handleFiles rnd (Some fl) s in
  exists new : list CompressedImage,
    images s' = images s ++ new /\
    queue s' = queue s ++ map id new /\
    Forall (fun img => status img = Queued) new /\
    map originalFile new = (if batch_accepted fl then imageFiles else []) /\
    length new = (if batch_accepted fl then length imageFiles else 0) /\
    toasts s' = toasts s ++
      match imageFiles with
      | [] => [toast_error "Please select valid image files"]
      | _ => if batch_accepted fl then []
             else [toast_error "Some files exceed the 5MB size limit."]
      end.
Proof.
  cbv zeta. unfold handleFiles, batch_accepted.
  destruct (filter is_image_file fl) as [|f0 rest] eqn:E.
  - exists []. simpl. rewrite !app_nil_r. repeat split. constructor.
  - change (length (f0 :: rest) =? 0)%nat with false. cbv iota.
    rewrite no_oversized_filter.
    destruct (forallb (fun f => negb (is_oversized f)) (f0 :: rest)) eqn:A.
    + exists (new_images rnd 0 (f0 :: rest)). cbn [negb].
      cbn -[new_images]. rewrite app_nil_r.
      repeat split.
      * apply new_images_Queued.
      * apply new_images_files.
      * apply new_images_ids.
    + exists []. simpl. rewrite !app_nil_r. repeat split. constructor.
Qed.

(** One file of 6,000,000 bytes makes [handleFiles] refuse the valid file
    submitted with it; and a file that is not an image is dropped without any
    message. *)
Lemma handleFiles_rejects_whole_batch :
  let batch := [Sample.png "1" 1000; Sample.png "2" 6000000] in
  let mixed := [Sample.png "1" 1000; Sample.pdf "2" 1000] in
  length (filter (fun f => is_image_file f && negb (is_oversized f)) batch) = 1
  /\ images (handleFiles Sample.draws (Some batch) init) = []
  /\ queue (handleFiles Sample.draws (Some batch) init) = []
  /\ length (images (handleFiles Sample.draws (Some mixed) init)) = 1
  /\ toasts (handleFiles Sample.draws (Some mixed) init) = [].
Proof. vm_compute. repeat split. Qed.

(** ** Re-running the selected job *)

(** C2, as the code has it. A re-run bypasses the pending list and the
    active set alike: [recompressSelectedImage] reads neither, whatever the
    number of active jobs it sets the selected job to Compressing and starts
    its compression, and neither its start nor its settlement changes the
    pending list or the active set. The re-run is no occupant of the
    concurrency budget. *)
Theorem recompress_outside_active_set (s : State) (st : Settings) (o : Outcome) :
  match selectedImage s with
  | Some sel =>
      images (recompressSelectedImage s)
        = update_id (id sel) (with_status Compressing) (images s)
      /\ pending (recompressSelectedImage s)
        = pending s ++ [AwaitRecompress sel (settings s)]
      /\ in_flight (recompressSelectedImage s) = S (in_flight s)
      /\ queue (recompress_settle sel st o s) = queue s
      /\ active (recompress_settle sel st o s) = active s
  | None => recompressSelectedImage s = s
  end
  /\ queue (recompressSelectedImage s) = queue s
  /\ active (recompressSelectedImage s) = active s.
Proof.
  unfold recompressSelectedImage, recompress_settle, in_flight.
  destruct (selectedImage s) as [sel|]; [|auto].
  destruct (compressImage (originalFile sel) st o); simpl; repeat split;
    rewrite filter_app, length_app; simpl; lia.
Qed.

(** With three jobs admitted from the pending list, a fourth, still
    pending, is selected and re-run: four jobs are Compressing and four
    compressions are in flight, with [MAX_CONCURRENT] = 3; the re-run job is
    not in the active set and is still in the pending list. *)
Lemma rerun_exceeds_cap :
  let trace := [EvFiles (Some Sample.four) Sample.draws; EvSettle 0 Rejected;
                EvSelect 3; EvRecompress] in
  let s := Sample.state_after trace in
  run trace init = Some s
  /\ compressing_count s = 4
  /\ in_flight s = 4
  /\ MAX_CONCURRENT = 3
  /\ active s = ["a"; "b"; "c"]
  /\ queue s = ["d"]
  /\ option_map id (selectedImage s) = Some "d".
Proof. vm_compute. repeat split. Qed.

(** ** Result data and status *)

Lemma Forall_update_id (Q : CompressedImage -> Prop) i f l :
  (forall img, Q img -> Q (f img)) ->
  Forall Q l -> Forall Q (update_id i f l).
Proof.
  intros Hf H. unfold update_id. induction H as [|x l Hx Hl IH]; simpl; constructor.
  - destruct (String.eqb (id x) i); auto.
  - exact IH.
Qed.

Lemma Forall_filter (Q : CompressedImage -> Prop) p l :
  Forall Q l -> Forall Q (filter p l).
Proof.
  intro H. induction H as [|x l Hx Hl IH]; simpl; [constructor|].
  destruct (p x); [constructor; assumption | exact IH].
Qed.

Lemma compressImage_Some file st o r :
  compressImage file st o = Some r ->
  exists cf url engine newName,
    o = Resolved cf url engine /\ output_name file st engine = Some newName /\
    r = {| r_compressedFile := cf; r_compressedPreview := url;
           r_compressionRatio := compression_ratio (file_size cf) (file_size file);
           r_name := newName; r_compressedSize := file_size cf |}.
Proof.
  destruct o as [cf url engine|]; simpl; intro H; [|discriminate H].
  destruct (output_name file st engine) as [newName|] eqn:E; [|discriminate H].
  inversion H. exists cf, url, engine, newName. auto.
Qed.

Lemma compressImage_size file st o r :
  compressImage file st o = Some r ->
  r_compressedSize r = file_size (r_compressedFile r).
Proof.
  intro H. apply compressImage_Some in H.
  destruct H as (cf & url & engine & newName & _ & _ & ->). reflexivity.
Qed.

Lemma result_inv_render s :
  Forall result_if_compressed (images s) ->
  Forall result_if_compressed (images (render s)).
Proof.
  intro H. destruct (render_cases s) as [[C _] | [a Ha]].
  - destruct (render_no_admission s C) as (-> & _). exact H.
  - rewrite (adm_images _ _ _ Ha). apply Forall_update_id; [|exact H].
    intros img _ E. discriminate E.
Qed.

Lemma result_inv_handle s ev :
  Forall result_if_compressed (images s) ->
  Forall result_if_compressed (images (handle ev s)).
Proof.
  intros H. destruct ev; simpl; auto.
  - unfold handleFiles. destruct files as [fl|]; [|auto].
    destruct (length (filter is_image_file fl) =? 0)%nat; [exact H|].
    destruct (0 <? length (filter is_oversized (filter is_image_file fl)))%nat;
      [exact H|]. simpl.
    apply Forall_app. split; [exact H|].
    eapply Forall_impl; [|apply new_images_Queued].
    intros img E1 E2. rewrite E1 in E2. discriminate E2.
  - apply Forall_update_id; [|exact H]. intros img _ E. discriminate E.
  - unfold recompressSelectedImage. destruct (selectedImage s); [|exact H]. simpl.
    apply Forall_update_id; [|exact H]. intros img _ E. discriminate E.
  - unfold removeImage.
    destruct (selectedImage s) as [sel|]; [destruct (String.eqb (id sel) i)|]; simpl;
      apply Forall_filter; exact H.
  - destruct (nth_error (pending s) k) as [t|]; [|exact H].
    destruct t as [nextId img cl | sel st | cl |]; simpl.
    + unfold processQueue_settle.
      destruct (compressImage (originalFile img) (cl_settings cl) o) as [r|] eqn:Er;
        simpl; (apply Forall_update_id; [|exact H]); intros x _ E;
        [|discriminate E].
      exists (r_compressedFile r). split; [reflexivity|].
      exact (compressImage_size _ _ _ _ Er).
    + unfold recompress_settle.
      destruct (compressImage (originalFile sel) st o) as [r|] eqn:Er;
        simpl; (apply Forall_update_id; [|exact H]); intros x _ E;
        [|discriminate E].
      exists (r_compressedFile r). split; [reflexivity|].
      exact (compressImage_size _ _ _ _ Er).
    + destruct (processQueue_cases cl (setPending (remove_nth k) s)) as [-> | [a Ha]];
        [exact H|].
      rewrite (st_images _ _ _ _ Ha). apply Forall_update_id; [|exact H].
      intros x _ E. discriminate E.
    + exact H.
Qed.

(** C7, as the code has it. In every reachable state a job whose status is
    Compressed has its result data: the compressed file, and its size as the
    output size. The converse is not an invariant: starting a re-run and a
    failed re-run change the status and keep the result data of the earlier
    compression. *)
Theorem compressed_has_result (s : State) (img : CompressedImage) :
  Reachable s -> In img (images s) -> status img = Compressed ->
  exists cf, compressedFile img = Some cf /\ compressedSize img = file_size cf.
Proof.
  intros HR Hin.
  assert (H : Forall result_if_compressed (images s)); [|].
  2: { rewrite Forall_forall in H. exact (H img Hin). }
  clear img Hin. revert s HR.
  apply Reachable_invariant.
  - constructor.
  - intros s _ H. apply result_inv_render. exact H.
  - intros s ev _ H _. apply result_inv_handle; assumption.
Qed.

(** A job that was compressed and is re-run: while the re-run is in flight
    its status is Compressing and the earlier result is still on the record;
    when the re-run fails its status is Error and the result is still there. *)
Lemma stale_result_after_rerun :
  let trace := [EvFiles (Some [Sample.png "1" 1000]) Sample.draws;
                EvSettle 1 Sample.done; EvSettle 0 Rejected; EvRecompress] in
  let s := Sample.state_after trace in
  let s' := Sample.state_after (trace ++ [EvSettle 1 Rejected]) in
  run trace init = Some s
  /\ map status (images s) = [Compressing]
  /\ map (fun img => option_map file_size (compressedFile img)) (images s) = [Some 250000%Z]
  /\ run (trace ++ [EvSettle 1 Rejected]) init = Some s'
  /\ map status (images s') = [Error]
  /\ map (fun img => option_map file_size (compressedFile img)) (images s') = [Some 250000%Z].
Proof. vm_compute. repeat split. Qed.

Lemma compressed_has_result_witness :
  let s := Sample.state_after [EvFiles (Some [Sample.png "1" 1000]) Sample.draws;
                               EvSettle 1 Sample.done] in
  let img := hd (new_image ("", "") (Sample.png "" 0)) (images s) in
  Reachable s /\ In img (images s) /\ status img = Compressed /\
  exists cf, compressedFile img = Some cf /\ compressedSize img = file_size cf.
Proof.
  cbv zeta.
  set (s := Sample.state_after _).
  set (img := hd _ (images s)).
  assert (HR : Reachable s).
  { apply (run_Reachable [EvFiles (Some [Sample.png "1" 1000]) Sample.draws;
                          EvSettle 1 Sample.done] init s R_init).
    vm_compute. reflexivity. }
  assert (Hin : In img (images s)) by (vm_compute; left; reflexivity).
  assert (Hst : status img = Compressed) by (vm_compute; reflexivity).
  split; [exact HR|]. split; [exact Hin|]. split; [exact Hst|].
  exact (compressed_has_result s img HR Hin Hst).
Defined.

(** ** Status transitions *)

Lemma find_id_app i l l' :
  find_id i (l ++ l') =
  match find_id i l with Some x => Some x | None => find_id i l' end.
Proof.
  unfold find_id. induction l as [|x l IH]; simpl; [reflexivity|].
  destruct (String.eqb (id x) i); [reflexivity | exact IH].
Qed.

Lemma find_id_filter i j l :
  find_id j (filter (fun img : CompressedImage => negb (String.eqb (id img) i)) l) =
  if String.eqb j i then None else find_id j l.
Proof.
  unfold find_id. induction l as [|x l IH]; simpl.
  - destruct (String.eqb j i); reflexivity.
  - destruct (String.eqb (id x) i) eqn:E; simpl.
    + rewrite IH. destruct (String.eqb j i) eqn:E'; [reflexivity|].
      apply String.eqb_eq in E. apply String.eqb_neq in E'.
      assert (En : String.eqb (id x) j = false)
        by (apply String.eqb_neq; congruence).
      rewrite En. reflexivity.
    + destruct (String.eqb (id x) j) eqn:E'.
      * apply String.eqb_eq in E'. apply String.eqb_neq in E.
        assert (En : String.eqb j i = false)
          by (apply String.eqb_neq; congruence).
        rewrite En. reflexivity.
      * exact IH.
Qed.

Lemma new_images_find rnd k files j img :
  find_id j (new_images rnd k files) = Some img -> status img = Queued.
Proof.
  intro H. apply find_id_Some in H. destruct H as [H _].
  pose proof (new_images_Queued rnd k files) as F.
  rewrite Forall_forall in F. apply F. exact H.
Qed.

(** The status of [j] after [update_id i f]. *)
Lemma status_update i j f l :
  (forall img, id img = i -> id (f img) = id img) ->
  option_map status (find_id j (update_id i f l)) =
  if String.eqb j i
  then option_map (fun img => status (f img)) (find_id j l)
  else option_map status (find_id j l).
Proof.
  intro Hf. destruct (String.eqb j i) eqn:E.
  - apply String.eqb_eq in E. subst j.
    rewrite find_id_update_same by exact Hf.
    destruct (find_id i l); reflexivity.
  - apply String.eqb_neq in E.
    rewrite find_id_update_other by (auto; congruence). reflexivity.
Qed.

Lemma status_update_const ev i j f l st' :
  (forall img, id img = i -> id (f img) = id img) ->
  (forall img, status (f img) = st') ->
  (forall st, i = j -> StatusChange ev j (Some st) (Some st')) ->
  StatusChange ev j (option_map status (find_id j l))
                    (option_map status (find_id j (update_id i f l))).
Proof.
  intros Hid Hst Hc. rewrite status_update by exact Hid.
  destruct (String.eqb j i) eqn:E; [|apply SC_same].
  apply String.eqb_eq in E. destruct (find_id j l) as [img|]; simpl.
  - rewrite Hst. apply Hc. congruence.
  - apply SC_same.
Qed.

(** How an event changes the status shown for [j], in any state. *)
Lemma handle_status_change s ev j :
  StatusChange ev j (status_of j s) (status_of j (handle ev s)).
Proof.
  unfold status_of.
  destruct ev; simpl; try apply SC_same.
  - unfold handleFiles. destruct files as [fl|]; [|apply SC_same].
    destruct (length (filter is_image_file fl) =? 0)%nat; [apply SC_same|].
    destruct (0 <? length (filter is_oversized (filter is_image_file fl)))%nat;
      [apply SC_same|]. simpl.
    rewrite find_id_app. destruct (find_id j (images s)); [apply SC_same|].
    destruct (find_id j (new_images rnd 0 (filter is_image_file fl))) eqn:E;
      [|apply SC_same].
    simpl. rewrite (new_images_find _ _ _ _ _ E). apply SC_new. eauto.
  - apply status_update_const with (st' := Cancelled); auto.
    intros st ->. apply SC_cancel. reflexivity.
  - unfold recompressSelectedImage.
    destruct (selectedImage s) as [sel|]; [|apply SC_same]. simpl.
    apply status_update_const with (st' := Compressing); auto.
    intros st _. apply SC_rerun. reflexivity.
  - unfold removeImage.
    assert (E : forall s0, images s0 = filter
                (fun img : CompressedImage => negb (String.eqb (id img) i)) (images s) ->
              StatusChange (EvRemove i) j (option_map status (find_id j (images s)))
                (option_map status (find_id j (images s0)))).
    { intros s0 ->. rewrite find_id_filter.
      destruct (String.eqb j i); [apply SC_gone | apply SC_same]. }
    destruct (selectedImage s) as [sel|]; [destruct (String.eqb (id sel) i)|];
      apply E; reflexivity.
  - apply SC_gone.
  - destruct (nth_error (pending s) k) as [t|]; [|apply SC_same].
    destruct t as [nextId img cl | sel st | cl |]; simpl.
    + unfold processQueue_settle.
      destruct (compressImage (originalFile img) (cl_settings cl) o); simpl.
      * apply status_update_const with (st' := Compressed); auto.
        intros st _. apply SC_settle; eauto.
      * apply status_update_const with (st' := Error); auto.
        intros st _. apply SC_settle; eauto.
    + unfold recompress_settle.
      destruct (compressImage (originalFile sel) st o); simpl.
      * apply status_update_const with (st' := Compressed); auto.
        intros st0 _. apply SC_settle; eauto.
      * apply status_update_const with (st' := Error); auto.
        intros st0 _. apply SC_settle; eauto.
    + destruct (processQueue_cases cl (setPending (remove_nth k) s)) as [-> | [a Ha]];
        [apply SC_same|].
      rewrite (st_images _ _ _ _ Ha).
      apply status_update_const with (st' := Compressing); auto.
      intros st0 _. apply SC_start; eauto.
    + apply SC_same.
Qed.

Lemma succeeds_Some file st o :
  succeeds file st o = true <-> exists r, compressImage file st o = Some r.
Proof.
  unfold succeeds. destruct (compressImage file st o) as [r|]; split.
  - eauto.
  - reflexivity.
  - discriminate.
  - intros [r H]. discriminate H.
Qed.

(** The status a compression started by [processQueue] settles in. *)
Lemma processQueue_settle_status nextId img cl o s :
  status_of nextId (processQueue_settle nextId img cl o s) =
  option_map (fun _ => settled_status (originalFile img) (cl_settings cl) o)
             (status_of nextId s).
Proof.
  unfold status_of, processQueue_settle, settled_status, succeeds.
  destruct (compressImage (originalFile img) (cl_settings cl) o); simpl;
    rewrite status_update by auto;
    rewrite String.eqb_refl; destruct (find_id nextId (images s)); reflexivity.
Qed.

Lemma processQueue_completed cl s : completed (processQueue cl s) = completed s.
Proof.
  destruct (processQueue_cases cl s) as [-> | [a H]];
    [reflexivity | exact (st_completed _ _ _ _ H)].
Qed.


(** ** The processed counter *)

Lemma render_completed s : completed (render s) = completed s.
Proof.
  destruct (render_cases s) as [[C _] | [a H]].
  - destruct (render_no_admission s C) as (_ & _ & _ & E & _). exact E.
  - exact (adm_completed _ _ _ H).
Qed.

Lemma renders_completed n s : completed (renders n s) = completed s.
Proof.
  revert s. induction n as [|n IH]; intro s; simpl; [reflexivity|].
  rewrite IH. apply render_completed.
Qed.

Lemma settled_counts (img : CompressedImage) :
  settled img = true -> counts_to_process img = true.
Proof.
  unfold settled, counts_to_process.
  destruct (status img); simpl; intro E; (reflexivity || discriminate E).
Qed.

(** What an event does to the counter, in any state. *)
Lemma handle_completed (s : State) (ev : Event) :
  completed (handle ev s) = completed_after ev s.
Proof.
  unfold completed_after, is_queue_success, succeeds.
  destruct ev; simpl; try reflexivity.
  - unfold handleFiles. destruct files as [fl|]; [|reflexivity].
    destruct (length (filter is_image_file fl) =? 0)%nat; [reflexivity|].
    destruct (0 <? length (filter is_oversized (filter is_image_file fl)))%nat;
      reflexivity.
  - unfold recompressSelectedImage. destruct (selectedImage s); reflexivity.
  - unfold removeImage.
    destruct (selectedImage s) as [sel|]; [destruct (String.eqb (id sel) i)|];
      reflexivity.
  - destruct (nth_error (pending s) k) as [t|]; [|reflexivity].
    destruct t as [nextId img cl | sel st | cl |]; cbn [resume].
    + unfold processQueue_settle.
      destruct (compressImage (originalFile img) (cl_settings cl) o); reflexivity.
    + unfold recompress_settle.
      destruct (compressImage (originalFile sel) st o); reflexivity.
    + rewrite processQueue_completed. reflexivity.
    + reflexivity.
Qed.

Lemma settled_le_total (l : list CompressedImage) :
  length (filter settled l) <= length (filter counts_to_process l).
Proof.
  induction l as [|x l IH]; simpl; [lia|].
  destruct (settled x) eqn:E.
  - rewrite (settled_counts x E). simpl. lia.
  - destruct (counts_to_process x); simpl; lia.
Qed.

(** C8, as the code has it. The processed counter goes up by one exactly
    when a compression started by [processQueue] settles with a result, which
    is when its job reaches Compressed there; a compression that fails, by a
    rejection of [imageCompression] or by an exception while the result is
    built, sets the job to Error and leaves the counter unchanged; a re-run
    leaves it unchanged too, whether the job reaches Compressed or Error;
    [clearAll] resets it, and neither another event nor a render changes it.
    Along any schedule without [clearAll] the counter grows by the number of
    compressions started by [processQueue] that settled with a result,
    whatever the number of failures. Every job whose status is Compressed or
    Error counts in the denominator [totalToProcess]. *)
Theorem completed_counts_queue_successes (steps : list Step) (s s' : State) :
  exec steps s = Some s' -> existsb is_clearAll_step steps = false ->
  completed s' = completed s + queue_successes steps s
  /\ (forall ev s0, completed (handle ev s0) = completed_after ev s0)
  /\ (forall s0, completed (render s0) = completed s0)
  /\ (forall k o nextId img cl s0,
        nth_error (pending s0) k = Some (AwaitCompress nextId img cl) ->
        let st := settled_status (originalFile img) (cl_settings cl) o in
        status_of nextId (handle (EvSettle k o) s0)
          = option_map (fun _ => st) (status_of nextId s0)
        /\ (st = Compressed \/ st = Error)
        /\ completed (handle (EvSettle k o) s0)
           = completed s0 + (if Status_eqb st Compressed then 1 else 0))
  /\ (forall k o sel st0 s0,
        nth_error (pending s0) k = Some (AwaitRecompress sel st0) ->
        completed (handle (EvSettle k o) s0) = completed s0)
  /\ (forall img, settled img = true -> counts_to_process img = true)
  /\ length (filter settled (images s')) <= totalToProcess s'.
Proof.
  intros Hex Hclear.
  split; [|split; [exact (fun ev s0 => handle_completed s0 ev)|
           split; [exact render_completed|
           split; [|split; [|split; [exact settled_counts | apply settled_le_total]]]]]].
  - revert s Hex Hclear. induction steps as [|[ev|] rest IH]; intros s Hex Hclear.
    + simpl in *. inversion Hex. subst. lia.
    + simpl in *. apply orb_false_elim in Hclear. destruct Hclear as [Hev Hrest].
      destruct (dispatch ev s) as [s1|] eqn:Hd; [|discriminate].
      rewrite (IH s1 Hex Hrest).
      apply dispatch_Some in Hd. destruct Hd as (_ & ->).
      rewrite handle_completed. unfold completed_after.
      rewrite Hev. destruct (is_queue_success ev s); lia.
    + simpl in *. rewrite (IH (render s) Hex Hclear), render_completed. reflexivity.
  - intros k o nextId img cl s0 Hk. cbv zeta.
    split; [|split].
    + cbn [handle]. rewrite Hk. cbn [resume].
      rewrite processQueue_settle_status. reflexivity.
    + unfold settled_status. destruct (succeeds _ _ _); auto.
    + rewrite handle_completed. unfold completed_after, is_queue_success, settled_status.
      cbn [is_clearAll]. rewrite Hk.
      destruct (succeeds (originalFile img) (cl_settings cl) o); simpl; lia.
  - intros k o sel st0 s0 Hk. rewrite handle_completed.
    unfold completed_after, is_queue_success. cbn [is_clearAll]. rewrite Hk. reflexivity.
Qed.

Lemma completed_counts_queue_successes_witness :
  let steps := [Fire (EvFiles (Some [Sample.png "1" 1000; Sample.png "2" 2000; Sample.cpp])
                        Sample.draws);
                Pass; Pass; Pass; Pass;
                Fire (EvSettle 1 Sample.done); Fire (EvSettle 1 Rejected);
                Fire (EvSettle 1 Sample.thrown); Pass] in
  let s' := Sample.state_at steps in
  exec steps init = Some s' /\ existsb is_clearAll_step steps = false /\
  queue_successes steps init = 1 /\
  map status (images s') = [Compressed; Error; Error] /\
  completed s' = completed init + queue_successes steps init.
Proof.
  cbv zeta.
  set (steps := [Fire (EvFiles (Some [Sample.png "1" 1000; Sample.png "2" 2000; Sample.cpp])
                         Sample.draws);
                 Pass; Pass; Pass; Pass;
                 Fire (EvSettle 1 Sample.done); Fire (EvSettle 1 Rejected);
                 Fire (EvSettle 1 Sample.thrown); Pass]).
  assert (Hex : exec steps init = Some (Sample.state_at steps)) by (vm_compute; reflexivity).
  assert (Hcl : existsb is_clearAll_step steps = false) by reflexivity.
  assert (Hn : queue_successes steps init = 1) by (vm_compute; reflexivity).
  assert (Hst : map status (images (Sample.state_at steps)) = [Compressed; Error; Error])
    by (vm_compute; reflexivity).
  exact (conj Hex (conj Hcl (conj Hn (conj Hst
           (proj1 (completed_counts_queue_successes steps init _ Hex Hcl)))))).
Defined.

(** A job whose first compression failed is re-run and reaches Compressed:
    one job has settled Compressed, and the counter is still 0. *)
Lemma rerun_success_not_counted :
  let trace := [EvFiles (Some [Sample.png "1" 1000]) Sample.draws;
                EvSettle 1 Rejected; EvSettle 0 Rejected; EvRecompress;
                EvSettle 1 Sample.done] in
  let s := Sample.state_after trace in
  run trace init = Some s
  /\ map status (images s) = [Compressed]
  /\ completed s = 0
  /\ totalToProcess s = 1.
Proof. vm_compute. repeat split. Qed.

(** ** Pause and resume *)

Lemma render_pausedRef s : pausedRef (render s) = paused s.
Proof.
  unfold render, admission_effect.
  assert (E : pausedRef (selection_effect (sync_refs s)) = paused s)
    by (rewrite selection_effect_pausedRef; reflexivity).
  destruct (admission_cond s); [|exact E].
  destruct (processQueue_cases (closure_of s) (selection_effect (sync_refs s)))
    as [-> | [a H]]; [exact E|].
  destruct (st_refs _ _ _ _ H) as (_ & _ & ->). exact E.
Qed.

(** While the flag is set, render passes admit nothing and copy the flag
    into its mirror. *)
Lemma renders_paused n s :
  paused s = true ->
  images (renders n s) = images s /\ queue (renders n s) = queue s /\
  active (renders n s) = active s /\ pending (renders n s) = pending s /\
  paused (renders n s) = true /\ pausedRef (renders (S n) s) = true.
Proof.
  intro Hp.
  destruct (renders_no_admission n s (paused_no_admission s Hp))
    as (Hi & Hq & Ha & _ & Hpa & Hpe).
  repeat split; try assumption; try congruence.
  rewrite renders_S, render_pausedRef. congruence.
Qed.

(** With the flag in the mirror, no handler but [togglePause] changes the
    flag or its mirror, and none adds to the active set. *)
Lemma handle_paused s ev :
  paused s = true -> pausedRef s = true -> ev <> EvTogglePause ->
  paused (handle ev s) = true /\ pausedRef (handle ev s) = true /\
  incl (active (handle ev s)) (active s).
Proof.
  intros Hp Hr Hev.
  assert (Hsame : forall s0, paused s0 = paused s -> pausedRef s0 = pausedRef s ->
            incl (active s0) (active s) ->
            paused s0 = true /\ pausedRef s0 = true /\ incl (active s0) (active s)).
  { intros s0 E1 E2 E3. rewrite E1, E2. auto. }
  destruct ev; cbn [handle];
    try (apply Hsame; [reflexivity | reflexivity | apply incl_refl]).
  - unfold handleFiles.
    destruct files as [fl|]; [|apply Hsame; [reflexivity | reflexivity | apply incl_refl]].
    destruct (length (filter is_image_file fl) =? 0)%nat;
      [apply Hsame; [reflexivity | reflexivity | apply incl_refl]|].
    destruct (0 <? length (filter is_oversized (filter is_image_file fl)))%nat;
      apply Hsame; try reflexivity; apply incl_refl.
  - contradiction.
  - unfold recompressSelectedImage.
    destruct (selectedImage s); apply Hsame; try reflexivity; apply incl_refl.
  - unfold removeImage.
    destruct (selectedImage s) as [sel|]; [destruct (String.eqb (id sel) i)|];
      apply Hsame; try reflexivity; apply incl_refl.
  - apply Hsame; try reflexivity. apply incl_nil_l.
  - destruct (nth_error (pending s) k) as [t|];
      [|apply Hsame; try reflexivity; apply incl_refl].
    destruct t as [nextId img cl | sel st | cl |]; cbn [resume].
    + unfold processQueue_settle.
      destruct (compressImage (originalFile img) (cl_settings cl) o);
        apply Hsame; try reflexivity; simpl;
        intros x Hx; eapply remove_id_In; exact Hx.
    + unfold recompress_settle.
      destruct (compressImage (originalFile sel) st o);
        apply Hsame; try reflexivity; apply incl_refl.
    + rewrite processQueue_blocked by (left; exact Hr).
      apply Hsame; try reflexivity; apply incl_refl.
    + apply Hsame; try reflexivity; apply incl_refl.
Qed.

(** With the flag in the mirror, only a re-run takes a job from Queued to
    Compressing. *)
Lemma handle_paused_status s ev j :
  pausedRef s = true -> ev <> EvRecompress ->
  status_of j s = Some Queued -> status_of j (handle ev s) <> Some Compressing.
Proof.
  intros Hr Hev Hst E.
  pose proof (handle_status_change s ev j) as C. rewrite Hst, E in C.
  inversion C as [ | | | | st Hre | st st' Hse Hst' | st [k [o Hk]]]; subst;
    try congruence.
  - destruct Hst' as [H | H]; discriminate H.
  - cbn [handle] in E.
    destruct (nth_error (pending s) k) as [t|]; [|congruence].
    destruct t as [nextId img cl | sel st0 | cl |]; cbn [resume] in E.
    + unfold status_of, processQueue_settle in E, Hst.
      destruct (compressImage (originalFile img) (cl_settings cl) o); simpl in E;
        rewrite status_update in E by auto;
        destruct (String.eqb j nextId); try congruence;
        destruct (find_id j (images s)); simpl in E; congruence.
    + unfold status_of, recompress_settle in E, Hst.
      destruct (compressImage (originalFile sel) st0 o); simpl in E;
        rewrite status_update in E by auto;
        destruct (String.eqb j (id sel)); try congruence;
        destruct (find_id j (images s)); simpl in E; congruence.
    + rewrite processQueue_blocked in E by (left; exact Hr).
      unfold status_of in *. simpl in E. congruence.
    + unfold status_of in *. simpl in E. congruence.
Qed.

(** C5, as the code has it. While the paused flag is set the render passes
    admit nothing, whatever the pending list and the free capacity: they
    leave the jobs, the pending list, the active set and the continuations as
    they are, and the first of them copies the flag into [pausedRef]. Once
    the flag is in [pausedRef], a call of [processQueue] returns at its first
    guard, and after any event other than [togglePause], and any number of
    render passes after it, the flag and its mirror are still set, the active
    set has gained no job, and no job that was Queued is Compressing unless
    the event is a re-run of the selected job. A compression started before
    the pause can settle at any time: its job leaves the active set and
    becomes Compressed or Error. Once [togglePause] has cleared the flag, the
    next render pass admits the head of the pending list if the active set
    has room. *)
Theorem paused_blocks_admission (s : State) :
  paused s = true ->
  (forall n, images (renders n s) = images s /\ queue (renders n s) = queue s /\
             active (renders n s) = active s /\ pending (renders n s) = pending s /\
             paused (renders n s) = true /\ pausedRef (renders (S n) s) = true)
  /\ (pausedRef s = true ->
      (forall cl, processQueue cl s = s)
      /\ (forall ev n, ev <> EvTogglePause ->
            paused (renders n (handle ev s)) = true /\
            pausedRef (renders n (handle ev s)) = true /\
            incl (active (renders n (handle ev s))) (active s) /\
            (ev <> EvRecompress -> forall j,
               status_of j s = Some Queued ->
               status_of j (renders n (handle ev s)) <> Some Compressing)))
  /\ (forall k o nextId img cl,
        nth_error (pending s) k = Some (AwaitCompress nextId img cl) ->
        enabledb (EvSettle k o) s = true /\
        active (handle (EvSettle k o) s) = remove_id nextId (active s) /\
        status_of nextId (handle (EvSettle k o) s)
          = option_map (fun _ => settled_status (originalFile img) (cl_settings cl) o)
                       (status_of nextId s))
  /\ (forall a q, queue s = a :: q -> length (active s) < MAX_CONCURRENT ->
        paused (togglePause s) = false /\
        Admits (togglePause s) (render (togglePause s)) a).
Proof.
  intros Hp.
  split; [intro n; apply renders_paused; exact Hp|].
  split; [|split].
  - intro Hr. split; [intro cl; apply processQueue_blocked; left; exact Hr|].
    intros ev n Hev.
    destruct (handle_paused s ev Hp Hr Hev) as (Hp' & Hr' & Hincl).
    destruct (renders_paused n (handle ev s) Hp') as (Hi & _ & Ha & _ & Hpn & Hrn).
    split; [exact Hpn|]. split; [|split].
    + destruct n as [|n]; [exact Hr'|].
      rewrite renders_S, render_pausedRef.
      destruct (renders_paused n (handle ev s) Hp') as (_ & _ & _ & _ & H & _). exact H.
    + rewrite Ha. exact Hincl.
    + intros Hre j Hst. unfold status_of. rewrite Hi.
      exact (handle_paused_status s ev j Hr Hre Hst).
  - intros k o nextId img cl Hk. split; [|split].
    + simpl. apply Nat.ltb_lt. apply nth_error_Some. congruence.
    + cbn [handle]. rewrite Hk. cbn [resume]. unfold processQueue_settle.
      destruct (compressImage (originalFile img) (cl_settings cl) o); reflexivity.
    + cbn [handle]. rewrite Hk. cbn [resume]. rewrite processQueue_settle_status.
      reflexivity.
  - intros a q Hqu Hcap.
    assert (Hp' : paused (togglePause s) = false) by (simpl; rewrite Hp; reflexivity).
    split; [exact Hp'|].
    destruct (render_cases (togglePause s)) as [[C _] | [a' H]].
    + exfalso. unfold admission_cond in C. rewrite Hp' in C. simpl in C.
      rewrite Hqu in C. apply Nat.ltb_lt in Hcap. simpl in C.
      rewrite Hcap in C. discriminate C.
    + pose proof (adm_head _ _ _ H) as Hh. simpl in Hh. rewrite Hqu in Hh.
      inversion Hh. subst a'. exact H.
Qed.

Lemma paused_blocks_admission_witness :
  let s := Sample.paused_state in
  paused s = true /\ pausedRef s = true /\
  queue s = ["b"; "c"] /\ active s = ["a"] /\
  (forall n, queue (renders n s) = ["b"; "c"] /\ active (renders n s) = ["a"]) /\
  (forall ev n, ev <> EvTogglePause -> incl (active (renders n (handle ev s))) ["a"]).
Proof.
  cbv zeta.
  assert (Hp : paused Sample.paused_state = true) by (vm_compute; reflexivity).
  assert (Hr : pausedRef Sample.paused_state = true) by (vm_compute; reflexivity).
  assert (Hq : queue Sample.paused_state = ["b"; "c"]) by (vm_compute; reflexivity).
  assert (Ha : active Sample.paused_state = ["a"]) by (vm_compute; reflexivity).
  destruct (paused_blocks_admission Sample.paused_state Hp) as (H1 & H2 & _).
  split; [exact Hp|]. split; [exact Hr|]. split; [exact Hq|]. split; [exact Ha|].
  split.
  - intro n. destruct (H1 n) as (_ & Hqn & Han & _). rewrite Hqn, Han, Hq, Ha. auto.
  - intros ev n Hev. destruct (H2 Hr) as [_ H].
    destruct (H ev n Hev) as (_ & _ & Hincl & _). rewrite Ha in Hincl. exact Hincl.
Defined.

(** The queue is paused, one job is active, two are pending and Queued.
    The user selects the first pending job and re-runs it: it goes from
    Queued to Compressing while the queue is paused, and stays in the pending
    list. *)
Lemma rerun_ignores_pause :
  let s := Sample.paused_state in
  let s' := recompressSelectedImage s in
  run Sample.paused_trace init = Some s
  /\ dispatch EvRecompress s = Some s'
  /\ paused s = true /\ paused s' = true
  /\ queue s = ["b"; "c"] /\ active s = ["a"] /\ MAX_CONCURRENT = 3
  /\ status_of "b" s = Some Queued
  /\ status_of "b" s' = Some Compressing
  /\ status_of "b" (commit s') = Some Compressing
  /\ queue s' = ["b"; "c"].
Proof. vm_compute. repeat split. Qed.

(** The guard of [processQueue] reads [pausedRef]: a timer call that runs
    after [togglePause] and before the render that copies the flag passes the
    guard. *)
Example pause_awaits_commit :
  let s := Sample.state_at (Sample.stale ++ [Fire EvTogglePause]) in
  let s' := Sample.state_at (Sample.stale ++ [Fire EvTogglePause; Fire (EvSettle 3 Rejected)]) in
  paused s = true /\ pausedRef s = false /\ active s = ["b"; "c"; "d"]
  /\ paused s' = true /\ active s' = ["b"; "c"; "d"; "d"].
Proof. vm_compute. repeat split. Qed.

(** ** Cancellation *)










Example cancel_queued_job :
  let s' := Sample.state_after [EvFiles (Some Sample.five) Sample.draws; EvCancel "d"] in
  map status (images s') = [Compressing; Compressing; Compressing; Cancelled; Queued]
  /\ queue s' = ["e"] /\ active s' = ["a"; "b"; "c"]
  /\ dispatch (EvCancel "a") s' = None.
Proof. vm_compute. repeat split. Qed.

(** On its own [cancelQueued] has no guard on the status: the guard is the
    rendering of the control. *)
Example cancelQueued_unguarded :
  map status (images (cancelQueued "a" Sample.busy_state))
  = [Cancelled; Compressing; Compressing; Queued; Queued].
Proof. vm_compute. reflexivity. Qed.

(** ** Arithmetic on doubles *)

(** The operations of [compression_ratio] on IEEE doubles, through their
    specification on [SpecFloat]: the conversion of a byte count is exact,
    the quotient, the difference and the product are each within a relative
    error of 2^-53 of the exact value, and [Math.round] followed by
    [Math.max] gives the closest integer, the upper one at a tie, or zero.
    Together they place the stored ratio within the formula on exact
    numbers. *)

Section Doubles.

Local Open Scope Z_scope.

(** The number of binary digits. *)

Lemma digits2_pos_size (p : positive) : digits2_pos p = Pos.size p.
Proof. induction p; simpl; congruence. Qed.

Lemma digits2_pos_bounds (p : positive) :
  2 ^ (Zpos (digits2_pos p) - 1) <= Zpos p < 2 ^ Zpos (digits2_pos p).
Proof.
  induction p as [p IH | p IH |]; cbn [digits2_pos].
  - rewrite Pos2Z.inj_succ.
    replace (Z.succ (Zpos (digits2_pos p)) - 1) with (Zpos (digits2_pos p) - 1 + 1) by lia.
    rewrite Z.pow_succ_r by lia. rewrite Z.pow_add_r by lia.
    change (2 ^ 1) with 2. lia.
  - rewrite Pos2Z.inj_succ.
    replace (Z.succ (Zpos (digits2_pos p)) - 1) with (Zpos (digits2_pos p) - 1 + 1) by lia.
    rewrite Z.pow_succ_r by lia. rewrite Z.pow_add_r by lia.
    change (2 ^ 1) with 2. lia.
  - simpl. lia.
Qed.

Lemma Zdigits2_bounds (m : Z) : 0 < m -> 2 ^ (Zdigits2 m - 1) <= m < 2 ^ Zdigits2 m.
Proof. destruct m as [|p|p]; try lia. intros _. apply digits2_pos_bounds. Qed.

Lemma Zdigits2_pos (m : Z) : 0 < m -> 0 < Zdigits2 m.
Proof. destruct m; simpl; lia. Qed.

(** The number of digits is determined by the bounds. *)

Lemma Zdigits2_unique (m d : Z) : 2 ^ (d - 1) <= m < 2 ^ d -> 0 < d -> Zdigits2 m = d.
Proof.
  intros H Hd.
  assert (Hm : 0 < m). { pose proof (Z.pow_pos_nonneg 2 (d - 1)). lia. }
  pose proof (Zdigits2_bounds m Hm) as B. pose proof (Zdigits2_pos m Hm) as P.
  destruct (Z.lt_trichotomy (Zdigits2 m) d) as [L | [E | G]]; [|exact E|].
  - exfalso. assert (2 ^ Zdigits2 m <= 2 ^ (d - 1)) by (apply Z.pow_le_mono_r; lia). lia.
  - exfalso. assert (2 ^ d <= 2 ^ (Zdigits2 m - 1)) by (apply Z.pow_le_mono_r; lia). lia.
Qed.

Lemma xI_mod2 p : Z.pos p~1 mod 2 = 1.
Proof. rewrite Pos2Z.inj_xI. Z.to_euclidean_division_equations; lia. Qed.

Lemma xO_mod2 p : Z.pos p~0 mod 2 = 0.
Proof. rewrite Pos2Z.inj_xO. Z.to_euclidean_division_equations; lia. Qed.

Lemma xI_div2 p : Z.pos p~1 / 2 = Z.pos p.
Proof. rewrite Pos2Z.inj_xI. Z.to_euclidean_division_equations; lia. Qed.

Lemma xO_div2 p : Z.pos p~0 / 2 = Z.pos p.
Proof. rewrite Pos2Z.inj_xO. Z.to_euclidean_division_equations; lia. Qed.

Lemma shr_1_spec mrs num den :
  0 <= shr_m mrs -> classifies mrs num den ->
  shr_m (shr_1 mrs) = shr_m mrs / 2 /\
  classifies (shr_1 mrs) (num + den * (shr_m mrs mod 2)) (2 * den).
Proof.
  destruct mrs as [m r s]. unfold classifies. cbn [shr_m shr_r shr_s].
  intros Hm [Hn Hc].
  destruct m as [|[p|p|]|p]; try lia; cbn [shr_1 shr_m shr_r shr_s orb];
    destruct r, s; cbn [orb];
    rewrite ?xI_mod2, ?xO_mod2, ?xI_div2, ?xO_div2;
    change (0 mod 2) with 0; change (1 mod 2) with 1;
    change (0 / 2) with 0; change (1 / 2) with 0;
    repeat split; lia.
Qed.

Lemma iter_nat_add {A} (f : A -> A) n k x :
  iter_nat f (n + k) x = iter_nat f n (iter_nat f k x).
Proof. induction n; simpl; congruence. Qed.

Lemma iter_pos_nat {A} (f : A -> A) p x :
  SpecFloat.iter_pos f p x = iter_nat f (Pos.to_nat p) x.
Proof.
  revert x. induction p as [p IH | p IH |]; intro x; cbn [SpecFloat.iter_pos].
  - rewrite !IH. rewrite Pos2Nat.inj_xI.
    replace (S (2 * Pos.to_nat p)) with (Pos.to_nat p + (Pos.to_nat p + 1))%nat by lia.
    rewrite !iter_nat_add. reflexivity.
  - rewrite !IH. rewrite Pos2Nat.inj_xO.
    replace (2 * Pos.to_nat p)%nat with (Pos.to_nat p + Pos.to_nat p)%nat by lia.
    rewrite iter_nat_add. reflexivity.
  - reflexivity.
Qed.

Lemma shr_iter_spec (k : nat) mrs num den :
  0 <= shr_m mrs -> 0 < den -> classifies mrs num den ->
  let mrs' := iter_nat shr_1 k mrs in
  0 <= shr_m mrs' /\
  shr_m mrs' = shr_m mrs / 2 ^ Z.of_nat k /\
  exists num', classifies mrs' num' (2 ^ Z.of_nat k * den) /\
    2 ^ Z.of_nat k * den * shr_m mrs' + num' = den * shr_m mrs + num.
Proof.
  intros Hm Hd Hc. induction k as [|k IH]; cbv zeta.
  - simpl iter_nat. change (2 ^ Z.of_nat 0) with 1. rewrite Z.div_1_r.
    split; [exact Hm|]. split; [reflexivity|]. exists num.
    rewrite !Z.mul_1_l. auto.
  - cbv zeta in IH. destruct IH as (Hm' & Em & num' & Hc' & En).
    cbn [iter_nat].
    destruct (shr_1_spec _ _ _ Hm' Hc') as [E1 C1].
    rewrite Nat2Z.inj_succ, Z.pow_succ_r by lia.
    split; [rewrite E1; apply Z.div_pos; lia|].
    split.
    + rewrite E1, Em. rewrite Z.div_div by lia. f_equal. lia.
    + eexists. split.
      * replace (2 * 2 ^ Z.of_nat k * den) with (2 * (2 ^ Z.of_nat k * den)) by lia.
        exact C1.
      * rewrite E1. 
        pose proof (Z.div_mod (shr_m (iter_nat shr_1 k mrs)) 2 ltac:(lia)).
        nia.
Qed.

Lemma rne_spec mrs num den :
  0 <= shr_m mrs -> classifies mrs num den ->
  let m1 := round_nearest_even (shr_m mrs) (loc_of_shr_record mrs) in
  shr_m mrs <= m1 <= shr_m mrs + 1 /\
  2 * Z.abs (den * m1 - (den * shr_m mrs + num)) <= den.
Proof.
  destruct mrs as [m r s]. unfold classifies. cbn [shr_m shr_r shr_s].
  intros Hm [Hn Hc]. cbv zeta.
  destruct r, s; cbn [loc_of_shr_record round_nearest_even];
    try destruct (Z.even m); split; nia.
Qed.

Lemma shr_record_of_loc_m m l : shr_m (shr_record_of_loc m l) = m.
Proof. destruct l as [|[]]; reflexivity. Qed.

Lemma fexp_normal e : -1074 <= e - 53 -> fexp prec emax e = e - 53.
Proof. intro H. unfold fexp, SpecFloat.emin, prec, emax. lia. Qed.

(** first stage of binary_round_aux: shift right by the excess digits *)

Lemma shr_fexp_spec M E loc :
  0 < M -> 53 <= Zdigits2 M -> -1074 <= Zdigits2 M + E - 53 ->
  shr_fexp prec emax M E loc =
    (iter_nat shr_1 (Z.to_nat (Zdigits2 M - 53)) (shr_record_of_loc M loc),
     E + (Zdigits2 M - 53)).
Proof.
  intros HM Hd He. unfold shr_fexp. rewrite fexp_normal by lia.
  replace (Zdigits2 M + E - 53 - E) with (Zdigits2 M - 53) by lia.
  unfold shr. destruct (Zdigits2 M - 53) as [|p|p] eqn:En; try lia.
  - simpl. rewrite Z.add_0_r. reflexivity.
  - rewrite iter_pos_nat. reflexivity.
Qed.

Lemma pow2_pos_Zpos k : 0 <= k -> exists p, 2 ^ k = Zpos p.
Proof.
  intro H. pose proof (Z.pow_pos_nonneg 2 k ltac:(lia) H).
  destruct (2 ^ k); try lia. eauto.
Qed.

Lemma round_aux_spec (s : bool) M E loc a b :
  0 < M -> 53 <= Zdigits2 M -> -1074 <= Zdigits2 M + E - 53 ->
  Zdigits2 M + E - 53 + 1 <= 971 ->
  classifies (shr_record_of_loc M loc) a b ->
  let n := Zdigits2 M - 53 in
  exists mf ef m1,
    binary_round_aux prec emax s M E loc = S754_finite s mf ef /\
    2 ^ 52 <= Zpos mf < 2 ^ 53 /\
    (ef = E + n /\ Zpos mf = m1 \/ ef = E + n + 1 /\ 2 * Zpos mf = m1) /\
    2 * Z.abs (2 ^ n * b * m1 - (b * M + a)) <= 2 ^ n * b.
Proof.
  intros HM Hd He Ho Hc. cbv zeta.
  set (n := Zdigits2 M - 53).
  assert (Hn : 0 <= n) by (unfold n; lia).
  assert (Hb : 0 < b) by (destruct Hc as [? _]; lia).
  unfold binary_round_aux. rewrite (shr_fexp_spec M E loc HM Hd He). fold n.
  pose proof (shr_iter_spec (Z.to_nat n) (shr_record_of_loc M loc) a b) as I.
  rewrite shr_record_of_loc_m in I. cbv zeta in I.
  rewrite Z2Nat.id in I by exact Hn.
  destruct (I ltac:(lia) Hb Hc) as (Hm0 & Em0 & num' & Hc' & En). clear I.
  set (mrs := iter_nat shr_1 (Z.to_nat n) (shr_record_of_loc M loc)) in *.
  destruct (rne_spec mrs num' (2 ^ n * b) Hm0 Hc') as [Hm1 Herr].
  set (m1 := round_nearest_even (shr_m mrs) (loc_of_shr_record mrs)) in *.
  (* bounds on m0 *)
  pose proof (Zdigits2_bounds M HM) as HB.
  assert (Hpn : 0 < 2 ^ n) by (apply Z.pow_pos_nonneg; lia).
  assert (Hm0b : 2 ^ 52 <= shr_m mrs < 2 ^ 53).
  { rewrite Em0.
    assert (HB1 : 2 ^ 52 * 2 ^ n <= M).
    { rewrite <- Z.pow_add_r by lia.
      replace (52 + n) with (Zdigits2 M - 1) by (unfold n; lia). apply HB. }
    assert (HB2 : M < 2 ^ 53 * 2 ^ n).
    { rewrite <- Z.pow_add_r by lia.
      replace (53 + n) with (Zdigits2 M) by (unfold n; lia). apply HB. }
    split.
    - apply Z.div_le_lower_bound; [lia|]. rewrite Z.mul_comm. exact HB1.
    - apply Z.div_lt_upper_bound; [lia|]. rewrite Z.mul_comm. exact HB2. }
  assert (Hm1b : 2 ^ 52 <= m1 <= 2 ^ 53) by lia.
  assert (Herr' : 2 * Z.abs (2 ^ n * b * m1 - (b * M + a)) <= 2 ^ n * b).
  { replace (2 ^ n * b * m1 - (b * M + a))
      with (2 ^ n * b * m1 - (2 ^ n * b * shr_m mrs + num')) by lia.
    exact Herr. }
  destruct (Z.eq_dec m1 (2 ^ 53)) as [Ecarry | Ncarry].
  - (* carry *)
    rewrite Ecarry. 
    assert (Es : shr_fexp prec emax (2 ^ 53) (E + n) loc_Exact
                 = ({| shr_m := 2 ^ 52; shr_r := false; shr_s := false |}, E + n + 1)).
    { unfold shr_fexp. 
      change (Zdigits2 (2 ^ 53)) with 54.
      rewrite fexp_normal by (unfold n; lia).
      replace (54 + (E + n) - 53 - (E + n)) with 1 by lia.
      reflexivity. }
    rewrite Es. cbn [shr_m].
    destruct (pow2_pos_Zpos 52 ltac:(lia)) as [p Ep]. 
    assert (Ep' : 2 ^ 52 = Zpos p) by exact Ep.
    change (2 ^ 52) with 4503599627370496 in *.
    rewrite Ep'.
    assert (Hle : (E + n + 1 <=? emax - prec) = true).
    { apply Z.leb_le. unfold emax, prec, n. lia. }
    rewrite Hle.
    exists p, (E + n + 1), (2 ^ 53). split; [reflexivity|].
    split; [change (2 ^ 53) with 9007199254740992; lia|].
    split; [right; split; [reflexivity|change (2 ^ 53) with 9007199254740992; lia]|].
    rewrite <- Ecarry. exact Herr'.
  - assert (Hlt : m1 < 2 ^ 53) by lia.
    assert (Ed : Zdigits2 m1 = 53) by (apply Zdigits2_unique; [simpl Z.sub; lia | lia]).
    assert (Es : shr_fexp prec emax m1 (E + n) loc_Exact
                 = ({| shr_m := m1; shr_r := false; shr_s := false |}, E + n)).
    { unfold shr_fexp. rewrite Ed.
      rewrite fexp_normal by (unfold n; lia).
      replace (53 + (E + n) - 53 - (E + n)) with 0 by lia. reflexivity. }
    rewrite Es. cbn [shr_m].
    destruct m1 as [|p|p] eqn:Em1; try (change (2 ^ 52) with 4503599627370496 in *; lia).
    assert (Hle : (E + n <=? emax - prec) = true).
    { apply Z.leb_le. unfold emax, prec, n. lia. }
    rewrite Hle.
    exists p, (E + n), (Zpos p). split; [reflexivity|].
    split; [lia|]. split; [left; auto|]. exact Herr'.
Qed.

Lemma bpow_pos e : (0 < bpow e)%R.
Proof. apply powerRZ_lt. lra. Qed.

Lemma bpow_add a b : bpow (a + b) = (bpow a * bpow b)%R.
Proof. apply powerRZ_add. lra. Qed.

Lemma bpow_IZR k : 0 <= k -> bpow k = IZR (2 ^ k).
Proof.
  intro H. unfold bpow. rewrite <- (Z2Nat.id k H) at 1.
  rewrite <- pow_powerRZ. rewrite pow_IZR. rewrite Z2Nat.id by exact H. reflexivity.
Qed.

Lemma bpow_ge_1 k : 0 <= k -> (1 <= bpow k)%R.
Proof.
  intro H. rewrite bpow_IZR by exact H. apply IZR_le.
  pose proof (Z.pow_pos_nonneg 2 k ltac:(lia) H). lia.
Qed.

Lemma bpow_le a b : a <= b -> (bpow a <= bpow b)%R.
Proof.
  intro H. replace b with (a + (b - a)) by lia. rewrite bpow_add.
  pose proof (bpow_pos a). pose proof (bpow_ge_1 (b - a) ltac:(lia)).
  rewrite <- (Rmult_1_r (bpow a)) at 1. apply Rmult_le_compat_l; lra.
Qed.

Lemma bpow_0 : bpow 0 = 1%R.
Proof. reflexivity. Qed.

Lemma bpow_opp_mul e : (bpow e * bpow (- e) = 1)%R.
Proof. rewrite <- bpow_add. replace (e + - e) with 0 by lia. reflexivity. Qed.

Lemma Rabs_le_iff x y : (Rabs x <= y <-> - y <= x <= y)%R.
Proof.
  split; intro H.
  - unfold Rabs in H. destruct (Rcase_abs x); lra.
  - apply Rabs_le. exact H.
Qed.

Lemma Zabs_IZR_le (z y : Z) : Z.abs z <= y -> (- IZR y <= IZR z <= IZR y)%R.
Proof.
  intro H. split.
  - rewrite <- opp_IZR. apply IZR_le. lia.
  - apply IZR_le. lia.
Qed.

(** The value of a finite double. *)

Lemma round_aux_R (s : bool) M E loc a b :
  0 < M -> 53 <= Zdigits2 M -> -1074 <= Zdigits2 M + E - 53 ->
  Zdigits2 M + E - 53 + 1 <= 971 ->
  classifies (shr_record_of_loc M loc) a b ->
  exists mf ef,
    binary_round_aux prec emax s M E loc = S754_finite s mf ef /\
    2 ^ 52 <= Zpos mf < 2 ^ 53 /\
    Zdigits2 M + E - 53 <= ef <= Zdigits2 M + E - 52 /\
    let X := ((IZR M + IZR a / IZR b) * bpow E)%R in
    (Rabs (IZR (Zpos mf) * bpow ef - X) <= X * bpow (-53))%R.
Proof.
  intros HM Hd He Ho Hc.
  destruct (round_aux_spec s M E loc a b HM Hd He Ho Hc)
    as (mf & ef & m1 & Eq & Hmf & Hcase & Herr).
  cbv zeta in Hcase, Herr. set (n := Zdigits2 M - 53) in *.
  assert (Hn : 0 <= n) by (unfold n; lia).
  exists mf, ef. split; [exact Eq|]. split; [exact Hmf|].
  split; [unfold n in Hcase; lia|]. cbv zeta.
  assert (Hb : 0 < b) by (destruct Hc as [? _]; lia).
  assert (Ha : 0 <= a) by (destruct Hc as [? _]; lia).
  assert (HV : (IZR (Zpos mf) * bpow ef = IZR m1 * bpow (E + n))%R).
  { destruct Hcase as [[-> ->] | [-> E2]]; [reflexivity|].
    rewrite <- E2, mult_IZR. rewrite (bpow_add (E + n) 1).
    replace (bpow 1) with 2%R by (unfold bpow; simpl; lra). lra. }
  rewrite HV. clear HV Hcase Eq.
  (* real forms *)
  assert (Hbr : (0 < IZR b)%R) by (apply IZR_lt; exact Hb).
  assert (Har : (0 <= IZR a)%R) by (apply IZR_le; exact Ha).
  assert (Hpn : (0 < bpow n)%R) by apply bpow_pos.
  assert (HpE : (0 < bpow E)%R) by apply bpow_pos.
  assert (Hpow : IZR (2 ^ n) = bpow n) by (symmetry; apply bpow_IZR; exact Hn).
  assert (Herr2 : 2 * Z.abs (2 ^ n * b * m1 - (b * M + a)) <= 2 ^ n * b) by exact Herr.
  assert (HerrR : (- (bpow n * IZR b) <= 2 * (bpow n * IZR b * IZR m1 - (IZR b * IZR M + IZR a))
                   <= bpow n * IZR b)%R).
  { rewrite <- Hpow. rewrite <- !mult_IZR, <- plus_IZR, <- minus_IZR.
    rewrite <- (mult_IZR 2). apply Zabs_IZR_le.
    rewrite Z.abs_mul. change (Z.abs 2) with 2. exact Herr2. }
  (* lower bound on M *)
  pose proof (Zdigits2_bounds M HM) as HB.
  assert (HM52 : (bpow (52 + n) <= IZR M)%R).
  { rewrite bpow_IZR by lia. apply IZR_le.
    replace (52 + n) with (Zdigits2 M - 1) by (unfold n; lia). apply HB. }
  rewrite (bpow_add E n).
  rewrite (bpow_add 52 n) in HM52.
  assert (H52 : bpow 52 = 4503599627370496%R) by (rewrite bpow_IZR by lia; reflexivity).
  assert (H53 : (bpow (-53) * 9007199254740992 = 1)%R).
  { replace 9007199254740992%R with (bpow 53) by (rewrite bpow_IZR by lia; reflexivity).
    rewrite Rmult_comm. apply bpow_opp_mul. }
  rewrite H52 in HM52.
  set (u := bpow (-53)) in *.
  set (q := (IZR a / IZR b)%R).
  assert (Hq : (q * IZR b = IZR a)%R) by (unfold q; field; lra).
  assert (Hq0 : (0 <= q)%R).
  { unfold q. apply Rmult_le_pos; [exact Har|]. apply Rlt_le, Rinv_0_lt_compat. exact Hbr. }
  assert (Hup : (0 < u)%R) by apply bpow_pos.
  (* error in units of bpow E * bpow n *)
  assert (Hd1 : (- (bpow n) <= 2 * (bpow n * IZR m1 - (IZR M + q)) <= bpow n)%R).
  { assert (T : (2 * (bpow n * IZR b * IZR m1 - (IZR b * IZR M + IZR a))
                 = IZR b * (2 * (bpow n * IZR m1 - (IZR M + q))))%R).
    { rewrite <- Hq. ring. }
    rewrite T in HerrR. clear T.
    split.
    - apply Rmult_le_reg_l with (IZR b); [exact Hbr|]. lra.
    - apply Rmult_le_reg_l with (IZR b); [exact Hbr|]. lra. }
  apply Rabs_le_iff.
  assert (Hbound : (bpow n <= 2 * ((IZR M + q) * u))%R).
  { assert (K : (4503599627370496 * bpow n * u <= (IZR M + q) * u)%R).
    { apply Rmult_le_compat_r; lra. }
    assert (E1 : (2 * (4503599627370496 * bpow n * u) = bpow n)%R).
    { transitivity (bpow n * (u * 9007199254740992))%R; [ring|].
      rewrite H53. ring. }
    lra. }
  assert (T1 : (IZR m1 * (bpow E * bpow n) - (IZR M + q) * bpow E
                = bpow E * (bpow n * IZR m1 - (IZR M + q)))%R) by ring.
  rewrite T1.
  assert (T2 : ((IZR M + q) * bpow E * u = bpow E * ((IZR M + q) * u))%R) by ring.
  rewrite T2.
  split.
  - rewrite Ropp_mult_distr_r. apply Rmult_le_compat_l; lra.
  - apply Rmult_le_compat_l; lra.
Qed.

Lemma Pos_iter_xO (m d : positive) : Zpos (Pos.iter xO m d) = Zpos m * 2 ^ Zpos d.
Proof.
  induction d as [|d IH] using Pos.peano_ind.
  - simpl. lia.
  - rewrite Pos.iter_succ, Pos2Z.inj_xO, IH, Pos2Z.inj_succ, Z.pow_succ_r by lia. lia.
Qed.

Lemma classifies_exact M : classifies (shr_record_of_loc M loc_Exact) 0 1.
Proof. unfold classifies. simpl. lia. Qed.

Lemma binary_round_R (s : bool) (D : positive) (ez : Z) :
  let d := Zpos (digits2_pos D) in
  -1074 <= d + ez - 53 -> d + ez - 53 + 1 <= 971 ->
  exists mf ef,
    binary_round prec emax s D ez = S754_finite s mf ef /\
    2 ^ 52 <= Zpos mf < 2 ^ 53 /\
    d + ez - 53 <= ef <= d + ez - 52 /\
    (Rabs (IZR (Zpos mf) * bpow ef - IZR (Zpos D) * bpow ez)
       <= IZR (Zpos D) * bpow ez * bpow (-53))%R /\
    (d <= 53 -> (IZR (Zpos mf) * bpow ef = IZR (Zpos D) * bpow ez)%R).
Proof.
  cbv zeta. set (d := Zpos (digits2_pos D)). intros He Ho.
  pose proof (digits2_pos_bounds D) as HB. fold d in HB.
  unfold binary_round. rewrite fexp_normal by (fold d; lia). fold d.
  unfold shl_align.
  destruct (d + ez - 53 - ez) as [|k|k] eqn:Ek.
  - (* exactly 53 digits *)
    assert (Ed : d = 53) by lia.
    destruct (round_aux_R s (Zpos D) ez loc_Exact 0 1) as (mf & ef & Eq & Hmf & Hef & Herr);
      try (simpl Zdigits2; fold d; lia); [apply classifies_exact|].
    simpl Zdigits2 in Hef. fold d in Hef.
    exists mf, ef. split; [exact Eq|]. split; [exact Hmf|]. split; [lia|].
    cbv zeta in Herr.
    replace ((IZR (Zpos D) + 0 / 1) * bpow ez)%R with (IZR (Zpos D) * bpow ez)%R in Herr
      by (field).
    split; [exact Herr|]. intros _.
    destruct (round_aux_spec s (Zpos D) ez loc_Exact 0 1) as (mf' & ef' & m1 & Eq' & Hmf' & Hcase & Herr');
      try (simpl Zdigits2; fold d; lia); [apply classifies_exact|].
    rewrite Eq in Eq'. inversion Eq'. subst mf' ef'.
    cbv zeta in Hcase, Herr'. simpl Zdigits2 in *. fold d in Hcase, Herr'.
    replace (d - 53) with 0 in * by lia. change (2 ^ 0) with 1 in Herr'.
    assert (m1 = Zpos D) by lia. subst m1.
    destruct Hcase as [[-> E1] | [_ E2]].
    + rewrite E1, Z.add_0_r. reflexivity.
    + exfalso. rewrite Ed in HB. simpl in HB. lia.
  - (* more than 53 digits: rounding *)
    destruct (round_aux_R s (Zpos D) ez loc_Exact 0 1) as (mf & ef & Eq & Hmf & Hef & Herr);
      try (simpl Zdigits2; fold d; lia); [apply classifies_exact|].
    simpl Zdigits2 in Hef. fold d in Hef.
    exists mf, ef. split; [exact Eq|]. split; [exact Hmf|]. split; [lia|].
    cbv zeta in Herr.
    replace ((IZR (Zpos D) + 0 / 1) * bpow ez)%R with (IZR (Zpos D) * bpow ez)%R in Herr
      by (field).
    split; [exact Herr|]. intro. lia.
  - (* fewer than 53 digits: the mantissa is shifted left, nothing is rounded *)
    assert (Ek' : Zpos k = 53 - d) by lia.
    set (M := Zpos (Pos.iter xO D k)).
    assert (EM : M = Zpos D * 2 ^ (53 - d)) by (unfold M; rewrite Pos_iter_xO, Ek'; reflexivity).
    assert (Hp : 0 < 2 ^ (53 - d)) by (apply Z.pow_pos_nonneg; lia).
    assert (Hdig : Zdigits2 M = 53).
    { apply Zdigits2_unique; [|lia]. rewrite EM.
      replace (2 ^ (53 - 1)) with (2 ^ (d - 1) * 2 ^ (53 - d))
        by (rewrite <- Z.pow_add_r by lia; f_equal; lia).
      replace (2 ^ 53) with (2 ^ d * 2 ^ (53 - d))
        by (rewrite <- Z.pow_add_r by lia; f_equal; lia).
      split.
      - apply Z.mul_le_mono_nonneg_r; lia.
      - apply Z.mul_lt_mono_pos_r; lia. }
    destruct (round_aux_spec s M (d + ez - 53) loc_Exact 0 1)
      as (mf & ef & m1 & Eq & Hmf & Hcase & Herr);
      try (rewrite Hdig; lia); [unfold M; lia | apply classifies_exact|].
    cbv zeta in Hcase, Herr. rewrite Hdig in Hcase, Herr.
    change (53 - 53) with 0 in *. change (2 ^ 0) with 1 in Herr.
    assert (m1 = M) by lia. subst m1.
    assert (HMb : 2 ^ 52 <= M < 2 ^ 53).
    { pose proof (Zdigits2_bounds M ltac:(unfold M; lia)) as B. rewrite Hdig in B.
      exact B. }
    destruct Hcase as [[Eef E1] | [_ E2]]; [|exfalso; lia].
    fold M. exists mf, ef. split; [exact Eq|]. split; [exact Hmf|]. split; [lia|].
    assert (Hex : (IZR (Zpos mf) * bpow ef = IZR (Zpos D) * bpow ez)%R).
    { rewrite E1, Eef, EM, mult_IZR, Z.add_0_r.
      rewrite <- bpow_IZR by lia. rewrite Rmult_assoc, <- bpow_add.
      f_equal. f_equal. lia. }
    split; [|intros _; exact Hex].
    rewrite Hex. unfold Rminus. rewrite Rplus_opp_r, Rabs_R0.
    pose proof (bpow_pos ez). pose proof (bpow_pos (-53)).
    assert (0 < IZR (Zpos D))%R by (apply IZR_lt; lia).
    apply Rmult_le_pos; [apply Rmult_le_pos|]; lra.
Qed.

(** A finite, positive, normal double *)

Lemma to_Z_of_Z (z : Z) : 0 <= z < 2 ^ 63 -> Uint63.to_Z (Uint63.of_Z z) = z.
Proof.
  intro H. rewrite Uint63.of_Z_spec. apply Z.mod_small.
  change wB with (2 ^ 63). exact H.
Qed.

Lemma digits_lt (p : positive) k : 0 <= k -> Zpos p < 2 ^ k -> Zpos (digits2_pos p) <= k.
Proof.
  intros Hk H. pose proof (digits2_pos_bounds p) as B.
  destruct (Z_le_gt_dec (Zpos (digits2_pos p)) k) as [L | G]; [exact L|].
  exfalso. assert (2 ^ k <= 2 ^ (Zpos (digits2_pos p) - 1)) by (apply Z.pow_le_mono_r; lia).
  lia.
Qed.

(** [Number(z)] for a positive integer below 2^53: a normal double of value [z] *)

Lemma number_of_Z_pos (z : Z) :
  0 < z < 2 ^ 53 ->
  exists m e, Prim2SF (JS.number_of_Z z) = S754_finite false m e /\
    2 ^ 52 <= Zpos m < 2 ^ 53 /\ -52 <= e <= 1 /\ (IZR (Zpos m) * bpow e = IZR z)%R.
Proof.
  intro H. unfold JS.number_of_Z. rewrite of_uint63_spec.
  rewrite to_Z_of_Z by (change (2 ^ 63) with 9223372036854775808;
                         change (2 ^ 53) with 9007199254740992 in H; lia).
  destruct z as [|p|p]; try lia. cbn [binary_normalize].
  pose proof (digits2_pos_bounds p) as B.
  assert (Hd : Zpos (digits2_pos p) <= 53) by (apply digits_lt; lia).
  destruct (binary_round_R false p 0) as (mf & ef & Eq & Hmf & Hef & _ & Hex); try lia.
  exists mf, ef. split; [exact Eq|]. split; [exact Hmf|]. split; [lia|].
  rewrite (Hex Hd). rewrite bpow_0. ring.
Qed.

(** the same up to 2^63, with rounding *)

Lemma number_of_Z_finite (z : Z) :
  0 < z < 2 ^ 63 ->
  exists m e, Prim2SF (JS.number_of_Z z) = S754_finite false m e.
Proof.
  intro H. unfold JS.number_of_Z. rewrite of_uint63_spec.
  rewrite to_Z_of_Z by lia.
  destruct z as [|p|p]; try lia. cbn [binary_normalize].
  assert (Hd : Zpos (digits2_pos p) <= 63) by (apply digits_lt; lia).
  destruct (binary_round_R false p 0) as (mf & ef & Eq & _); try lia.
  eauto.
Qed.

Lemma new_location_classifies q m2 r :
  0 <= r < m2 -> classifies (shr_record_of_loc q (new_location m2 r)) r m2.
Proof.
  intro H. unfold new_location, new_location_even, new_location_odd.
  destruct (Z.even m2) eqn:Ev.
  - destruct (Z.eqb_spec r 0) as [-> | Hr];
      [unfold classifies; cbn [shr_record_of_loc shr_r shr_s]; lia|].
    destruct (Z.compare_spec (2 * r) m2); unfold classifies;
      cbn [shr_record_of_loc shr_r shr_s]; lia.
  - assert (Hodd : Z.odd m2 = true) by (rewrite <- Z.negb_even, Ev; reflexivity).
    apply Z.odd_spec in Hodd. destruct Hodd as [k Hk].
    destruct (Z.eqb_spec r 0) as [-> | Hr];
      [unfold classifies; cbn [shr_record_of_loc shr_r shr_s]; lia|].
    destruct (Z.compare_spec (2 * r + 1) m2); unfold classifies;
      cbn [shr_record_of_loc shr_r shr_s]; lia.
Qed.

Lemma Zdigits2_normal m : 2 ^ 52 <= Zpos m < 2 ^ 53 -> Zdigits2 (Zpos m) = 53.
Proof. intro H. apply Zdigits2_unique; [exact H | lia]. Qed.

(** division of two normal doubles *)

Lemma div_normal (x y : float) mx ex my ey :
  Prim2SF x = S754_finite false mx ex -> Prim2SF y = S754_finite false my ey ->
  normal mx ex -> normal my ey ->
  exists mq eq,
    Prim2SF (x / y) = S754_finite false mq eq /\
    2 ^ 52 <= Zpos mq < 2 ^ 53 /\ ex - ey - 53 <= eq <= ex - ey - 51 /\
    let X := ((IZR (Zpos mx) * bpow ex) / (IZR (Zpos my) * bpow ey))%R in
    (Rabs (IZR (Zpos mq) * bpow eq - X) <= X * bpow (-53))%R.
Proof.
  intros Hx Hy [Bx Ex] [By Ey].
  rewrite FloatAxioms.div_spec, Hx, Hy. unfold SF64div, SFdiv.
  unfold SFdiv_core_binary.
  rewrite (Zdigits2_normal mx Bx), (Zdigits2_normal my By).
  rewrite fexp_normal by lia.
  replace (Z.min (53 + ex - (53 + ey) - 53) (ex - ey)) with (ex - ey - 53) by lia.
  replace (ex - ey - (ex - ey - 53)) with 53 by lia.
  cbv iota. rewrite Z.shiftl_mul_pow2 by lia.
  assert (P53 : 2 ^ 53 = 9007199254740992) by reflexivity.
  assert (P52 : 2 ^ 52 = 4503599627370496) by reflexivity.
  rewrite P52, P53 in *.
  pose proof (Z_div_mod (Zpos mx * 9007199254740992) (Zpos my) ltac:(lia)) as DM.
  destruct (Z.div_eucl (Zpos mx * 9007199254740992) (Zpos my)) as [q r].
  destruct DM as [Eqr Hr].
  assert (Hq : 4503599627370496 <= q < 18014398509481984) by nia.
  assert (Hdq : 53 <= Zdigits2 q <= 54).
  { pose proof (Zdigits2_bounds q ltac:(lia)) as B.
    split.
    - destruct (Z_le_gt_dec 53 (Zdigits2 q)) as [L | G]; [exact L|].
      exfalso. assert (2 ^ Zdigits2 q <= 2 ^ 52) by (apply Z.pow_le_mono_r; lia).
      rewrite P52 in H. lia.
    - destruct (Z_le_gt_dec (Zdigits2 q) 54) as [L | G]; [exact L|].
      exfalso. assert (2 ^ 54 <= 2 ^ (Zdigits2 q - 1)) by (apply Z.pow_le_mono_r; lia).
      change (2 ^ 54) with 18014398509481984 in H. lia. }
  destruct (round_aux_R (xorb false false) q (ex - ey - 53) (new_location (Zpos my) r)
              r (Zpos my)) as (mq & eq & Eq & Hmq & Heq & Herr);
    try lia; [apply new_location_classifies; lia|].
  exists mq, eq. split; [exact Eq|]. rewrite P52, P53 in Hmq. split; [exact Hmq|].
  split; [lia|]. cbv zeta in Herr |- *.
  assert (EX : ((IZR q + IZR r / IZR (Zpos my)) * bpow (ex - ey - 53)
               = IZR (Zpos mx) * bpow ex / (IZR (Zpos my) * bpow ey))%R).
  { assert (Hmy : (0 < IZR (Zpos my))%R) by (apply IZR_lt; lia).
    pose proof (bpow_pos ey) as Pey.
    replace (ex - ey - 53) with (ex + (- ey + -53)) by lia.
    rewrite !bpow_add.
    assert (E53 : (bpow (-53) * 9007199254740992 = 1)%R).
    { replace 9007199254740992%R with (bpow 53) by (rewrite bpow_IZR by lia; reflexivity).
      rewrite Rmult_comm. apply bpow_opp_mul. }
    assert (Eey : (bpow (- ey) = / bpow ey)%R).
    { apply Rmult_eq_reg_l with (bpow ey); [|lra].
      rewrite bpow_opp_mul. field. lra. }
    rewrite Eey.
    assert (EqrR : (IZR (Zpos mx) * 9007199254740992 = IZR (Zpos my) * IZR q + IZR r)%R).
    { rewrite <- !mult_IZR, <- plus_IZR. f_equal. exact Eqr. }
    assert (T : ((IZR q + IZR r / IZR (Zpos my))
                 = IZR (Zpos mx) * 9007199254740992 / IZR (Zpos my))%R).
    { rewrite EqrR. field. lra. }
    rewrite T.
    transitivity (IZR (Zpos mx) * bpow ex / (IZR (Zpos my) * bpow ey)
                  * (bpow (-53) * 9007199254740992))%R; [field; lra|].
    rewrite E53. ring. }
  rewrite EX in Herr. exact Herr.
Qed.

Lemma shl_align_fst (m : positive) (e ez : Z) :
  ez <= e -> Zpos (fst (shl_align m e ez)) = Zpos m * 2 ^ (e - ez).
Proof.
  intro H. unfold shl_align. destruct (ez - e) as [|d|d] eqn:E; try lia.
  - replace (e - ez) with 0 by lia. simpl. lia.
  - cbn [fst]. rewrite Pos_iter_xO. f_equal. f_equal. lia.
Qed.

Lemma digits_le_pow (p : positive) k : 0 <= k -> Zpos p < 2 ^ k -> Zpos (digits2_pos p) <= k.
Proof. apply digits_lt. Qed.

Lemma IZR_pow2_bpow (m : Z) (e ez : Z) :
  ez <= e -> (IZR (m * 2 ^ (e - ez)) * bpow ez = IZR m * bpow e)%R.
Proof.
  intro H. rewrite mult_IZR, <- bpow_IZR by lia.
  rewrite Rmult_assoc, <- bpow_add. f_equal. f_equal. lia.
Qed.

(** subtraction of two positive normal doubles *)

Lemma sub_normal (x y : float) m1 e1 m2 e2 :
  Prim2SF x = S754_finite false m1 e1 -> Prim2SF y = S754_finite false m2 e2 ->
  normal m1 e1 -> normal m2 e2 ->
  let D := (IZR (Zpos m1) * bpow e1 - IZR (Zpos m2) * bpow e2)%R in
  (D = 0%R /\ Prim2SF (x - y) = S754_zero false)
  \/ exists s m e,
       Prim2SF (x - y) = S754_finite s m e /\
       2 ^ 52 <= Zpos m < 2 ^ 53 /\
       Z.min e1 e2 - 52 <= e <= Z.max e1 e2 + 2 /\
       (if s then (D < 0)%R else (0 < D)%R) /\
       (Rabs (IZR (Zpos m) * bpow e - Rabs D) <= Rabs D * bpow (-53))%R.
Proof.
  intros Hx Hy [B1 E1] [B2 E2]. cbv zeta.
  rewrite FloatAxioms.sub_spec, Hx, Hy. unfold SF64sub, SFsub. cbn [cond_Zopp].
  set (ez := Z.min e1 e2).
  rewrite (shl_align_fst m1 e1 ez) by (unfold ez; lia).
  rewrite (shl_align_fst m2 e2 ez) by (unfold ez; lia).
  set (M1 := Zpos m1 * 2 ^ (e1 - ez)). set (M2 := Zpos m2 * 2 ^ (e2 - ez)).
  assert (V1 : (IZR M1 * bpow ez = IZR (Zpos m1) * bpow e1)%R)
    by (apply IZR_pow2_bpow; unfold ez; lia).
  assert (V2 : (IZR M2 * bpow ez = IZR (Zpos m2) * bpow e2)%R)
    by (apply IZR_pow2_bpow; unfold ez; lia).
  assert (VD : (IZR (M1 - M2) * bpow ez
                = IZR (Zpos m1) * bpow e1 - IZR (Zpos m2) * bpow e2)%R).
  { rewrite minus_IZR, <- V1, <- V2. ring. }
  pose proof (bpow_pos ez) as Pez.
  (* size of the aligned mantissas *)
  assert (P53 : 2 ^ 53 = 9007199254740992) by reflexivity.
  assert (HM1 : 0 < M1 < 2 ^ (54 + Z.max e1 e2 - ez)).
  { unfold M1. assert (0 < 2 ^ (e1 - ez)) by (apply Z.pow_pos_nonneg; unfold ez; lia).
    split; [lia|].
    replace (54 + Z.max e1 e2 - ez) with (53 + (Z.max e1 e2 - e1 + 1) + (e1 - ez)) by lia.
    rewrite Z.pow_add_r by (unfold ez; lia).
    apply Z.mul_lt_mono_pos_r; [exact H|].
    rewrite Z.pow_add_r by lia.
    assert (1 <= 2 ^ (Z.max e1 e2 - e1 + 1)).
    { pose proof (Z.pow_pos_nonneg 2 (Z.max e1 e2 - e1 + 1) ltac:(lia) ltac:(lia)). lia. }
    nia. }
  assert (HM2 : 0 < M2 < 2 ^ (54 + Z.max e1 e2 - ez)).
  { unfold M2. assert (0 < 2 ^ (e2 - ez)) by (apply Z.pow_pos_nonneg; unfold ez; lia).
    split; [lia|].
    replace (54 + Z.max e1 e2 - ez) with (53 + (Z.max e1 e2 - e2 + 1) + (e2 - ez)) by lia.
    rewrite Z.pow_add_r by (unfold ez; lia).
    apply Z.mul_lt_mono_pos_r; [exact H|].
    rewrite Z.pow_add_r by lia.
    assert (1 <= 2 ^ (Z.max e1 e2 - e2 + 1)).
    { pose proof (Z.pow_pos_nonneg 2 (Z.max e1 e2 - e2 + 1) ltac:(lia) ltac:(lia)). lia. }
    nia. }
  destruct (M1 - M2) as [|p|p] eqn:ED; cbn [binary_normalize].
  - left. split; [|reflexivity]. rewrite <- VD. simpl. ring.
  - right.
    assert (Hd : Zpos (digits2_pos p) <= 54 + Z.max e1 e2 - ez)
      by (apply digits_lt; [unfold ez; lia | lia]).
    destruct (binary_round_R false p ez) as (mf & ef & Eq & Hmf & Hef & Herr & _);
      [unfold ez; lia | unfold ez; lia |].
    exists false, mf, ef. split; [exact Eq|]. split; [exact Hmf|].
    split; [unfold ez in *; lia|].
    rewrite VD in Herr.
    assert (Dpos : (0 < IZR (Zpos m1) * bpow e1 - IZR (Zpos m2) * bpow e2)%R).
    { rewrite <- VD. apply Rmult_lt_0_compat; [apply IZR_lt; lia | exact Pez]. }
    split; [exact Dpos|]. rewrite (Rabs_pos_eq _ (Rlt_le _ _ Dpos)). exact Herr.
  - right.
    assert (Hd : Zpos (digits2_pos p) <= 54 + Z.max e1 e2 - ez)
      by (apply digits_lt; [unfold ez; lia | lia]).
    destruct (binary_round_R true p ez) as (mf & ef & Eq & Hmf & Hef & Herr & _);
      [unfold ez; lia | unfold ez; lia |].
    exists true, mf, ef. split; [exact Eq|]. split; [exact Hmf|].
    split; [unfold ez in *; lia|].
    assert (VD' : (IZR (Zpos p) * bpow ez
                   = - (IZR (Zpos m1) * bpow e1 - IZR (Zpos m2) * bpow e2))%R).
    { rewrite <- VD. change (Zneg p) with (- Zpos p). rewrite opp_IZR. ring. }
    rewrite VD' in Herr.
    assert (Dneg : (IZR (Zpos m1) * bpow e1 - IZR (Zpos m2) * bpow e2 < 0)%R).
    { rewrite <- VD. change (Zneg p) with (- Zpos p). rewrite opp_IZR.
      assert (0 < IZR (Zpos p) * bpow ez)%R
        by (apply Rmult_lt_0_compat; [apply IZR_lt; lia | exact Pez]).
      lra. }
    split; [exact Dneg|]. rewrite (Rabs_left _ Dneg). exact Herr.
Qed.

(** product of a normal double and a positive normal double *)

Lemma mul_normal (x y : float) s m1 e1 m2 e2 :
  Prim2SF x = S754_finite s m1 e1 -> Prim2SF y = S754_finite false m2 e2 ->
  normal m1 e1 -> normal m2 e2 ->
  exists m e,
    Prim2SF (x * y) = S754_finite s m e /\
    2 ^ 52 <= Zpos m < 2 ^ 53 /\
    e1 + e2 + 52 <= e <= e1 + e2 + 54 /\
    let X := (IZR (Zpos m1) * bpow e1 * (IZR (Zpos m2) * bpow e2))%R in
    (Rabs (IZR (Zpos m) * bpow e - X) <= X * bpow (-53))%R.
Proof.
  intros Hx Hy [B1 E1] [B2 E2].
  rewrite FloatAxioms.mul_spec, Hx, Hy. unfold SF64mul, SFmul. rewrite xorb_false_r.
  assert (P53 : 2 ^ 53 = 9007199254740992) by reflexivity.
  assert (P52 : 2 ^ 52 = 4503599627370496) by reflexivity.
  rewrite P52, P53 in *.
  assert (HP : 2 ^ 104 <= Zpos (m1 * m2) < 2 ^ 106).
  { rewrite Pos2Z.inj_mul.
    change (2 ^ 104) with (4503599627370496 * 4503599627370496).
    change (2 ^ 106) with (9007199254740992 * 9007199254740992). nia. }
  assert (Hd : 105 <= Zdigits2 (Zpos (m1 * m2)) <= 106).
  { pose proof (Zdigits2_bounds (Zpos (m1 * m2)) ltac:(lia)) as B.
    split.
    - destruct (Z_le_gt_dec 105 (Zdigits2 (Zpos (m1 * m2)))) as [L | G]; [exact L|].
      exfalso.
      assert (2 ^ Zdigits2 (Zpos (m1 * m2)) <= 2 ^ 104) by (apply Z.pow_le_mono_r; lia).
      lia.
    - destruct (Z_le_gt_dec (Zdigits2 (Zpos (m1 * m2))) 106) as [L | G]; [exact L|].
      exfalso.
      assert (2 ^ 106 <= 2 ^ (Zdigits2 (Zpos (m1 * m2)) - 1)) by (apply Z.pow_le_mono_r; lia).
      lia. }
  destruct (round_aux_R s (Zpos (m1 * m2)) (e1 + e2) loc_Exact 0 1)
    as (mf & ef & Eq & Hmf & Hef & Herr); try lia; [apply classifies_exact|].
  exists mf, ef. split; [exact Eq|]. rewrite P52, P53 in Hmf. split; [exact Hmf|].
  split; [lia|]. cbv zeta in Herr |- *.
  replace ((IZR (Zpos (m1 * m2)) + 0 / 1) * bpow (e1 + e2))%R
    with (IZR (Zpos m1) * bpow e1 * (IZR (Zpos m2) * bpow e2))%R in Herr.
  - exact Herr.
  - rewrite Pos2Z.inj_mul, mult_IZR, bpow_add. field.
Qed.

Lemma Prim2SF_zero : Prim2SF PrimFloat.zero = S754_zero false.
Proof. reflexivity. Qed.

Lemma SFeqb_finite_refl s m e : SFeqb (S754_finite s m e) (S754_finite s m e) = true.
Proof.
  unfold SFeqb, SFcompare. rewrite Z.compare_refl, Pos.compare_cont_refl.
  destruct s; reflexivity.
Qed.

Lemma Math_max0_pos y m e : Prim2SF y = S754_finite false m e -> JS.Math_max0 y = y.
Proof.
  intro H. unfold JS.Math_max0, PrimFloat.is_nan.
  rewrite FloatAxioms.eqb_spec, H, SFeqb_finite_refl. cbn [negb].
  rewrite FloatAxioms.ltb_spec, H, Prim2SF_zero. reflexivity.
Qed.

Lemma Math_max0_neg y m e : Prim2SF y = S754_finite true m e -> JS.Math_max0 y = PrimFloat.zero.
Proof.
  intro H. unfold JS.Math_max0, PrimFloat.is_nan.
  rewrite FloatAxioms.eqb_spec, H, SFeqb_finite_refl. cbn [negb].
  rewrite FloatAxioms.ltb_spec, H, Prim2SF_zero. reflexivity.
Qed.

Lemma Math_max0_zero y s : Prim2SF y = S754_zero s -> JS.Math_max0 y = PrimFloat.zero.
Proof.
  intro H. unfold JS.Math_max0, PrimFloat.is_nan.
  rewrite FloatAxioms.eqb_spec, H. cbn [SFeqb SFcompare negb].
  rewrite FloatAxioms.ltb_spec, H, Prim2SF_zero. reflexivity.
Qed.

Lemma number_of_Z_0 : JS.number_of_Z 0 = PrimFloat.zero.
Proof. reflexivity. Qed.

(** a double that is zero *)

Lemma round_max_zero x s : Prim2SF x = S754_zero s -> JS.Math_max0 (JS.Math_round x) = JS.number_of_Z 0.
Proof.
  intro H. unfold JS.Math_round. rewrite H. rewrite number_of_Z_0.
  apply (Math_max0_zero x s H).
Qed.

(** a negative double *)

Lemma round_max_neg x m e :
  Prim2SF x = S754_finite true m e -> Zpos m < 2 ^ 53 ->
  JS.Math_max0 (JS.Math_round x) = JS.number_of_Z 0.
Proof.
  intros H Hm. rewrite number_of_Z_0. unfold JS.Math_round. rewrite H.
  destruct (0 <=? e) eqn:Ee; [exact (Math_max0_neg x m e H)|].
  cbv zeta. apply Z.leb_gt in Ee.
  set (d := 2 ^ (- e)).
  assert (Hd : 0 < d) by (apply Z.pow_pos_nonneg; lia).
  set (n := (2 * - Zpos m + d) / (2 * d)).
  assert (Hn : n <= 0).
  { unfold n. apply Z.lt_succ_r. apply Z.div_lt_upper_bound; lia. }
  assert (Hn' : - Zpos m - 1 <= n).
  { unfold n. apply Z.div_le_lower_bound; [lia|]. nia. }
  destruct (n =? 0) eqn:En; [reflexivity|].
  apply Z.eqb_neq in En.
  assert (Hlt : (n <? 0) = true) by (apply Z.ltb_lt; lia). rewrite Hlt.
  unfold JS.float_of_sign_Z.
  destruct (number_of_Z_finite (Z.abs n)) as (m' & e' & E').
  { change (2 ^ 53) with 9007199254740992 in Hm.
    change (2 ^ 63) with 9223372036854775808. lia. }
  apply (Math_max0_neg _ m' e'). rewrite FloatAxioms.opp_spec, E'. reflexivity.
Qed.

(** a positive double below 2^52: the closest integer, a tie going up *)

Lemma round_max_pos x m e :
  Prim2SF x = S754_finite false m e -> Zpos m < 2 ^ 53 -> e < 0 ->
  JS.Math_max0 (JS.Math_round x) = JS.number_of_Z ((2 * Zpos m + 2 ^ (- e)) / (2 * 2 ^ (- e))).
Proof.
  intros H Hm He. unfold JS.Math_round. rewrite H.
  assert (Ee : (0 <=? e) = false) by (apply Z.leb_gt; exact He). rewrite Ee. cbv zeta.
  set (d := 2 ^ (- e)).
  assert (Hd : 0 < d) by (apply Z.pow_pos_nonneg; lia).
  set (n := (2 * Zpos m + d) / (2 * d)).
  assert (Hn : 0 <= n) by (unfold n; apply Z.div_pos; lia).
  assert (Hn' : n <= Zpos m).
  { unfold n. apply Z.lt_succ_r. apply Z.div_lt_upper_bound; [lia|]. nia. }
  destruct (n =? 0) eqn:En.
  - apply Z.eqb_eq in En. rewrite En, number_of_Z_0.
    apply (Math_max0_zero _ false). reflexivity.
  - apply Z.eqb_neq in En.
    assert (Hlt : (n <? 0) = false) by (apply Z.ltb_ge; lia). rewrite Hlt.
    unfold JS.float_of_sign_Z. rewrite Z.abs_eq by lia.
    destruct (number_of_Z_finite n) as (m' & e' & E').
    { change (2 ^ 53) with 9007199254740992 in Hm.
      change (2 ^ 63) with 9223372036854775808. lia. }
    apply (Math_max0_pos _ m' e' E').
Qed.

Lemma Prim2SF_one : Prim2SF PrimFloat.one = S754_finite false 4503599627370496 (-52).
Proof. reflexivity. Qed.

Lemma Prim2SF_hundred : Prim2SF (JS.number_of_Z 100) = S754_finite false 7036874417766400 (-46).
Proof. reflexivity. Qed.

Lemma one_val : (IZR 4503599627370496 * bpow (-52) = 1)%R.
Proof.
  replace (IZR 4503599627370496) with (bpow 52) by (rewrite bpow_IZR by lia; reflexivity).
  apply bpow_opp_mul.
Qed.

Lemma hundred_val : (IZR 7036874417766400 * bpow (-46) = 100)%R.
Proof.
  replace (IZR 7036874417766400) with (100 * bpow 46)%R
    by (rewrite bpow_IZR by lia; rewrite <- mult_IZR; reflexivity).
  rewrite Rmult_assoc, bpow_opp_mul. ring.
Qed.

Lemma u_val : (bpow (-53) * 9007199254740992 = 1)%R.
Proof.
  replace 9007199254740992%R with (bpow 53) by (rewrite bpow_IZR by lia; reflexivity).
  rewrite Rmult_comm. apply bpow_opp_mul.
Qed.

Lemma bpow_lt_1 e : (bpow e < 1)%R -> e < 0.
Proof.
  intro H. destruct (Z_lt_le_dec e 0) as [L | G]; [exact L|].
  pose proof (bpow_ge_1 e G). lra.
Qed.

Lemma normal_one : normal 4503599627370496 (-52).
Proof. unfold normal. simpl. lia. Qed.

Lemma normal_hundred : normal 7036874417766400 (-46).
Proof. unfold normal. simpl. lia. Qed.

(** the formula of the specification when the output is not smaller *)

Lemma spec_ratio_zero c o : 0 < o -> o <= c -> spec_ratio c o = 0.
Proof.
  intros Ho Hc. unfold spec_ratio.
  assert ((200 * (o - c) + o) / (2 * o) <= 0); [|lia].
  apply Z.lt_succ_r. apply Z.div_lt_upper_bound; lia.
Qed.

Lemma compression_ratio_0 o :
  0 < o < 2 ^ 53 -> compression_ratio 0 o = JS.number_of_Z 100 /\ spec_ratio 0 o = 100.
Proof.
  intro Ho. split.
  - destruct (number_of_Z_pos o Ho) as (mo & eo & Eo & _).
    assert (E : PrimFloat.div (JS.number_of_Z 0) (JS.number_of_Z o) = PrimFloat.zero).
    { apply Prim2SF_inj. rewrite FloatAxioms.div_spec, Eo. reflexivity. }
    unfold compression_ratio. rewrite E. reflexivity.
  - unfold spec_ratio. rewrite Z.sub_0_r.
    replace (200 * o + o) with (100 * (2 * o) + o) by lia.
    rewrite Z.div_add_l by lia. rewrite Z.div_small by lia. lia.
Qed.

(** the quotient of two sizes, scaled by the divisor *)

Lemma quotient_sizes c o :
  0 < c < 2 ^ 53 -> 0 < o < 2 ^ 53 ->
  exists mq eq,
    Prim2SF (PrimFloat.div (JS.number_of_Z c) (JS.number_of_Z o)) = S754_finite false mq eq /\
    2 ^ 52 <= Zpos mq < 2 ^ 53 /\ -106 <= eq <= 2 /\
    (- (IZR c * bpow (-53)) <= IZR o * (IZR (Zpos mq) * bpow eq) - IZR c
       <= IZR c * bpow (-53))%R.
Proof.
  intros Hc Ho.
  destruct (number_of_Z_pos c Hc) as (mc & ec & Ec & Bc & Xc & Vc).
  destruct (number_of_Z_pos o Ho) as (mo & eo & Eo & Bo & Xo & Vo).
  destruct (div_normal _ _ mc ec mo eo Ec Eo) as (mq & eq & Eq & Bq & Xq & Vq);
    [split; [exact Bc | lia] | split; [exact Bo | lia] |].
  exists mq, eq. split; [exact Eq|]. split; [exact Bq|]. split; [lia|].
  cbv zeta in Vq. rewrite Vc, Vo in Vq.
  set (v := (IZR (Zpos mq) * bpow eq)%R) in *.
  set (u := bpow (-53)) in *.
  assert (Hro : (0 < IZR o)%R) by (apply IZR_lt; lia).
  apply Rabs_le_iff in Vq.
  assert (E1 : (IZR o * (v - IZR c / IZR o) = IZR o * v - IZR c)%R) by (field; lra).
  assert (E2 : (IZR o * (IZR c / IZR o * u) = IZR c * u)%R) by (field; lra).
  destruct Vq as [L U].
  apply (Rmult_le_compat_l (IZR o)) in L; [|lra].
  apply (Rmult_le_compat_l (IZR o)) in U; [|lra].
  rewrite E1 in L, U. rewrite E2 in U.
  replace (IZR o * - (IZR c / IZR o * u))%R with (- (IZR c * u))%R in L by (field; lra).
  split; assumption.
Qed.

(** rounding a positive double below 2^52 to the nearest integer *)

Lemma round_max_nearest x m e :
  Prim2SF x = S754_finite false m e -> 2 ^ 52 <= Zpos m < 2 ^ 53 ->
  (IZR (Zpos m) * bpow e < 4503599627370496)%R ->
  exists n, JS.Math_max0 (JS.Math_round x) = JS.number_of_Z n /\ 0 <= n /\
    (IZR n - / 2 <= IZR (Zpos m) * bpow e < IZR n + / 2)%R.
Proof.
  intros H Hm Hv.
  assert (HM : (4503599627370496 <= IZR (Zpos m))%R) by (apply IZR_le; lia).
  assert (He : e < 0).
  { apply bpow_lt_1. pose proof (bpow_pos e) as P.
    destruct (Rlt_le_dec (bpow e) 1) as [L | G]; [exact L|]. exfalso.
    assert (4503599627370496 * 1 <= IZR (Zpos m) * bpow e)%R
      by (apply Rmult_le_compat; lra).
    lra. }
  exists ((2 * Zpos m + 2 ^ (- e)) / (2 * 2 ^ (- e))).
  split; [apply (round_max_pos x m e H); lia|].
  set (d := 2 ^ (- e)).
  assert (Hd : 0 < d) by (apply Z.pow_pos_nonneg; lia).
  set (n := (2 * Zpos m + d) / (2 * d)).
  assert (Hn : 2 * d * n <= 2 * Zpos m + d < 2 * d * n + 2 * d).
  { unfold n. pose proof (Z.div_mod (2 * Zpos m + d) (2 * d) ltac:(lia)) as DM.
    pose proof (Z.mod_pos_bound (2 * Zpos m + d) (2 * d) ltac:(lia)) as MB. lia. }
  split; [unfold n; apply Z.div_pos; lia|].
  assert (Db : (IZR d * bpow e = 1)%R).
  { unfold d. rewrite <- bpow_IZR by lia. rewrite Rmult_comm. apply bpow_opp_mul. }
  pose proof (bpow_pos e) as P.
  destruct Hn as [L U]. apply IZR_le in L. apply IZR_lt in U.
  rewrite !mult_IZR in L. rewrite !plus_IZR, !mult_IZR in U. rewrite plus_IZR, mult_IZR in L.
  apply (Rmult_le_compat_r (bpow e)) in L; [|lra].
  apply (Rmult_lt_compat_r (bpow e)) in U; [|lra].
  replace (2 * IZR d * IZR n * bpow e)%R with (2 * IZR n * (IZR d * bpow e))%R in L by ring.
  replace ((2 * IZR (Zpos m) + IZR d) * bpow e)%R
    with (2 * (IZR (Zpos m) * bpow e) + IZR d * bpow e)%R in L, U by ring.
  replace ((2 * IZR d * IZR n + 2 * IZR d) * bpow e)%R
    with (2 * IZR n * (IZR d * bpow e) + 2 * (IZR d * bpow e))%R in U by ring.
  rewrite Db in L, U. lra.
Qed.

(** an integer within half of the exact percentage is the rounded one,
    up to the choice at a tie *)

Lemma nearest_is_spec c o n :
  0 < o -> 0 <= n ->
  2 * o * n - o - 1 < 200 * (o - c) < 2 * o * n + o + 1 ->
  n = spec_ratio c o \/ (is_tie c o = true /\ n = spec_ratio c o - 1).
Proof.
  intros Ho Hn H. unfold spec_ratio, is_tie.
  set (T := 200 * (o - c) + o) in *.
  assert (HT : 2 * o * n <= T <= 2 * o * n + 2 * o) by (unfold T; lia).
  destruct (Z.eq_dec T (2 * o * n + 2 * o)) as [E | NE].
  - right.
    assert (ET : T = (n + 1) * (2 * o)) by lia.
    rewrite ET. rewrite Z.mod_mul by lia. rewrite Z.div_mul by lia.
    split; [reflexivity | lia].
  - left.
    assert (ED : T / (2 * o) = n).
    { symmetry. apply (Z.div_unique T (2 * o) n (T - 2 * o * n)); lia. }
    rewrite ED. lia.
Qed.

Lemma mul_zero_hundred x :
  Prim2SF x = S754_zero false ->
  Prim2SF (PrimFloat.mul x (JS.number_of_Z 100)) = S754_zero false.
Proof.
  intro H. rewrite FloatAxioms.mul_spec, H, Prim2SF_hundred. reflexivity.
Qed.

(** The ratio the code computes for an output of [c] bytes and an input of
    [o] bytes is the integer of the formula on exact numbers; at a tie it
    may be the integer below, because the quotient was rounded first. *)
Lemma compression_ratio_spec c o :
  0 <= c < 2 ^ 53 -> 0 < o < 2 ^ 40 ->
  exists r, compression_ratio c o = JS.number_of_Z r /\
    (r = spec_ratio c o \/ (is_tie c o = true /\ r = spec_ratio c o - 1)).
Proof.
  intros Hc Ho.
  assert (Ho' : 0 < o < 2 ^ 53).
  { change (2 ^ 40) with 1099511627776 in Ho.
    change (2 ^ 53) with 9007199254740992. lia. }
  destruct (Z.eq_dec c 0) as [-> | Hc0].
  { destruct (compression_ratio_0 o Ho') as [E S]. exists 100. rewrite E, S. auto. }
  destruct (quotient_sizes c o ltac:(lia) Ho') as (mq & eq & Eq & Bq & Xq & Vq).
  assert (Nq : normal mq eq) by (split; [exact Bq | lia]).
  set (Q := PrimFloat.div (JS.number_of_Z c) (JS.number_of_Z o)) in *.
  set (vq := (IZR (Zpos mq) * bpow eq)%R) in *.
  set (u := bpow (-53)) in *.
  pose proof u_val as Hu. fold u in Hu.
  assert (Hu0 : (0 < u)%R) by apply bpow_pos.
  assert (Hro : (0 < IZR o)%R) by (apply IZR_lt; lia).
  assert (Hrc : (0 < IZR c)%R) by (apply IZR_lt; lia).
  assert (Hcu : (IZR c * u < 1)%R).
  { assert (IZR c < 9007199254740992)%R
      by (apply IZR_lt; change (2 ^ 53) with 9007199254740992 in Hc; lia).
    rewrite <- Hu. rewrite (Rmult_comm u). apply Rmult_lt_compat_r; lra. }
  assert (Hvq : (0 < vq)%R).
  { unfold vq. apply Rmult_lt_0_compat; [apply IZR_lt; lia | apply bpow_pos]. }
  unfold compression_ratio. fold Q.
  pose proof (sub_normal PrimFloat.one Q _ _ mq eq Prim2SF_one Eq normal_one Nq) as HS.
  cbv zeta in HS. rewrite one_val in HS. fold vq in HS.
  destruct HS as [[D0 Ez] | (sd & md & ed & Ed & Bd & Xd & Sd & Vd)].
  - (* the difference is zero *)
    clearbody vq u. exists 0. split.
    + apply (round_max_zero _ false). apply mul_zero_hundred. exact Ez.
    + left. symmetry. apply spec_ratio_zero; [lia|].
      assert (Hv1 : vq = 1%R) by lra.
      assert (IZR o < IZR c + 1)%R by (destruct Vq as [_ U]; rewrite Hv1 in U; lra).
      rewrite <- plus_IZR in H. apply lt_IZR in H. lia.
  - fold u in Vd.
    destruct (mul_normal _ _ sd md ed _ _ Ed Prim2SF_hundred) as (mm & em & Em & Bm & Xm & Vm);
      [split; [exact Bd | lia] | exact normal_hundred |].
    cbv zeta in Vm. rewrite hundred_val in Vm. fold u in Vm.
    set (vd := (IZR (Zpos md) * bpow ed)%R) in *.
    remember (IZR (Zpos mm) * bpow em)%R as vm eqn:Evm.
    clearbody vq u vd.
    destruct sd.
    + (* the difference is negative *)
      exists 0. split.
      * apply (round_max_neg _ mm em Em). lia.
      * left. symmetry. apply spec_ratio_zero; [lia|].
        assert (G : (IZR o * 1 < IZR o * vq)%R) by (apply Rmult_lt_compat_l; lra).
        assert (G' : (IZR o < IZR c + 1)%R) by lra.
        rewrite <- plus_IZR in G'. apply lt_IZR in G'. lia.
    + (* the difference is positive *)
      assert (Hco : c <= o).
      { assert (G : (IZR o * vq < IZR o * 1)%R) by (apply Rmult_lt_compat_l; lra).
        assert (G' : (IZR c - 1 < IZR o)%R) by lra.
        rewrite <- minus_IZR in G'. apply lt_IZR in G'. lia. }
      assert (Hrco : (IZR c <= IZR o)%R) by (apply IZR_le; exact Hco).
      rewrite (Rabs_pos_eq (1 - vq)) in Vd by lra.
      apply Rabs_le_iff in Vd. apply Rabs_le_iff in Vm.
      set (W := (IZR o * u)%R).
      assert (HW : (800 * W < 1)%R).
      { unfold W. assert (IZR o < 1099511627776)%R
          by (apply IZR_lt; change (2 ^ 40) with 1099511627776 in Ho; lia).
        assert (IZR o * u < 1099511627776 * u)%R by (apply Rmult_lt_compat_r; lra).
        lra. }
      assert (HW0 : (0 < W)%R) by (unfold W; apply Rmult_lt_0_compat; lra).
      assert (Hcw : (IZR c * u <= W)%R) by (unfold W; apply Rmult_le_compat_r; lra).
      (* scaled quantities *)
      set (PD := (IZR o * (1 - vq))%R).
      assert (HPD : (IZR o - IZR c - W <= PD <= IZR o - IZR c + W)%R)
        by (unfold PD; lra).
      assert (HPD1 : (0 < PD <= IZR o)%R) by (unfold PD; split; nra).
      assert (HPDu : (PD * u <= W)%R) by (unfold W; apply Rmult_le_compat_r; lra).
      set (Pd := (IZR o * vd)%R).
      assert (HPd : (PD - W <= Pd <= PD + W)%R).
      { destruct Vd as [L U].
        apply (Rmult_le_compat_l (IZR o)) in L; [|lra].
        apply (Rmult_le_compat_l (IZR o)) in U; [|lra].
        replace (IZR o * (vd - (1 - vq)))%R with (Pd - PD)%R in L, U by (unfold Pd, PD; ring).
        replace (IZR o * ((1 - vq) * u))%R with (PD * u)%R in U by (unfold PD; ring).
        replace (IZR o * - ((1 - vq) * u))%R with (- (PD * u))%R in L by (unfold PD; ring).
        lra. }
      assert (HWo : (W <= IZR o)%R).
      { unfold W. rewrite <- (Rmult_1_r (IZR o)) at 2. apply Rmult_le_compat_l; lra. }
      assert (HPdu : (Pd * u <= 2 * W)%R).
      { assert (Pd * u <= (2 * IZR o) * u)%R by (apply Rmult_le_compat_r; lra).
        unfold W. lra. }
      set (Pm := (IZR o * vm)%R).
      assert (HPm : (100 * Pd - 200 * W <= Pm <= 100 * Pd + 200 * W)%R).
      { destruct Vm as [L U].
        apply (Rmult_le_compat_l (IZR o)) in L; [|lra].
        apply (Rmult_le_compat_l (IZR o)) in U; [|lra].
        replace (IZR o * (vm - vd * 100))%R with (Pm - 100 * Pd)%R in L, U
          by (unfold Pm, Pd; ring).
        replace (IZR o * (vd * 100 * u))%R with (100 * (Pd * u))%R in U by (unfold Pd; ring).
        replace (IZR o * - (vd * 100 * u))%R with (- (100 * (Pd * u)))%R in L
          by (unfold Pd; ring).
        lra. }
      assert (Hvm : (vm < 4503599627370496)%R).
      { assert (Pm <= 501 * IZR o)%R by lra.
        unfold Pm in H. nra. }
      assert (Hvm' : (IZR (Zpos mm) * bpow em < 4503599627370496)%R)
        by (rewrite <- Evm; exact Hvm).
      destruct (round_max_nearest _ mm em Em Bm Hvm') as (n & En & Hn & Vn).
      rewrite <- Evm in Vn.
      exists n. split; [exact En|].
      apply nearest_is_spec; [lia | exact Hn |].
      assert (Pn : (IZR o * IZR n - IZR o * / 2 <= Pm < IZR o * IZR n + IZR o * / 2)%R).
      { destruct Vn as [L U].
        apply (Rmult_le_compat_l (IZR o)) in L; [|lra].
        apply (Rmult_lt_compat_l (IZR o)) in U; [|lra].
        unfold Pm. lra. }
      split; apply lt_IZR;
        rewrite ?plus_IZR, ?minus_IZR, ?mult_IZR, ?minus_IZR; lra.
Qed.

End Doubles.

(** ** The stored compression ratio *)

Lemma In_update_id i f l (job : CompressedImage) :
  (forall img, id img = i -> id (f img) = id img) ->
  In job (update_id i f l) -> id job = i ->
  exists old, In old l /\ id old = i /\ job = f old.
Proof.
  intros Hf Hin Hid. unfold update_id in Hin. apply in_map_iff in Hin.
  destruct Hin as (old & E & Hold). exists old.
  destruct (String.eqb (id old) i) eqn:Ei.
  - apply String.eqb_eq in Ei. auto.
  - apply String.eqb_neq in Ei. subst job. contradiction.
Qed.

(** [spec_ratio] is the formula of the specification on real numbers: the
    integer part of (1 - outputSize/inputSize) * 100 + 1/2, or 0 when that
    is negative. *)
Lemma spec_ratio_round (outputSize inputSize : Z) :
  (0 < inputSize)%Z ->
  exists n : Z,
    spec_ratio outputSize inputSize = Z.max 0 n /\
    (IZR n <= (1 - IZR outputSize / IZR inputSize) * 100 + / 2 < IZR n + 1)%R.
Proof.
  intro Ho. unfold spec_ratio.
  set (T := (200 * (inputSize - outputSize) + inputSize)%Z).
  exists (T / (2 * inputSize))%Z. split; [reflexivity|].
  set (n := (T / (2 * inputSize))%Z).
  assert (Hn : (2 * inputSize * n <= T < 2 * inputSize * n + 2 * inputSize)%Z).
  { unfold n. pose proof (Z.div_mod T (2 * inputSize) ltac:(lia)) as DM.
    pose proof (Z.mod_pos_bound T (2 * inputSize) ltac:(lia)) as MB. lia. }
  assert (Hro : (0 < IZR inputSize)%R) by (apply IZR_lt; lia).
  set (X := ((1 - IZR outputSize / IZR inputSize) * 100 + / 2)%R).
  assert (EX : (2 * IZR inputSize * X = IZR T)%R).
  { unfold T, X. rewrite plus_IZR, mult_IZR, minus_IZR. field. lra. }
  destruct Hn as [L U]. apply IZR_le in L. apply IZR_lt in U.
  rewrite !mult_IZR in L. rewrite plus_IZR, !mult_IZR in U.
  rewrite <- EX in L, U. clearbody X n T.
  split.
  - apply (Rmult_le_reg_l (2 * IZR inputSize)); lra.
  - apply (Rmult_lt_reg_l (2 * IZR inputSize)); lra.
Qed.

Lemma stored_ratio_75 : compression_ratio 250000 1000000 = JS.number_of_Z 75.
Proof. vm_compute. reflexivity. Qed.

(** What a settled compression stores for the job. *)
Lemma settled_record (cf : File) (url : string) (engine : JS.RegExpResult)
  (file : File) (st : Settings) (r : CompressResult) (old : CompressedImage) :
  (0 <= file_size cf < 2 ^ 53)%Z ->
  (0 < file_size file < 2 ^ 40)%Z ->
  compressImage file st (Resolved cf url engine) = Some r ->
  status (apply_result r old) = Compressed /\
  compressedSize (apply_result r old) = file_size cf /\
  compressedFile (apply_result r old) = Some cf /\
  ratio_as_specified (compressionRatio (apply_result r old))
    (file_size cf) (file_size file) /\
  (file_size file = 1000000%Z -> file_size cf = 250000%Z ->
   compressionRatio (apply_result r old) = 75%float).
Proof.
  intros Hc Ho Hr. apply compressImage_Some in Hr.
  destruct Hr as (cf' & url' & engine' & newName & E & _ & ->).
  inversion E; subst cf' url' engine'. simpl.
  split; [reflexivity|]. split; [reflexivity|]. split; [reflexivity|]. split.
  - destruct (compression_ratio_spec (file_size cf) (file_size file) Hc Ho) as (n & En & Hn).
    exists n. split; assumption.
  - intros -> ->. vm_compute. reflexivity.
Qed.

(** C9. When a compression yields a result for an input of [inputSize] bytes
    (0 < inputSize < 2^40) and the compressed file has [outputSize] bytes
    (below 2^53), every record of the job is stored with the status
    Compressed, the output size and a compression ratio that is the integer
    max(0, round((1 - outputSize/inputSize) * 100)) of the specification,
    except that at a tie, where (1 - outputSize/inputSize) * 100 is half-way
    between two integers, it may be the integer below; this holds whether
    the compression was started by [processQueue] or by a re-run. For
    1,000,000 bytes in and 250,000 bytes out the stored ratio is 75. *)
Theorem stored_compression_ratio (s : State) (cf : File) (url : string)
  (engine : JS.RegExpResult) (job : CompressedImage) :
  (0 <= file_size cf < 2 ^ 53)%Z ->
  (forall nextId img cl r,
      (0 < file_size (originalFile img) < 2 ^ 40)%Z ->
      compressImage (originalFile img) (cl_settings cl) (Resolved cf url engine) = Some r ->
      In job (images (processQueue_settle nextId img cl (Resolved cf url engine) s)) ->
      id job = nextId ->
      status job = Compressed /\ compressedSize job = file_size cf /\
      compressedFile job = Some cf /\
      ratio_as_specified (compressionRatio job)
        (file_size cf) (file_size (originalFile img)) /\
      (file_size (originalFile img) = 1000000%Z -> file_size cf = 250000%Z ->
       compressionRatio job = 75%float))
  /\ (forall sel st r,
      (0 < file_size (originalFile sel) < 2 ^ 40)%Z ->
      compressImage (originalFile sel) st (Resolved cf url engine) = Some r ->
      In job (images (recompress_settle sel st (Resolved cf url engine) s)) ->
      id job = id sel ->
      status job = Compressed /\ compressedSize job = file_size cf /\
      compressedFile job = Some cf /\
      ratio_as_specified (compressionRatio job)
        (file_size cf) (file_size (originalFile sel)) /\
      (file_size (originalFile sel) = 1000000%Z -> file_size cf = 250000%Z ->
       compressionRatio job = 75%float)).
Proof.
  intro Hc. split.
  - intros nextId img cl r Ho Hr Hin Hid. unfold processQueue_settle in Hin.
    rewrite Hr in Hin. simpl in Hin.
    apply In_update_id in Hin; [|auto|exact Hid].
    destruct Hin as (old & _ & _ & ->).
    exact (settled_record cf url engine _ _ r old Hc Ho Hr).
  - intros sel st r Ho Hr Hin Hid. unfold recompress_settle in Hin.
    rewrite Hr in Hin. simpl in Hin.
    apply In_update_id in Hin; [|auto|exact Hid].
    destruct Hin as (old & _ & _ & ->).
    exact (settled_record cf url engine _ _ r sel Hc Ho Hr).
Qed.

Lemma stored_compression_ratio_witness :
  let s := Sample.state_after
             [EvFiles (Some [Sample.png "1" 1000000]) Sample.draws] in
  let cf := {| file_name := "1.webp"; file_type := "image/webp"; file_size := 250000 |} in
  let img := Sample.first_job s in
  let o := Resolved cf "blob:z" JS.NoMatch in
  let s' := processQueue_settle "a" img (closure_of s) o s in
  let job := Sample.first_job s' in
  ((0 <= file_size cf < 2 ^ 53)%Z /\
   (0 < file_size (originalFile img) < 2 ^ 40)%Z /\
   In job (images s') /\ id job = "a") /\
  status job = Compressed /\ compressedSize job = 250000%Z /\
  compressedFile job = Some cf /\
  ratio_as_specified (compressionRatio job) 250000 1000000 /\
  (file_size (originalFile img) = 1000000%Z -> file_size cf = 250000%Z ->
   compressionRatio job = 75%float).
Proof.
  cbv zeta.
  set (s := Sample.state_after _).
  set (cf := mkFile "1.webp" "image/webp" 250000).
  set (img := Sample.first_job s).
  set (o := Resolved cf "blob:z" JS.NoMatch).
  set (s' := processQueue_settle "a" img (closure_of s) o s).
  set (job := Sample.first_job s').
  assert (Hc : (0 <= file_size cf < 2 ^ 53)%Z) by (vm_compute; split; [discriminate | reflexivity]).
  assert (Hi : (0 < file_size (originalFile img) < 2 ^ 40)%Z)
    by (vm_compute; split; reflexivity).
  assert (Hr : compressImage (originalFile img) (cl_settings (closure_of s)) o
               = Some {| r_compressedFile := cf; r_compressedPreview := "blob:z";
                         r_compressionRatio := 75%float; r_name := "1.webp";
                         r_compressedSize := 250000 |})
    by (vm_compute; reflexivity).
  assert (Hin : In job (images s')) by (vm_compute; left; reflexivity).
  assert (Hid : id job = "a") by (vm_compute; reflexivity).
  exact (conj (conj Hc (conj Hi (conj Hin Hid)))
           (proj1 (stored_compression_ratio s cf "blob:z" JS.NoMatch job Hc)
              "a" img (closure_of s) _ Hi Hr Hin Hid)).
Defined.

(** A compression of 200 bytes to 187 bytes is stored with the ratio 6: the
    quotient 187/200 is rounded to a double above 0.935, so the product with
    100 falls below 6.5, where the exact value (1 - 187/200) * 100 is 13/2
    and rounds to 7. *)
Theorem tie_stores_the_lower_ratio :
  let cf := {| file_name := "1.webp"; file_type := "image/webp"; file_size := 187 |} in
  let s := Sample.state_after
             [EvFiles (Some [Sample.png "1" 200]) Sample.draws;
              EvSettle 1 (Resolved cf "blob:z" JS.NoMatch)] in
  let job := Sample.first_job s in
  images s = [job] /\ status job = Compressed /\
  originalSize job = 200%Z /\ compressedSize job = 187%Z /\
  compressionRatio job = 6%float /\
  spec_ratio 187 200 = 7%Z /\
  (2 * ((200 - 187) * 100) = 13 * 200)%Z.
Proof. vm_compute. repeat split. Qed.
(** ** Removing a job *)






Example remove_compressed_job :
  let s := Sample.compressed_state in
  let s' := Sample.state_after
              [EvFiles (Some [Sample.png "1" 1000]) Sample.draws;
               EvSettle 1 Sample.done; EvRemove "a"] in
  (completed s, totalToProcess s) = (1, 1)
  /\ (completed s', totalToProcess s') = (1, 0)
  /\ images s' = [].
Proof. vm_compute. repeat split. Qed.

(** ** File names *)

Lemma string_length_app (a b : string) :
  String.length (a ++ b) = String.length a + String.length b.
Proof. induction a as [|c a IH]; simpl; [reflexivity | rewrite IH; reflexivity]. Qed.

Lemma substring_zero_len (n : nat) (s : string) : String.substring n 0 s = "".
Proof.
  revert s. induction n as [|n IH]; intro s; destruct s; simpl; auto.
Qed.

Lemma substring_all (s : string) : String.substring 0 (String.length s) s = s.
Proof. induction s as [|c s IH]; simpl; [reflexivity | rewrite IH; reflexivity]. Qed.

Lemma substring_skip (a b : string) (n : nat) :
  String.substring (String.length a) n (a ++ b) = String.substring 0 n b.
Proof. induction a as [|c a IH]; simpl; [reflexivity | exact IH]. Qed.

Lemma substring_prefix (a b : string) :
  String.substring 0 (String.length a) (a ++ b) = a.
Proof.
  induction a as [|c a IH]; simpl; [destruct b; reflexivity | rewrite IH; reflexivity].
Qed.

Lemma lastIndexOf_from_absent c s i found :
  Text.includes c s = false -> JS.lastIndexOf_from c s i found = found.
Proof.
  revert i found. induction s as [|a s IH]; intros i found H; simpl in *; [reflexivity|].
  apply orb_false_elim in H. destruct H as [Ha Hs].
  rewrite Ha. apply IH. exact Hs.
Qed.

Lemma lastIndexOf_from_last c a b i found :
  Text.includes c b = false ->
  JS.lastIndexOf_from c (a ++ String c b) i found = (i + Z.of_nat (String.length a))%Z.
Proof.
  intro Hb. revert i found. induction a as [|x a IH]; intros i found; simpl.
  - rewrite Ascii.eqb_refl, lastIndexOf_from_absent by exact Hb. lia.
  - rewrite IH. lia.
Qed.

(** The extension of [base.ext] when [ext] has no dot. *)
Lemma getFileExtension_app (base ext : string) :
  (Z.of_nat (String.length base + 1 + String.length ext) < 2 ^ 32)%Z ->
  Text.includes "."%char ext = false ->
  getFileExtension (base ++ String "."%char ext)
  = if (String.length base =? 0)%nat then "" else ext.
Proof.
  intros Hlen Hext. unfold getFileExtension, JS.lastIndexOf.
  rewrite lastIndexOf_from_last by exact Hext.
  unfold JS.slice_from, JS.ushr0.
  rewrite string_length_app. simpl String.length.
  change (2 ^ 32)%Z with 4294967296%Z in *.
  destruct (String.length base) as [|n] eqn:E.
  - simpl Nat.eqb. cbv iota.
    change ((0 + Z.of_nat 0 - 1) mod 4294967296)%Z with 4294967295%Z.
    rewrite Z.min_r by lia. rewrite Nat2Z.id, Nat.sub_diag.
    apply substring_zero_len.
  - simpl Nat.eqb. cbv iota.
    rewrite Z.mod_small by lia.
    rewrite Z.min_l by lia.
    replace (Z.to_nat (0 + Z.of_nat (S n) - 1 + 2)) with (S n + 1) by lia.
    replace (S n + S (String.length ext) - (S n + 1)) with (String.length ext) by lia.
    rewrite <- E.
    replace (base ++ String "."%char ext)%string with ((base ++ ".") ++ ext)%string.
    + replace (String.length base + 1) with (String.length (base ++ ".")%string).
      * rewrite substring_skip. apply substring_all.
      * rewrite string_length_app. reflexivity.
    + clear. induction base as [|c b IH]; simpl; [reflexivity | rewrite IH; reflexivity].
Qed.

Lemma getFileExtension_no_dot (nm : string) :
  (Z.of_nat (String.length nm) < 2 ^ 32)%Z ->
  Text.includes "."%char nm = false ->
  getFileExtension nm = "".
Proof.
  intros Hlen H. unfold getFileExtension, JS.lastIndexOf.
  rewrite lastIndexOf_from_absent by exact H.
  unfold JS.slice_from, JS.ushr0.
  change (2 ^ 32)%Z with 4294967296%Z in *.
  change ((-1 - 1) mod 4294967296 + 2)%Z with 4294967296%Z.
  rewrite Z.min_r by lia. rewrite Nat2Z.id, Nat.sub_diag.
  apply substring_zero_len.
Qed.

(** X1. [getFileExtension] returns the text after the last dot of a name;
    it returns the empty string when the only dot is the first character
    (a hidden file) and when the name has no dot at all. *)
Theorem getFileExtension_last_dot (base ext : string) :
  (Z.of_nat (String.length base + 1 + String.length ext) < 2 ^ 32)%Z ->
  Text.includes "."%char ext = false ->
  getFileExtension (base ++ String "."%char ext)
    = (if (String.length base =? 0)%nat then "" else ext)
  /\ getFileExtension ext = "".
Proof.
  intros Hlen Hext. split; [apply getFileExtension_app; assumption|].
  apply getFileExtension_no_dot; [lia | exact Hext].
Qed.

Lemma getFileExtension_last_dot_witness :
  (Z.of_nat (String.length "archive.tar" + 1 + String.length "gz") < 2 ^ 32)%Z /\
  Text.includes "."%char "gz" = false /\
  getFileExtension ("archive.tar" ++ String "."%char "gz")
    = (if (String.length "archive.tar" =? 0)%nat then "" else "gz")
  /\ getFileExtension "gz" = "".
Proof.
  assert (H1 : (Z.of_nat (String.length "archive.tar" + 1 + String.length "gz") < 2 ^ 32)%Z)
    by (vm_compute; reflexivity).
  assert (H2 : Text.includes "."%char "gz" = false) by reflexivity.
  exact (conj H1 (conj H2 (getFileExtension_last_dot "archive.tar" "gz" H1 H2))).
Defined.

Lemma all_alnum_no_dot (s : string) :
  Text.all_alnum s = true -> Text.includes "."%char s = false.
Proof.
  induction s as [|c s IH]; simpl; [reflexivity|].
  intro H. apply andb_prop in H. destruct H as [Hc Hs].
  rewrite (IH Hs), orb_false_r.
  destruct (Ascii.eqb c "."%char) eqn:E; [|reflexivity].
  apply Ascii.eqb_eq in E. subst c. discriminate Hc.
Qed.

Lemma format_string_plain (f : OutputFormat) :
  Text.includes "."%char (format_string f) = false /\
  String.length (format_string f) <= 4.
Proof. destruct f; simpl; split; (reflexivity || lia). Qed.

Lemma all_alnum_no_syntax (s : string) :
  Text.all_alnum s = true -> JS.has_syntax_char s = false.
Proof.
  induction s as [|c s IH]; simpl; [reflexivity|].
  intro H. apply andb_prop in H. destruct H as [Hc Hs].
  rewrite (IH Hs), orb_false_r. clear IH Hs.
  destruct c as [[] [] [] [] [] [] [] []]; try reflexivity; discriminate Hc.
Qed.

Lemma endsWith_app (a p : string) : JS.endsWith p (a ++ p) = true.
Proof.
  unfold JS.endsWith. rewrite string_length_app.
  replace (String.length a + String.length p - String.length p) with (String.length a)
    by lia.
  rewrite substring_skip, substring_all, String.eqb_refl.
  rewrite andb_true_r. apply Nat.leb_le. lia.
Qed.

Lemma string_app_empty (a : string) : (a ++ "")%string = a.
Proof. induction a as [|c a IH]; simpl; [reflexivity | rewrite IH; reflexivity]. Qed.

(** Replacing the final [.ext] of [base.ext]. *)
Lemma replace_final_ext (engine : JS.RegExpResult) (base ext repl : string) :
  JS.has_syntax_char ext = false ->
  JS.replace (JS.exec_ext_pattern engine ext (base ++ String "."%char ext))
             (base ++ String "."%char ext) repl
  = Some (base ++ repl)%string.
Proof.
  intro H. unfold JS.exec_ext_pattern. rewrite H, endsWith_app.
  unfold JS.replace. rewrite string_length_app.
  replace (String.length (String "."%char ext)) with (String.length ext + 1)
    by (simpl; lia).
  replace (String.length base + (String.length ext + 1) - (String.length ext + 1))
    with (String.length base) by lia.
  rewrite Nat.sub_diag, substring_zero_len, substring_prefix, string_app_empty.
  reflexivity.
Qed.

Lemma output_name_not_auto (file : File) (st : Settings) (engine : JS.RegExpResult) :
  outputFormat st <> auto ->
  output_name file st engine =
    if (String.length (getFileExtension (file_name file)) =? 0)%nat
    then Some (file_name file ++ "." ++ format_string (outputFormat st))%string
    else JS.replace
           (JS.exec_ext_pattern engine (getFileExtension (file_name file)) (file_name file))
           (file_name file) ("." ++ format_string (outputFormat st))%string.
Proof.
  intro H. unfold output_name. destruct (outputFormat st); [contradiction | | |]; reflexivity.
Qed.

(** X2. With an output format other than "auto", a name [base.ext] whose
    extension is made of letters and digits becomes [base.format], and a
    name without an extension gets [.format] appended, whatever the engine
    would say of other patterns; in both cases the extension of the output
    name is the chosen format (for a name that is not empty). *)
Theorem output_name_extension (file : File) (st : Settings) (engine : JS.RegExpResult) :
  outputFormat st <> auto ->
  (Z.of_nat (String.length (file_name file)) + 8 < 2 ^ 32)%Z ->
  (forall base ext,
      file_name file = (base ++ String "."%char ext)%string ->
      base <> "" -> ext <> "" -> Text.all_alnum ext = true ->
      output_name file st engine
        = Some (base ++ String "."%char (format_string (outputFormat st)))%string
      /\ getFileExtension (base ++ String "."%char (format_string (outputFormat st)))
         = format_string (outputFormat st))
  /\ (getFileExtension (file_name file) = "" ->
      output_name file st engine
        = Some (file_name file ++ String "."%char (format_string (outputFormat st)))%string
      /\ (file_name file <> "" ->
          getFileExtension
            (file_name file ++ String "."%char (format_string (outputFormat st)))
          = format_string (outputFormat st))).
Proof.
  intros Hfmt Hlen.
  destruct (format_string_plain (outputFormat st)) as [Hplain Hshort].
  assert (Hnonempty : forall b : string, b <> "" -> (String.length b =? 0)%nat = false).
  { intros b Hb. destruct b; [contradiction | reflexivity]. }
  assert (Hext_of : forall b : string, b <> "" ->
            (Z.of_nat (String.length b) + 8 < 2 ^ 32)%Z ->
            getFileExtension (b ++ String "."%char (format_string (outputFormat st)))
            = format_string (outputFormat st)).
  { intros b Hb Hl. rewrite getFileExtension_app; [|lia|exact Hplain].
    rewrite (Hnonempty b Hb). reflexivity. }
  split.
  - intros base ext Hname Hbase Hext Halnum.
    assert (Hnodot := all_alnum_no_dot ext Halnum).
    assert (Hl : String.length (file_name file)
                 = String.length base + S (String.length ext)).
    { rewrite Hname, string_length_app. reflexivity. }
    assert (E : getFileExtension (file_name file) = ext).
    { rewrite Hname, getFileExtension_app; [|lia|exact Hnodot].
      rewrite (Hnonempty base Hbase). reflexivity. }
    split; [|apply Hext_of; [exact Hbase | lia]].
    rewrite output_name_not_auto by exact Hfmt. rewrite E, (Hnonempty ext Hext).
    rewrite Hname. apply replace_final_ext. apply all_alnum_no_syntax. exact Halnum.
  - intro E. split.
    + rewrite output_name_not_auto by exact Hfmt. rewrite E. reflexivity.
    + intro Hne. apply Hext_of; assumption.
Qed.

Lemma output_name_extension_witness :
  let file := Sample.png "holiday.2024" 1000 in
  let st := default_settings in
  outputFormat st <> auto /\
  (Z.of_nat (String.length (file_name file)) + 8 < 2 ^ 32)%Z /\
  output_name file st JS.SyntaxError = Some "holiday.2024.webp" /\
  getFileExtension "holiday.2024.webp" = "webp".
Proof.
  cbv zeta.
  assert (H1 : outputFormat default_settings <> auto) by discriminate.
  assert (H2 : (Z.of_nat (String.length (file_name (Sample.png "holiday.2024" 1000))) + 8
                < 2 ^ 32)%Z) by (vm_compute; reflexivity).
  destruct (proj1 (output_name_extension (Sample.png "holiday.2024" 1000)
                     default_settings JS.SyntaxError H1 H2)
              "holiday.2024" "png" eq_refl) as [Ha Hb];
    [discriminate | discriminate | reflexivity |].
  exact (conj H1 (conj H2 (conj Ha Hb))).
Defined.

(** For an extension with syntax characters the name is what the engine
    makes of the pattern: no name when the constructor throws, the name
    unchanged when nothing matches. *)
Example output_name_engine :
  output_name Sample.cpp default_settings JS.SyntaxError = None
  /\ output_name {| file_name := "report.v2 (1)"; file_type := "image/png"; file_size := 10 |}
        default_settings JS.NoMatch = Some "report.v2 (1)".
Proof. vm_compute. repeat split. Qed.

(** ** The render cycle *)

(** X3. The render cycle that follows a change of state stops: after at
    most one pass more than there are pending jobs the component is in a
    state that further passes leave unchanged, where the three mirrors equal
    the state and the admission effect has nothing to admit. *)
Theorem renders_reach_quiescence (s : State) :
  quiescentb (commit s) = true
  /\ (forall n, renders n (commit s) = commit s)
  /\ refs_synced (commit s)
  /\ admission_cond (commit s) = false.
Proof.
  pose proof (commit_quiescent s) as Hq.
  split; [exact Hq|]. split; [intro n; apply renders_quiescent; exact Hq|].
  apply quiescentb_sound. exact Hq.
Qed.

Lemma renders_admit_capacity n s :
  queue_known s -> paused s = false ->
  let k := Nat.min n (Nat.min (length (queue s)) (MAX_CONCURRENT - length (active s))) in
  queue (renders n s) = skipn k (queue s) /\
  active (renders n s) = active s ++ firstn k (queue s).
Proof.
  revert s. induction n as [|n IH]; intros s Hk Hp; cbv zeta.
  - simpl. rewrite app_nil_r. auto.
  - destruct (render_cases s) as [[C _] | [a H]].
    + assert (E : Nat.min (length (queue s)) (MAX_CONCURRENT - length (active s)) = 0).
      { unfold admission_cond in C. rewrite Hp in C. simpl in C.
        destruct (queue s) as [|a q]; [reflexivity|].
        simpl in C. apply Nat.ltb_ge in C. simpl length. lia. }
      rewrite E, Nat.min_0_r. simpl skipn. simpl firstn. rewrite app_nil_r.
      destruct (renders_no_admission (S n) s C) as (_ & Hq & Ha & _). auto.
    + destruct H as [_ Hcap _ Hhd _ _ Hpa Hact].
      destruct (find_id_In a (images s)) as [img Himg].
      { apply Hk. rewrite Hhd. left. reflexivity. }
      rewrite Himg in Hact. destruct Hact as [Hact _].
      pose proof (queue_known_render s Hk) as Hk'.
      assert (Hp' : paused (render s) = false) by congruence.
      specialize (IH (render s) Hk' Hp'). cbv zeta in IH.
      destruct IH as [IHq IHa].
      change (renders (S n) s) with (renders n (render s)).
      rewrite IHq, IHa, Hact, Hhd.
      rewrite length_app. simpl length.
      set (k' := Nat.min n (Nat.min (length (queue (render s)))
                              (MAX_CONCURRENT - (length (active s) + 1)))).
      assert (Ek : Nat.min (S n) (Nat.min (S (length (queue (render s))))
                                 (MAX_CONCURRENT - length (active s))) = S k').
      { unfold k'. lia. }
      rewrite Ek. simpl. rewrite <- app_assoc. auto.
Qed.

(** X4. When the queue is not paused, the renders that follow a change of
    state admit as many pending jobs as the active set has room for, from the
    head of the pending list and in its order: afterwards nothing is pending
    or the active set is full, with [MAX_CONCURRENT] entries or more. *)
Theorem admission_fills_capacity (s : State) :
  Reachable s -> paused s = false ->
  let k := Nat.min (length (queue s)) (MAX_CONCURRENT - length (active s)) in
  queue (commit s) = skipn k (queue s)
  /\ active (commit s) = active s ++ firstn k (queue s)
  /\ (queue (commit s) = [] \/ MAX_CONCURRENT <= length (active (commit s))).
Proof.
  intros HR Hp. cbv zeta.
  pose proof (Reachable_queue_known s HR) as Hk.
  pose proof (renders_admit_capacity (S (length (queue s))) s Hk Hp) as H.
  cbv zeta in H.
  replace (Nat.min (S (length (queue s)))
             (Nat.min (length (queue s)) (MAX_CONCURRENT - length (active s))))
    with (Nat.min (length (queue s)) (MAX_CONCURRENT - length (active s))) in H by lia.
  destruct H as [Hq Ha]. unfold commit. split; [exact Hq|]. split; [exact Ha|].
  rewrite Hq, Ha, length_app, length_firstn.
  destruct (Nat.le_gt_cases (length (queue s)) (MAX_CONCURRENT - length (active s)))
    as [Hc | Hc].
  - left. rewrite Nat.min_l by exact Hc. apply skipn_all.
  - right. lia.
Qed.

Lemma admission_fills_capacity_witness :
  let s := Sample.uploaded in
  let k := Nat.min (length (queue s)) (MAX_CONCURRENT - length (active s)) in
  Reachable s /\ paused s = false /\ k = 3 /\
  queue (commit s) = skipn k (queue s)
  /\ active (commit s) = active s ++ firstn k (queue s)
  /\ (queue (commit s) = [] \/ MAX_CONCURRENT <= length (active (commit s))).
Proof.
  cbv zeta.
  assert (HR : Reachable Sample.uploaded).
  { apply R_event with (s := init) (ev := EvFiles (Some Sample.five) Sample.draws);
      [apply R_init | reflexivity]. }
  assert (Hp : paused Sample.uploaded = false) by reflexivity.
  assert (Hk : Nat.min (length (queue Sample.uploaded))
                 (MAX_CONCURRENT - length (active Sample.uploaded)) = 3)
    by (vm_compute; reflexivity).
  exact (conj HR (conj Hp (conj Hk (admission_fills_capacity Sample.uploaded HR Hp)))).
Defined.

(** X5. In every reachable state each identifier in the pending list is the
    identifier of a job record: removing a job and clearing the list never
    leave a pending entry behind for [processQueue] to pick up. *)
Theorem pending_ids_are_jobs (s : State) (i : string) :
  Reachable s -> In i (queue s) ->
  exists img, In img (images s) /\ id img = i.
Proof.
  intros HR Hin. pose proof (Reachable_queue_known s HR) as Hk.
  apply Hk in Hin. apply in_map_iff in Hin. destruct Hin as (img & E & Hin).
  exists img. auto.
Qed.

Lemma pending_ids_are_jobs_witness :
  Reachable Sample.busy_state /\ In "e" (queue Sample.busy_state) /\
  exists img, In img (images Sample.busy_state) /\ id img = "e".
Proof.
  assert (HR : Reachable Sample.busy_state).
  { apply (run_Reachable [EvFiles (Some Sample.five) Sample.draws] init _ R_init).
    vm_compute. reflexivity. }
  assert (Hin : In "e" (queue Sample.busy_state))
    by (vm_compute; right; left; reflexivity).
  exact (conj HR (conj Hin (pending_ids_are_jobs Sample.busy_state "e" HR Hin))).
Defined.

(** ** Clearing the list *)

Lemma commit_clearAll (s : State) :
  commit (clearAll s) = selection_effect (sync_refs (clearAll s)).
Proof.
  unfold commit. change (queue (clearAll s)) with (@nil string).
  change (renders (S (length (@nil string))) (clearAll s)) with (render (clearAll s)).
  destruct (render_cases (clearAll s)) as [[_ E] | [a H]]; [exact E|].
  pose proof (adm_head _ _ _ H) as Hh. discriminate Hh.
Qed.

(** X6. [clearAll] empties the job list, the pending list and the active
    set, resets the processed counter and drops the selection, and the
    renders that follow leave it so; it keeps the paused flag and the
    settings, and it does not stop the compressions in flight: when one of
    them settles with a result afterwards the processed counter goes to 1
    although no job is listed and the denominator is 0; when it fails the
    counter stays at 0. *)
Theorem clearAll_keeps_in_flight (s : State) :
  let s' := commit (clearAll s) in
  images s' = [] /\ queue s' = [] /\ active s' = [] /\ completed s' = 0
  /\ selectedImage s' = None /\ quiescentb s' = true
  /\ paused s' = paused s /\ settings s' = settings s /\ pending s' = pending s
  /\ forall nextId img cl o,
       let s2 := processQueue_settle nextId img cl o s' in
       completed s2
         = (if succeeds (originalFile img) (cl_settings cl) o then 1 else 0)
       /\ images s2 = [] /\ totalToProcess s2 = 0
       /\ batchProgress s2 = 0%float.
Proof.
  cbv zeta. pose proof (commit_quiescent (clearAll s)) as Hq.
  rewrite commit_clearAll in *.
  destruct s as [imgs sel ic ir q a c p st qr ar pr pe to].
  unfold clearAll, selection_effect, sync_refs in *. simpl in *.
  repeat split; try reflexivity; try exact Hq;
    unfold processQueue_settle, succeeds;
    destruct (compressImage (originalFile img) (cl_settings cl) o); reflexivity.
Qed.

(** ** Downloads *)

Lemma Reachable_result_inv (s : State) :
  Reachable s -> Forall result_if_compressed (images s).
Proof.
  revert s. apply Reachable_invariant.
  - constructor.
  - intros s _ H. apply result_inv_render. exact H.
  - intros s ev _ H _. apply result_inv_handle; assumption.
Qed.

Lemma downloads_of_compressed (l : list CompressedImage) :
  Forall result_if_compressed l ->
  Forall2 (fun (d : File * string) (img : CompressedImage) =>
             compressedFile img = Some (fst d) /\ snd d = name img /\
             file_size (fst d) = compressedSize img)
          (flat_map downloadImage (filter is_compressed l))
          (filter is_compressed l).
Proof.
  intro H. induction H as [|x l Hx Hl IH]; simpl; [constructor|].
  destruct (is_compressed x) eqn:E; [|exact IH].
  unfold is_compressed in E. apply Status_eqb_eq in E.
  destruct (Hx E) as (cf & Hcf & Hsz).
  simpl. unfold downloadImage at 1. rewrite Hcf. simpl.
  constructor; [simpl; auto | exact IH].
Qed.

(** X7. In every reachable state [downloadAll] saves exactly one file per
    Compressed job, in the order of the list and under the job's name: no
    Compressed job is skipped for want of a compressed file, and the file
    saved has the size the job shows as its compressed size. *)
Theorem downloadAll_one_per_compressed (s : State) :
  Reachable s ->
  Forall2 (fun (d : File * string) (img : CompressedImage) =>
             compressedFile img = Some (fst d) /\ snd d = name img /\
             file_size (fst d) = compressedSize img)
          (downloadAll s) (filter is_compressed (images s))
  /\ length (downloadAll s) = length (filter is_compressed (images s)).
Proof.
  intro HR.
  pose proof (downloads_of_compressed (images s) (Reachable_result_inv s HR)) as H.
  split; [exact H|]. unfold downloadAll.
  eapply Forall2_length. exact H.
Qed.

Lemma downloadAll_one_per_compressed_witness :
  let s := Sample.state_after
             [EvFiles (Some Sample.five) Sample.draws; EvSettle 1 Sample.done;
              EvSettle 1 Rejected] in
  Reachable s /\ map snd (downloadAll s) = ["1.webp"] /\
  Forall2 (fun (d : File * string) (img : CompressedImage) =>
             compressedFile img = Some (fst d) /\ snd d = name img /\
             file_size (fst d) = compressedSize img)
          (downloadAll s) (filter is_compressed (images s))
  /\ length (downloadAll s) = length (filter is_compressed (images s)).
Proof.
  cbv zeta. set (s := Sample.state_after _).
  assert (HR : Reachable s).
  { apply (run_Reachable [EvFiles (Some Sample.five) Sample.draws;
                          EvSettle 1 Sample.done; EvSettle 1 Rejected] init s R_init).
    vm_compute. reflexivity. }
  assert (Hn : map snd (downloadAll s) = ["1.webp"]) by (vm_compute; reflexivity).
  exact (conj HR (conj Hn (downloadAll_one_per_compressed s HR))).
Defined.

(** ** Continuations in flight *)

Lemma existsb_remove_nth {A : Type} (p : A -> bool) (l : list A) (k : nat) (t : A) :
  nth_error l k = Some t -> p t = false ->
  existsb p (remove_nth k l) = existsb p l.
Proof.
  revert k. induction l as [|x l IH]; intros k Hk Hp; destruct k; simpl in *;
    try discriminate.
  - inversion Hk. subst. rewrite Hp. reflexivity.
  - rewrite (IH k Hk Hp). reflexivity.
Qed.

Lemma count_remove_nth {A : Type} (p : A -> bool) (l : list A) (k : nat) (t : A) :
  nth_error l k = Some t ->
  length (filter p (remove_nth k l)) + (if p t then 1 else 0) = length (filter p l).
Proof.
  revert k. induction l as [|x l IH]; intros k Hk; destruct k; simpl in *;
    try discriminate.
  - inversion Hk. subst. destruct (p t); simpl; lia.
  - specialize (IH k Hk). destruct (p x); simpl; lia.
Qed.

Lemma selection_effect_isCompressing s :
  isCompressing (selection_effect s) = isCompressing s.
Proof. sel_fields. Qed.

Lemma selection_effect_isRecompressing s :
  isRecompressing (selection_effect s) = isRecompressing s.
Proof. sel_fields. Qed.

Lemma processQueue_flags cl s :
  isCompressing (processQueue cl s) = isCompressing s /\
  isRecompressing (processQueue cl s) = isRecompressing s.
Proof.
  unfold processQueue. destruct (pausedRef s); [auto|].
  destruct (MAX_CONCURRENT <=? length (activeRef s))%nat; [auto|].
  destruct (queueRef s) as [|a q]; [auto|].
  destruct (find_id a (cl_images cl)); auto.
Qed.

Lemma render_flags s :
  isCompressing (render s) = isCompressing s /\
  isRecompressing (render s) = isRecompressing s.
Proof.
  unfold render, admission_effect. destruct (admission_cond s).
  - destruct (processQueue_flags (closure_of s) (selection_effect (sync_refs s)))
      as [-> ->].
    rewrite selection_effect_isCompressing, selection_effect_isRecompressing. auto.
  - rewrite selection_effect_isCompressing, selection_effect_isRecompressing. auto.
Qed.

(** What a render pass appends to the continuations: nothing, or one
    continuation of [processQueue]. *)
Lemma render_pending s :
  pending (render s) = pending s
  \/ exists a t, pending (render s) = pending s ++ [t] /\
                 is_rerun t = false /\ is_upload_timer t = false /\
                 (compressing_for a t = true /\ active (render s) = active s ++ [a]
                  \/ active (render s) = remove_id a (active s ++ [a])).
Proof.
  destruct (render_cases s) as [[C _] | [a H]].
  - left. destruct (render_no_admission s C) as (_ & _ & _ & _ & _ & E). exact E.
  - right. exists a. pose proof (adm_active _ _ _ H) as Hact.
    destruct (find_id a (images s)) as [img|]; destruct Hact as [Ha Hp].
    + exists (AwaitCompress a img (closure_of s)). repeat split; auto.
      left. simpl. rewrite String.eqb_refl. auto.
    + exists (TimerProcessQueue (closure_of s)). repeat split; auto.
Qed.

Lemma active_in_flight_render s : active_in_flight s -> active_in_flight (render s).
Proof.
  intros H i Hi. destruct (render_pending s) as [E | (a & t & E & _ & _ & Hc)].
  - rewrite E. apply H.
    destruct (render_cases s) as [[C _] | [a Ha]].
    + destruct (render_no_admission s C) as (_ & _ & Hact & _). rewrite <- Hact. exact Hi.
    + exfalso. pose proof (adm_active _ _ _ Ha) as Hact.
      destruct (find_id a (images s)); destruct Hact as [_ Hp]; rewrite Hp in E;
        apply (f_equal (@length Task)) in E; rewrite length_app in E; simpl in E; lia.
  - rewrite E, existsb_app.
    destruct Hc as [[Hc Hact] | Hact]; rewrite Hact in Hi.
    + apply in_app_or in Hi. destruct Hi as [Hi | [<- | []]].
      * rewrite (H i Hi). reflexivity.
      * simpl. rewrite Hc. apply orb_true_r.
    + assert (Hne : i <> a).
      { intro. subst. exact (remove_id_not_In _ _ Hi). }
      apply remove_id_In in Hi. apply in_app_or in Hi.
      destruct Hi as [Hi | [E' | []]]; [|congruence].
      rewrite (H i Hi). reflexivity.
Qed.

Lemma flight_inv_same s s' :
  active s' = active s -> pending s' = pending s ->
  isRecompressing s' = isRecompressing s -> isCompressing s' = isCompressing s ->
  flight_inv s -> flight_inv s'.
Proof.
  unfold flight_inv, active_in_flight. intros -> -> -> ->. auto.
Qed.

Lemma flight_inv_render s : flight_inv s -> flight_inv (render s).
Proof.
  intros (Ha & Hr & Hu). destruct (render_flags s) as [Ec Er].
  split; [apply active_in_flight_render; exact Ha|].
  rewrite Ec, Er.
  destruct (render_pending s) as [E | (a & t & E & Ht1 & Ht2 & _)]; rewrite E.
  - auto.
  - rewrite filter_app, length_app, existsb_app. simpl. rewrite Ht1. simpl.
    split; [lia|]. intro H. rewrite (Hu H). reflexivity.
Qed.

(** A continuation other than the one resumed is still there. *)
Lemma flight_inv_resume_frame s k t :
  nth_error (pending s) k = Some t ->
  flight_inv s ->
  (forall i, compressing_for i t = false -> In i (active s) ->
             existsb (compressing_for i) (remove_nth k (pending s)) = true)
  /\ length (filter is_rerun (remove_nth k (pending s))) + (if is_rerun t then 1 else 0)
     = (if isRecompressing s then 1 else 0)
  /\ (is_upload_timer t = false -> isCompressing s = true ->
      existsb is_upload_timer (remove_nth k (pending s)) = true).
Proof.
  intros Hk (Ha & Hr & Hu). split; [|split].
  - intros i Hc Hi. rewrite (existsb_remove_nth _ _ _ _ Hk Hc). apply Ha. exact Hi.
  - rewrite (count_remove_nth is_rerun _ _ _ Hk). exact Hr.
  - intros Ht Hc. rewrite (existsb_remove_nth _ _ _ _ Hk Ht). apply Hu. exact Hc.
Qed.

Lemma flight_inv_handle s ev :
  enabledb ev s = true ->
  flight_inv s -> flight_inv (handle ev s).
Proof.
  intros He Hinv.
  destruct ev; cbn [handle];
    try (apply (flight_inv_same s); [reflexivity .. | exact Hinv]).
  - (* handleFiles *)
    unfold handleFiles. destruct files as [fl|]; [|exact Hinv].
    destruct (length (filter is_image_file fl) =? 0)%nat;
      [apply (flight_inv_same s); [reflexivity .. | exact Hinv]|].
    destruct (0 <? length (filter is_oversized (filter is_image_file fl)))%nat;
      [apply (flight_inv_same s); [reflexivity .. | exact Hinv]|].
    destruct Hinv as (Ha & Hr & Hu). unfold flight_inv, active_in_flight. simpl.
    split; [|split].
    + intros i Hi. rewrite existsb_app, (Ha i Hi). reflexivity.
    + rewrite filter_app, length_app. simpl. lia.
    + intros _. rewrite existsb_app. simpl. apply orb_true_r.
  - (* recompressSelectedImage *)
    simpl in He. unfold recompressSelectedImage.
    destruct (selectedImage s) as [sel|]; [|exact Hinv].
    apply andb_prop in He. destruct He as [_ He]. apply negb_true_iff in He.
    apply orb_false_elim in He. destruct He as [Her _].
    destruct Hinv as (Ha & Hr & Hu). unfold flight_inv, active_in_flight. simpl.
    rewrite Her in Hr. split; [|split].
    + intros i Hi. rewrite existsb_app, (Ha i Hi). reflexivity.
    + rewrite filter_app, length_app. simpl. lia.
    + intro H. rewrite existsb_app, (Hu H). reflexivity.
  - (* removeImage *)
    apply (flight_inv_same s); try exact Hinv; unfold removeImage;
      destruct (selectedImage s) as [sel|]; try destruct (String.eqb (id sel) i);
      reflexivity.
  - (* clearAll *)
    destruct Hinv as (Ha & Hr & Hu). unfold flight_inv, active_in_flight. simpl.
    split; [intros i []| auto].
  - (* a continuation resumes *)
    destruct (nth_error (pending s) k) as [t|] eqn:Hk; [|exact Hinv].
    destruct (flight_inv_resume_frame s k t Hk Hinv) as (Fa & Fr & Fu).
    destruct t as [nextId img cl | sel st | cl |]; cbn [resume].
    + unfold processQueue_settle, flight_inv, active_in_flight.
      destruct (compressImage (originalFile img) (cl_settings cl) o); simpl;
        (split; [|split]).
      all: try (intros i Hi; rewrite existsb_app;
                assert (Hne : i <> nextId)
                  by (intro; subst; exact (remove_id_not_In _ _ Hi));
                rewrite Fa; [reflexivity | | eapply remove_id_In; exact Hi];
                simpl; apply String.eqb_neq; congruence).
      all: try (rewrite filter_app, length_app; simpl in *; lia).
      all: intro H; rewrite existsb_app, Fu; auto.
    + unfold recompress_settle, flight_inv, active_in_flight.
      destruct (compressImage (originalFile sel) st o); simpl;
        (split; [|split]).
      all: try (intros i Hi; apply Fa; [reflexivity | exact Hi]).
      all: try (simpl in Fr; destruct (isRecompressing s); lia).
      all: intro H; apply Fu; auto.
    + assert (Hinv1 : flight_inv (setPending (remove_nth k) s)).
      { unfold flight_inv, active_in_flight. simpl. split; [|split].
        - intros i Hi. apply Fa; [reflexivity | exact Hi].
        - simpl in Fr. lia.
        - intro H. apply Fu; auto. }
      destruct (processQueue_cases cl (setPending (remove_nth k) s)) as [-> | [a Ha]];
        [exact Hinv1|].
      destruct Hinv1 as (Ga & Gr & Gu).
      destruct (st_flags _ _ _ _ Ha) as [Ec Er].
      pose proof (st_active _ _ _ _ Ha) as Hact.
      unfold flight_inv, active_in_flight. rewrite Ec, Er.
      destruct (find_id a (cl_images cl)) as [img|]; destruct Hact as [Hac Hpe];
        rewrite Hac, Hpe; (split; [|split]).
      * intros i Hi. rewrite existsb_app. apply in_app_or in Hi.
        destruct Hi as [Hi | [<- | []]].
        -- rewrite (Ga i Hi). reflexivity.
        -- simpl. rewrite String.eqb_refl. apply orb_true_r.
      * rewrite filter_app, length_app. simpl in *. lia.
      * intro H. rewrite existsb_app, (Gu H). reflexivity.
      * intros i Hi. rewrite existsb_app.
        assert (Hne : i <> a) by (intro; subst; exact (remove_id_not_In _ _ Hi)).
        apply remove_id_In in Hi. apply in_app_or in Hi.
        destruct Hi as [Hi | [E' | []]]; [|congruence].
        rewrite (Ga i Hi). reflexivity.
      * rewrite filter_app, length_app. simpl in *. lia.
      * intro H. rewrite existsb_app, (Gu H). reflexivity.
    + unfold flight_inv, active_in_flight. simpl. split; [|split].
      * intros i Hi. apply Fa; [reflexivity | exact Hi].
      * simpl in Fr. lia.
      * discriminate.
Qed.

Lemma Reachable_flight_inv s : Reachable s -> flight_inv s.
Proof.
  apply Reachable_invariant.
  - unfold flight_inv, active_in_flight. simpl. repeat split; [intros i [] | discriminate].
  - intros s0 _ H. apply flight_inv_render. exact H.
  - intros s0 ev _ H He. apply flight_inv_handle; assumption.
Qed.

(** X8. In every reachable state each job in the active set has a
    compression started by [processQueue] in flight: no slot of the active
    set is held by a job that is not being compressed, so every slot is given
    back when its compression settles. *)
Theorem active_jobs_in_flight (s : State) (i : string) :
  Reachable s -> In i (active s) ->
  exists img cl, In (AwaitCompress i img cl) (pending s).
Proof.
  intros HR Hi. destruct (Reachable_flight_inv s HR) as (Ha & _).
  specialize (Ha i Hi). apply existsb_exists in Ha.
  destruct Ha as (t & Hin & Ht).
  destruct t as [nextId img cl | | |]; simpl in Ht; try discriminate Ht.
  apply String.eqb_eq in Ht. subst. eauto.
Qed.

Lemma active_jobs_in_flight_witness :
  Reachable Sample.busy_state /\ In "b" (active Sample.busy_state) /\
  exists img cl, In (AwaitCompress "b" img cl) (pending Sample.busy_state).
Proof.
  assert (HR : Reachable Sample.busy_state).
  { apply (run_Reachable [EvFiles (Some Sample.five) Sample.draws] init _ R_init).
    vm_compute. reflexivity. }
  assert (Hin : In "b" (active Sample.busy_state))
    by (vm_compute; right; left; reflexivity).
  exact (conj HR (conj Hin (active_jobs_in_flight Sample.busy_state "b" HR Hin))).
Defined.

(** X9. In every reachable state at most one re-run is in flight, and
    [isRecompressing], which disables the re-compress button and the settings
    controls, is set exactly while one is. *)
Theorem one_rerun_at_a_time (s : State) :
  Reachable s ->
  length (filter is_rerun (pending s)) <= 1 /\
  (isRecompressing s = true <-> exists sel st, In (AwaitRecompress sel st) (pending s)).
Proof.
  intro HR. destruct (Reachable_flight_inv s HR) as (_ & Hr & _).
  split; [destruct (isRecompressing s); lia|].
  split.
  - intro H. rewrite H in Hr.
    destruct (filter is_rerun (pending s)) as [|t l] eqn:E; [discriminate Hr|].
    assert (Hin : In t (filter is_rerun (pending s))) by (rewrite E; left; reflexivity).
    apply filter_In in Hin. destruct Hin as [Hin Ht].
    destruct t; try discriminate Ht. eauto.
  - intros (sel & st & Hin).
    assert (Hf : In (AwaitRecompress sel st) (filter is_rerun (pending s)))
      by (apply filter_In; auto).
    destruct (isRecompressing s); [reflexivity|].
    destruct (filter is_rerun (pending s)); [contradiction | discriminate Hr].
Qed.

Lemma one_rerun_at_a_time_witness :
  let s := Sample.state_after
             [EvFiles (Some [Sample.png "1" 1000]) Sample.draws;
              EvSettle 1 Sample.done; EvSettle 0 Rejected; EvRecompress] in
  Reachable s /\ isRecompressing s = true /\ dispatch EvRecompress s = None /\
  length (filter is_rerun (pending s)) <= 1 /\
  (isRecompressing s = true <-> exists sel st, In (AwaitRecompress sel st) (pending s)).
Proof.
  cbv zeta. set (s := Sample.state_after _).
  assert (HR : Reachable s).
  { apply (run_Reachable [EvFiles (Some [Sample.png "1" 1000]) Sample.draws;
                          EvSettle 1 Sample.done; EvSettle 0 Rejected; EvRecompress]
             init s R_init).
    vm_compute. reflexivity. }
  assert (H1 : isRecompressing s = true) by (vm_compute; reflexivity).
  assert (H2 : dispatch EvRecompress s = None) by (vm_compute; reflexivity).
  exact (conj HR (conj H1 (conj H2 (one_rerun_at_a_time s HR)))).
Defined.

(** X10. In every reachable state in which [isCompressing] is set, which
    disables the upload button, the 500 ms timer that clears it is pending:
    the button is never left disabled. A batch that [handleFiles] rejects
    does not set the flag. *)
Theorem upload_flag_has_timer (s : State) :
  Reachable s ->
  (isCompressing s = true -> In TimerUploadDone (pending s))
  /\ (forall rnd fl, batch_accepted fl = false ->
        isCompressing (handleFiles rnd (Some fl) s) = isCompressing s /\
        pending (handleFiles rnd (Some fl) s) = pending s).
Proof.
  intro HR. destruct (Reachable_flight_inv s HR) as (_ & _ & Hu). split.
  - intro H. specialize (Hu H). apply existsb_exists in Hu.
    destruct Hu as (t & Hin & Ht). destruct t; try discriminate Ht. exact Hin.
  - intros rnd fl Hb. unfold handleFiles, batch_accepted in *.
    destruct (filter is_image_file fl) as [|f0 rest]; [auto|].
    change (length (f0 :: rest) =? 0)%nat with false. cbv iota.
    rewrite no_oversized_filter, Hb. auto.
Qed.

Lemma upload_flag_has_timer_witness :
  Reachable Sample.busy_state /\ isCompressing Sample.busy_state = true /\
  In TimerUploadDone (pending Sample.busy_state).
Proof.
  assert (HR : Reachable Sample.busy_state).
  { apply (run_Reachable [EvFiles (Some Sample.five) Sample.draws] init _ R_init).
    vm_compute. reflexivity. }
  assert (H : isCompressing Sample.busy_state = true) by (vm_compute; reflexivity).
  exact (conj HR (conj H (proj1 (upload_flag_has_timer Sample.busy_state HR) H))).
Defined.

(** ** Initials *)

Lemma upper_char_not_lower (c : ascii) :
  negb ((97 <=? nat_of_ascii (Text.upper_char c))%nat
        && (nat_of_ascii (Text.upper_char c) <=? 122)%nat) = true.
Proof. destruct c as [[] [] [] [] [] [] [] []]; reflexivity. Qed.

Lemma toUpperCase_no_lowercase (s : string) :
  Text.no_lowercase (Text.toUpperCase s) = true.
Proof.
  induction s as [|c s IH]; cbn [Text.toUpperCase Text.no_lowercase]; [reflexivity|].
  rewrite upper_char_not_lower, IH. reflexivity.
Qed.

Lemma toUpperCase_length (s : string) :
  String.length (Text.toUpperCase s) = String.length s.
Proof. induction s as [|c s IH]; simpl; [reflexivity | rewrite IH; reflexivity]. Qed.

Lemma substring0_length (n : nat) (s : string) :
  String.length (String.substring 0 n s) <= n.
Proof.
  revert s. induction n as [|n IH]; intro s; destruct s; simpl; try lia.
  specialize (IH s). lia.
Qed.

Lemma substring0_no_lowercase (n : nat) (s : string) :
  Text.no_lowercase s = true -> Text.no_lowercase (String.substring 0 n s) = true.
Proof.
  revert s. induction n as [|n IH]; intro s; destruct s; simpl; auto.
  intro H. apply andb_prop in H. destruct H as [Hc Hs].
  rewrite Hc, (IH s Hs). reflexivity.
Qed.

Lemma initials_of_spaces (d : string) :
  Text.all_spaces d = true ->
  String.concat "" (map Text.first_unit (Text.split " "%char d)) = "".
Proof.
  induction d as [|c d IH]; simpl; [reflexivity|].
  intro H. apply andb_prop in H. destruct H as [Hc Hd].
  rewrite Hc. simpl. specialize (IH Hd).
  destruct (map Text.first_unit (Text.split " "%char d)) as [|x l] eqn:E.
  - reflexivity.
  - exact IH.
Qed.

(** X11. For names and addresses in ASCII, [getUserInitials] returns at
    most two characters, none of them a lower-case letter; without a display
    name, or with an empty one, it returns the first character of the e-mail
    address in upper case; and a display name made of spaces yields no
    initials at all, not the initial of the address. *)
Theorem getUserInitials_shape (email : string) (displayName : option string) :
  Text.all_ascii7 email = true ->
  match displayName with Some d => Text.all_ascii7 d = true | None => True end ->
  String.length (getUserInitials email displayName) <= 2
  /\ Text.no_lowercase (getUserInitials email displayName) = true
  /\ (displayName = None \/ displayName = Some "" ->
      getUserInitials email displayName
        = Text.toUpperCase (String.substring 0 1 email))
  /\ (forall d, displayName = Some d -> d <> "" -> Text.all_spaces d = true ->
      getUserInitials email displayName = "").
Proof.
  intros _ _. unfold getUserInitials.
  assert (He : String.length (Text.toUpperCase (String.substring 0 1 email)) <= 2).
  { rewrite toUpperCase_length. pose proof (substring0_length 1 email). lia. }
  split; [|split; [|split]].
  - destruct displayName as [d|]; [|exact He].
    destruct (String.length d =? 0)%nat; [exact He | apply substring0_length].
  - destruct displayName as [d|]; [|apply toUpperCase_no_lowercase].
    destruct (String.length d =? 0)%nat; [apply toUpperCase_no_lowercase|].
    apply substring0_no_lowercase, toUpperCase_no_lowercase.
  - intros [-> | ->]; reflexivity.
  - intros d -> Hd Hsp. destruct d as [|c d]; [contradiction|].
    simpl Nat.eqb. cbv iota. rewrite (initials_of_spaces _ Hsp). reflexivity.
Qed.

Lemma getUserInitials_shape_witness :
  Text.all_ascii7 "ada@example.org" = true /\
  Text.all_ascii7 "ada king lovelace" = true /\
  getUserInitials "ada@example.org" (Some "ada king lovelace") = "AK" /\
  String.length (getUserInitials "ada@example.org" (Some "ada king lovelace")) <= 2
  /\ Text.no_lowercase (getUserInitials "ada@example.org" (Some "ada king lovelace")) = true.
Proof.
  assert (H1 : Text.all_ascii7 "ada@example.org" = true) by reflexivity.
  assert (H2 : Text.all_ascii7 "ada king lovelace" = true) by reflexivity.
  assert (H3 : getUserInitials "ada@example.org" (Some "ada king lovelace") = "AK")
    by (vm_compute; reflexivity).
  destruct (getUserInitials_shape "ada@example.org" (Some "ada king lovelace") H1 H2)
    as (Ha & Hb & _).
  exact (conj H1 (conj H2 (conj H3 (conj Ha Hb)))).
Defined.

(** ** The wrapper *)

Lemma wrapper_inv_mount (threw : bool) : AppWrapper.wrapper_inv (AppWrapper.mount threw).
Proof. destruct threw; unfold AppWrapper.wrapper_inv; simpl; auto. Qed.

Lemma wrapper_inv_step (ev : AppWrapper.Ev) (w : AppWrapper.Wrapper) :
  AppWrapper.wrapper_inv w -> AppWrapper.wrapper_inv (AppWrapper.step ev w).
Proof.
  intros [Hi Ht]. unfold AppWrapper.wrapper_inv.
  destruct ev as [st | |]; simpl.
  - destruct (AppWrapper.mounted w); simpl; [|exact (conj Hi Ht)].
    split; [right; reflexivity | discriminate].
  - destruct (AppWrapper.timerPending w) eqn:E; [|rewrite E; exact (conj Hi Ht)].
    simpl. split; [|discriminate].
    destruct (AppWrapper.mounted w); simpl; [right; reflexivity | exact Hi].
  - split; [exact Hi | discriminate].
Qed.

Lemma wrapper_inv_steps (evs : list AppWrapper.Ev) (w : AppWrapper.Wrapper) :
  AppWrapper.wrapper_inv w -> AppWrapper.wrapper_inv (AppWrapper.steps evs w).
Proof.
  revert w. induction evs as [|ev rest IH]; intros w H; simpl; [exact H|].
  apply IH, wrapper_inv_step, H.
Qed.

Lemma view_Loading_iff (a : AppWrapper.AuthState) :
  AppWrapper.view a = AppWrapper.Loading <->
  AppWrapper.isLoading a = true /\ AppWrapper.isInitialized a = false.
Proof.
  unfold AppWrapper.view.
  destruct (AppWrapper.isLoading a), (AppWrapper.isInitialized a),
    (AppWrapper.isAuthenticated a); simpl; split;
    intro H; try discriminate H; try reflexivity; auto; destruct H; discriminate.
Qed.

(** X12. The wrapper shows the loading screen at its first render, before
    its effect runs, whatever the effect does next. Once the effect has run,
    after any sequence of listener calls, timeouts and unmounts, it is on the
    loading screen exactly when its auth state is still the initial one, and
    once it has left the loading screen no event brings it back, even a
    listener call that reports [isLoading]. When registering the listener
    throws, the effect itself leaves the loading screen. *)
Theorem loading_screen_only_at_start (threw : bool) (evs : list AppWrapper.Ev) :
  let w := AppWrapper.steps evs (AppWrapper.mount threw) in
  AppWrapper.view (AppWrapper.authState AppWrapper.created) = AppWrapper.Loading
  /\ AppWrapper.view (AppWrapper.authState (AppWrapper.mount false)) = AppWrapper.Loading
  /\ (AppWrapper.view (AppWrapper.authState w) = AppWrapper.Loading <->
      AppWrapper.authState w = AppWrapper.initial_auth)
  /\ (forall ev,
        AppWrapper.view (AppWrapper.authState w) <> AppWrapper.Loading ->
        AppWrapper.view (AppWrapper.authState (AppWrapper.step ev w))
          <> AppWrapper.Loading)
  /\ (threw = true ->
      AppWrapper.view (AppWrapper.authState w) <> AppWrapper.Loading).
Proof.
  cbv zeta.
  assert (Hiff : forall w, AppWrapper.wrapper_inv w ->
            (AppWrapper.view (AppWrapper.authState w) = AppWrapper.Loading <->
             AppWrapper.authState w = AppWrapper.initial_auth)).
  { intros w [[Hi | Hi] _]; rewrite view_Loading_iff.
    - rewrite Hi. simpl. tauto.
    - split; [intros [_ H]; congruence | intro H; rewrite H in Hi; discriminate Hi]. }
  assert (Hstay : forall ev w, AppWrapper.wrapper_inv w ->
            AppWrapper.authState w <> AppWrapper.initial_auth ->
            AppWrapper.authState (AppWrapper.step ev w) <> AppWrapper.initial_auth).
  { intros ev w [[Hi | Hi] _] Hne; [contradiction|].
    destruct ev as [st | |]; simpl.
    - destruct (AppWrapper.mounted w); simpl; [discriminate | exact Hne].
    - destruct (AppWrapper.timerPending w); [|exact Hne]. simpl.
      destruct (AppWrapper.mounted w); simpl; [discriminate | exact Hne].
    - exact Hne. }
  pose proof (wrapper_inv_steps evs _ (wrapper_inv_mount threw)) as Hw.
  split; [reflexivity|]. split; [reflexivity|].
  split; [apply Hiff; exact Hw|]. split.
  - intros ev Hv. rewrite (Hiff _ (wrapper_inv_step ev _ Hw)).
    apply Hstay; [exact Hw|]. rewrite <- (Hiff _ Hw). exact Hv.
  - intros ->. rewrite (Hiff _ Hw). clear Hw.
    assert (Hgen : forall w, AppWrapper.wrapper_inv w ->
              AppWrapper.authState w <> AppWrapper.initial_auth ->
              AppWrapper.authState (AppWrapper.steps evs w) <> AppWrapper.initial_auth).
    { induction evs as [|ev rest IH]; intros w Hw Hne; simpl; [exact Hne|].
      apply IH; [apply wrapper_inv_step; exact Hw | apply Hstay; assumption]. }
    apply Hgen; [apply wrapper_inv_mount | discriminate].
Qed.

(** X13. The 8-second timeout never signs a user out: after any sequence of
    events, when the auth state is authenticated the timer is no longer
    pending (the first listener call cleared it), so a timeout changes
    nothing; and once the wrapper is unmounted no event changes its auth
    state. *)
Theorem timeout_never_signs_out (threw : bool) (evs : list AppWrapper.Ev) :
  let w := AppWrapper.steps evs (AppWrapper.mount threw) in
  (AppWrapper.isAuthenticated (AppWrapper.authState w) = true ->
   AppWrapper.timerPending w = false /\ AppWrapper.step AppWrapper.Timeout w = w)
  /\ (AppWrapper.mounted w = false ->
      forall ev, AppWrapper.authState (AppWrapper.step ev w) = AppWrapper.authState w).
Proof.
  cbv zeta.
  destruct (wrapper_inv_steps evs _ (wrapper_inv_mount threw)) as [_ Ht].
  split.
  - intro Ha. simpl.
    destruct (AppWrapper.timerPending
                (AppWrapper.steps evs (AppWrapper.mount threw))) eqn:E; [|auto].
    destruct (Ht eq_refl) as [Hf _]. congruence.
  - intros Hm ev. destruct ev as [st | |]; simpl; rewrite ?Hm; simpl; try reflexivity.
    destruct (AppWrapper.timerPending _); reflexivity.
Qed.

Lemma timeout_never_signs_out_witness :
  let u := AppWrapper.mkUser "u1" "ada@example.org" None None in
  let w := AppWrapper.steps [AppWrapper.AuthChanged (AppWrapper.mkSdk (Some u) false true)]
             (AppWrapper.mount false) in
  AppWrapper.isAuthenticated (AppWrapper.authState w) = true /\
  AppWrapper.view (AppWrapper.authState w) = AppWrapper.App (Some u) /\
  AppWrapper.timerPending w = false /\ AppWrapper.step AppWrapper.Timeout w = w.
Proof.
  cbv zeta.
  set (u := AppWrapper.mkUser "u1" "ada@example.org" None None).
  assert (Ha : AppWrapper.isAuthenticated (AppWrapper.authState
                 (AppWrapper.steps
                    [AppWrapper.AuthChanged (AppWrapper.mkSdk (Some u) false true)]
                    (AppWrapper.mount false))) = true) by reflexivity.
  assert (Hv : AppWrapper.view (AppWrapper.authState
                 (AppWrapper.steps
                    [AppWrapper.AuthChanged (AppWrapper.mkSdk (Some u) false true)]
                    (AppWrapper.mount false))) = AppWrapper.App (Some u)) by reflexivity.
  exact (conj Ha (conj Hv
           (proj1 (timeout_never_signs_out false
                     [AppWrapper.AuthChanged (AppWrapper.mkSdk (Some u) false true)]) Ha))).
Defined.

(** ** The selection *)

Lemma processQueue_selectedImage cl s :
  selectedImage (processQueue cl s) = selectedImage s.
Proof.
  unfold processQueue. destruct (pausedRef s); [reflexivity|].
  destruct (MAX_CONCURRENT <=? length (activeRef s))%nat; [reflexivity|].
  destruct (queueRef s) as [|a q]; [reflexivity|].
  destruct (find_id a (cl_images cl)); reflexivity.
Qed.

Lemma selection_effect_keeps s sel first rest :
  selectedImage s = Some sel -> images s = first :: rest ->
  selectedImage (selection_effect s) = Some sel.
Proof.
  intros Hs Hi. unfold selection_effect. rewrite Hi, Hs. exact Hs.
Qed.

Lemma render_keeps_selection s sel :
  selectedImage s = Some sel -> images s <> [] ->
  selectedImage (render s) = Some sel /\ images (render s) <> [].
Proof.
  intros Hs Hi. split.
  - unfold render, admission_effect.
    destruct (images s) as [|first rest] eqn:E; [contradiction|].
    assert (H : selectedImage (selection_effect (sync_refs s)) = Some sel)
      by (apply (selection_effect_keeps _ sel first rest); assumption).
    destruct (admission_cond s); [rewrite processQueue_selectedImage|]; exact H.
  - intro E. apply Hi. apply length_zero_iff_nil.
    apply (f_equal (@length CompressedImage)) in E. simpl in E.
    destruct (render_cases s) as [[C _] | [a H]].
    + destruct (render_no_admission s C) as (Him & _). rewrite Him in E. exact E.
    + rewrite (adm_images _ _ _ H), update_id_length in E. exact E.
Qed.

Lemma renders_keep_selection n s sel :
  selectedImage s = Some sel -> images s <> [] ->
  selectedImage (renders n s) = Some sel.
Proof.
  revert s. induction n as [|n IH]; intros s Hs Hi; simpl; [exact Hs|].
  destruct (render_keeps_selection s sel Hs Hi) as [Hs' Hi']. apply IH; assumption.
Qed.

(** X14. The selection is a copy of a job record that the queue never
    refreshes: while the list is not empty, neither the admission of jobs by
    the render passes nor the settlement of a compression started by
    [processQueue] changes [selectedImage], so the selected copy keeps the
    status and the (missing) result it had when it was selected. *)
Theorem selection_is_a_snapshot (s : State) (sel : CompressedImage) :
  selectedImage s = Some sel -> images s <> [] ->
  (forall n, selectedImage (renders n s) = Some sel)
  /\ (forall nextId img cl o n,
        selectedImage (renders n (processQueue_settle nextId img cl o s)) = Some sel).
Proof.
  intros Hs Hi. split; [intro n; apply renders_keep_selection; assumption|].
  intros nextId img cl o n. apply renders_keep_selection.
  - unfold processQueue_settle.
    destruct (compressImage (originalFile img) (cl_settings cl) o); exact Hs.
  - unfold processQueue_settle.
    destruct (compressImage (originalFile img) (cl_settings cl) o); simpl;
      intro E; apply Hi; apply length_zero_iff_nil;
      apply (f_equal (@length CompressedImage)) in E;
      rewrite update_id_length in E; exact E.
Qed.

Lemma selection_is_a_snapshot_witness :
  let s := Sample.state_after [EvFiles (Some [Sample.png "1" 1000]) Sample.draws] in
  let sel := new_image (Sample.draws 0) (Sample.png "1" 1000) in
  let s' := Sample.state_after [EvFiles (Some [Sample.png "1" 1000]) Sample.draws;
                                EvSettle 1 Sample.done] in
  selectedImage s = Some sel /\ images s <> [] /\
  status sel = Queued /\ map status (images s') = [Compressed] /\
  option_map status (selectedImage s') = Some Queued /\
  (forall n, selectedImage (renders n s) = Some sel)
  /\ (forall nextId img cl o n,
        selectedImage (renders n (processQueue_settle nextId img cl o s)) = Some sel).
Proof.
  cbv zeta.
  set (s := Sample.state_after [EvFiles (Some [Sample.png "1" 1000]) Sample.draws]).
  set (s' := Sample.state_after [EvFiles (Some [Sample.png "1" 1000]) Sample.draws;
                                 EvSettle 1 Sample.done]).
  assert (H1 : selectedImage s = Some (new_image (Sample.draws 0) (Sample.png "1" 1000)))
    by (vm_compute; reflexivity).
  assert (H2 : images s <> []) by (vm_compute; discriminate).
  assert (H3 : status (new_image (Sample.draws 0) (Sample.png "1" 1000)) = Queued)
    by reflexivity.
  assert (H4 : map status (images s') = [Compressed]) by (vm_compute; reflexivity).
  assert (H5 : option_map status (selectedImage s') = Some Queued)
    by (vm_compute; reflexivity).
  exact (conj H1 (conj H2 (conj H3 (conj H4 (conj H5
           (selection_is_a_snapshot s _ H1 H2)))))).
Defined.
